(** * moodle2polygon: a shallow embedding of [moodle2polygon.py]

    The script reads a Moodle CodeRunner XML export, splits every task text
    into legend / input format / output format, picks a checker from the first
    test and drives the Polygon API (signed requests, package polling).

    Layout of this file:
    - [Py]: the Python built-ins the script relies on ([str] methods, [join],
      [split], [re.sub] with the fixed patterns of the script);
    - [Runtime]: the built-ins that are table driven in CPython (Unicode case
      mapping, digit classes, [float], [int], the HTML entity table, SHA-512,
      the URL check of [urllib], ...), kept abstract as a class;
      [basic_runtime] is an instance that is exact on ASCII and Cyrillic text
      and is used to run the model on examples;
    - the translation of the script, function by function, under the names of
      the source;
    - the vocabulary of the properties and sample data;
    - the properties, each claim under its number;
    - further properties: what the classifier keeps, normal forms of the
      texts, the contest name, slugs and problem codes, the calls of the
      workflow and of [main], the script of exchanges, the client. *)

From Stdlib Require Import Ascii String DecimalString.
From Stdlib Require Import List ZArith NArith Bool Lia Permutation Sorted.
From Stdlib Require DecimalZ DecimalFacts DecimalPos.
Import ListNotations.

(* ================================================================= *)
(** ** Python strings and their built-in methods *)
(* ================================================================= *)

Module Py.

#[local] Open Scope bool_scope.
#[local] Open Scope N_scope.

(** A Python [str] is a sequence of Unicode code points. *)
Definition char := N.
Definition str := list char.
Bind Scope N_scope with char.

(** ASCII literals of the source, [lit "input"]. *)
Definition lit (s : String.string) : str :=
  map N_of_ascii (list_ascii_of_string s).

Definition char_eqb (a b : char) : bool := N.eqb a b.

Fixpoint str_eqb (a b : str) : bool :=
  match a, b with
  | [], [] => true
  | x :: a', y :: b' => char_eqb x y && str_eqb a' b'
  | _, _ => false
  end.

Definition in_range (lo hi c : char) : bool := N.leb lo c && N.leb c hi.

(** [str.isspace] for one character, also the class [\s] of [re] on [str]
    patterns and the characters removed by [str.strip()]. *)
Definition isspace (c : char) : bool :=
  in_range 0x09 0x0D c || in_range 0x1C 0x20 c || char_eqb c 0x85
  || char_eqb c 0xA0 || char_eqb c 0x1680 || in_range 0x2000 0x200A c
  || char_eqb c 0x2028 || char_eqb c 0x2029 || char_eqb c 0x202F
  || char_eqb c 0x205F || char_eqb c 0x3000.

(** Line boundaries of [str.splitlines]. *)
Definition is_linebreak (c : char) : bool :=
  in_range 0x0A 0x0D c || in_range 0x1C 0x1E c || char_eqb c 0x85
  || char_eqb c 0x2028 || char_eqb c 0x2029.

Fixpoint dropWhile (p : char -> bool) (s : str) : str :=
  match s with
  | [] => []
  | c :: s' => if p c then dropWhile p s' else s
  end.

Fixpoint takeWhile (p : char -> bool) (s : str) : str :=
  match s with
  | [] => []
  | c :: s' => if p c then c :: takeWhile p s' else []
  end.

Definition lstrip (s : str) : str := dropWhile isspace s.
Definition rstrip (s : str) : str := rev (dropWhile isspace (rev s)).
Definition strip (s : str) : str := rstrip (lstrip s).

(** [s.rstrip(chars)] for a one-character set. *)
Definition rstrip_char (c : char) (s : str) : str :=
  rev (dropWhile (char_eqb c) (rev s)).

(** [sep.join(parts)]. *)
Fixpoint join (sep : str) (parts : list str) : str :=
  match parts with
  | [] => []
  | [p] => p
  | p :: ps => p ++ sep ++ join sep ps
  end.

(** [s.startswith(p)], and the remainder when it holds. *)
Fixpoint strip_prefix (p s : str) : option str :=
  match p, s with
  | [], _ => Some s
  | x :: p', y :: s' => if char_eqb x y then strip_prefix p' s' else None
  | _ :: _, [] => None
  end.

Definition startswith (p s : str) : bool :=
  match strip_prefix p s with Some _ => true | None => false end.

(** [sub in s]. *)
Fixpoint contains (sub s : str) : bool :=
  startswith sub s ||
  match s with
  | [] => false
  | _ :: s' => contains sub s'
  end.

(** First occurrence of [sub] in [s]: the text before it and the text after. *)
Fixpoint cut (sub s : str) : option (str * str) :=
  match strip_prefix sub s with
  | Some rest => Some ([], rest)
  | None =>
      match s with
      | [] => None
      | c :: s' =>
          match cut sub s' with
          | Some (before, after) => Some (c :: before, after)
          | None => None
          end
      end
  end.

(** [s.split(sep)] for a non-empty separator.  Every cut consumes at least
    one character, so [length s] rounds are enough. *)
Fixpoint split_rounds (n : nat) (sep s : str) : list str :=
  match n with
  | O => [s]
  | S n' =>
      match cut sep s with
      | None => [s]
      | Some (before, after) => before :: split_rounds n' sep after
      end
  end.

Definition split (sep s : str) : list str := split_rounds (length s) sep s.

(** [s.replace(old, new)] for a non-empty [old]. *)
Definition replace (old new s : str) : str := join new (split old s).

(** [s.splitlines()]: a line ends at any line boundary, CR LF counts once,
    and no empty line is reported after a final boundary. *)
Fixpoint splitlines (s : str) : list str :=
  match s with
  | [] => []
  | c :: rest =>
      if is_linebreak c then
        match rest with
        | d :: rest' =>
            if char_eqb c 0x0D && char_eqb d 0x0A
            then [] :: splitlines rest'
            else [] :: splitlines rest
        | [] => [ [] ]
        end
      else
        match splitlines rest with
        | [] => [ [c] ]
        | l :: ls => (c :: l) :: ls
        end
  end.

Definition not_space (c : char) : bool := negb (isspace c).

(** [s.split(None, 1)[0]] on a string with no leading whitespace: its first
    whitespace-delimited word. *)
Definition first_field (s : str) : str := takeWhile not_space s.

(** [re.sub(pattern, repl, s)] for a pattern given by its matcher: [m s]
    is the text left after a match anchored at the head of [s].  All patterns
    of the script match at least one character, hence the [length s] rounds. *)
Fixpoint re_sub_rounds (n : nat) (m : str -> option str) (repl s : str) : str :=
  match n with
  | O => s
  | S n' =>
      match s with
      | [] => []
      | c :: s' =>
          match m s with
          | Some rest => repl ++ re_sub_rounds n' m repl rest
          | None => c :: re_sub_rounds n' m repl s'
          end
      end
  end.

Definition re_sub (m : str -> option str) (repl s : str) : str :=
  re_sub_rounds (length s) m repl s.

(** [re.sub(r"\s+", " ", s)]: every maximal run of whitespace becomes one
    space; [in_run] tells that the previous character was whitespace. *)
Fixpoint sub_spaces (in_run : bool) (s : str) : str :=
  match s with
  | [] => []
  | c :: s' =>
      if isspace c
      then (if in_run then sub_spaces true s' else 0x20 :: sub_spaces true s')
      else c :: sub_spaces false s'
  end.

(** [str(n)] for an [int].  The interpreter refuses to convert a number of
    more digits than its limit, 4300 by default; [json.loads] and [int] stop
    at the same limit, so that no such number reaches the script, and the
    limit is left out here. *)
Definition str_of_int (z : Z) : str :=
  lit (NilZero.string_of_int (Z.to_int z)).

(** Comparison of two strings by [<], code point by code point. *)
Fixpoint str_compare (a b : str) : comparison :=
  match a, b with
  | [], [] => Eq
  | [], _ :: _ => Lt
  | _ :: _, [] => Gt
  | x :: a', y :: b' =>
      match N.compare x y with
      | Eq => str_compare a' b'
      | c => c
      end
  end.


(** [str(n)] for a count. *)
Definition str_of_nat (n : nat) : str := str_of_int (Z.of_nat n).

(** One digit of ["0123456789abcdef"]. *)
Definition hex_digit (n : N) : char := if n <? 10 then 48 + n else 87 + n.

(** The last [k] digits of [n] in base 16, the most significant first. *)
Fixpoint hex_digits (k : nat) (n : N) : str :=
  match k with
  | O => []
  | S k' => hex_digits k' (n / 16) ++ [hex_digit (n mod 16)]
  end.

(** A surrogate code point: [s.encode("utf-8")] refuses it. *)
Definition is_surrogate (c : char) : bool := in_range 0xD800 0xDFFF c.

(** [str(exc)] for the [UnicodeEncodeError] of [s.encode("utf-8")], when it
    raises: it names the first run of surrogates, [pos] being the position of
    the head of [s] in the text encoded. *)
Fixpoint utf8_error_from (pos : nat) (s : str) : option str :=
  match s with
  | [] => None
  | c :: s' =>
      if is_surrogate c then
        Some match takeWhile is_surrogate s' with
             | [] =>
                 lit "'utf-8' codec can't encode character '\u"
                 ++ hex_digits 4 c ++ lit "' in position " ++ str_of_nat pos
                 ++ lit ": surrogates not allowed"
             | run =>
                 lit "'utf-8' codec can't encode characters in position "
                 ++ str_of_nat pos ++ lit "-"
                 ++ str_of_nat (pos + length run)%nat
                 ++ lit ": surrogates not allowed"
             end
      else utf8_error_from (S pos) s'
  end.

Definition utf8_error (s : str) : option str := utf8_error_from 0 s.

End Py.
Import Py.

#[local] Open Scope bool_scope.

(* ================================================================= *)
(** ** Table-driven built-ins *)
(* ================================================================= *)

(** The built-ins whose behaviour is a table of the Unicode database, a
    library of its own or the wording of the interpreter.  The script is
    translated over an arbitrary [Runtime]; nothing is assumed about these
    functions. *)
Class Runtime := {
  (** [s.lower()] *)
  lower : str -> str;
  (** [_charref.sub(_replace_charref, s)] of [html.unescape]: the HTML5
      character reference table *)
  charref_sub : str -> str;
  (** the class [\d] of [re] on a [str] pattern *)
  re_digit : char -> bool;
  (** [ch.isdigit()] *)
  isdigit : char -> bool;
  (** [float(s)] returns, rather than raising [ValueError] *)
  float_ok : str -> bool;
  (** [hashlib.sha512(s.encode("utf-8")).hexdigest()], for a text that
      [encode] takes *)
  sha512_hex : str -> str;
  (** [pathlib.Path(s).stem] *)
  path_stem : str -> str;
  (** [urllib.request.Request(url, data=...)]: the message of the
      [ValueError] it raises for a URL it finds no scheme in, [None] when the
      request object is built *)
  url_error : str -> option str;
  (** [int(s)] for a [str]: the number, or the message of the [ValueError]
      raised *)
  int_of_str : str -> Z + str;
  (** the message of the [TypeError] of [int(v)] for [v] of the type named *)
  int_type_error : str -> str
}.

(* ================================================================= *)
(** ** The data classes *)
(* ================================================================= *)

Record TestCase := {
  index : Z;
  input_data : str;
  output_data : str;
  use_in_statements : bool
}.

Record MoodleTask := {
  name : str;
  legend : str;
  input_format : str;
  output_format : str;
  solution : str;
  tests : list TestCase
}.

(** [_bool] *)
Definition _bool (value : bool) : str :=
  if value then lit "true" else lit "false".

(* ================================================================= *)
(** ** [extract_text_sections] *)
(* ================================================================= *)

(** *** The regular expressions of lines 156-162, as matchers *)

(** One pattern character under [(?i)]: an ASCII letter matches both cases,
    [i] also U+0130 and U+0131, [s] also U+017F, [k] also U+212A. *)
Definition ci_char (p c : char) : bool :=
  char_eqb c p
  || (in_range 0x61 0x7A p && char_eqb c (p - 32)%N)
  || (char_eqb p 0x69 && (char_eqb c 0x130 || char_eqb c 0x131))
  || (char_eqb p 0x73 && char_eqb c 0x17F)
  || (char_eqb p 0x6B && char_eqb c 0x212A).

(** A literal under [(?i)]. *)
Fixpoint ci_prefix (p s : str) : option str :=
  match p, s with
  | [], _ => Some s
  | x :: p', y :: s' => if ci_char x y then ci_prefix p' s' else None
  | _ :: _, [] => None
  end.

(** [[^>]*>]: everything up to and including the next [>]. *)
Definition to_tag_end (s : str) : option str :=
  match dropWhile (fun c => negb (char_eqb c 0x3E)) s with
  | _ :: rest => Some rest
  | [] => None
  end.

(** [(a|b|...)tail]: the alternatives in order, each followed by [tail]. *)
Fixpoint alternatives (alts : list str) (tail : str -> option str) (s : str)
  : option str :=
  match alts with
  | [] => None
  | a :: alts' =>
      match ci_prefix a s with
      | Some r =>
          match tail r with
          | Some rest => Some rest
          | None => alternatives alts' tail s
          end
      | None => alternatives alts' tail s
      end
  end.

Definition block_tags : list str := [lit "p"; lit "div"; lit "h4"; lit "h5"].
Definition inline_tags : list str := [lit "span"; lit "strong"; lit "b"; lit "i"].

(** [(?i)<br\s*/?>] *)
Definition re_br (s : str) : option str :=
  match ci_prefix (lit "<br") s with
  | Some r =>
      let r1 := dropWhile isspace r in
      let r2 := match r1 with
                | c :: r' => if char_eqb c 0x2F then r' else r1
                | [] => r1
                end in
      strip_prefix (lit ">") r2
  | None => None
  end.

(** [(?i)</(p|div|h4|h5)>] *)
Definition re_block_close (s : str) : option str :=
  match strip_prefix (lit "</") s with
  | Some r => alternatives block_tags (strip_prefix (lit ">")) r
  | None => None
  end.

(** [(?i)<(p|div|h4|h5)[^>]*>] *)
Definition re_block_open (s : str) : option str :=
  match strip_prefix (lit "<") s with
  | Some r => alternatives block_tags to_tag_end r
  | None => None
  end.

(** [(?i)</?(span|strong|b|i)[^>]*>] *)
Definition re_inline (s : str) : option str :=
  match strip_prefix (lit "<") s with
  | Some r =>
      let without_slash := alternatives inline_tags to_tag_end r in
      match r with
      | c :: r' =>
          if char_eqb c 0x2F then
            match alternatives inline_tags to_tag_end r' with
            | Some rest => Some rest
            | None => without_slash
            end
          else without_slash
      | [] => without_slash
      end
  | None => None
  end.

(** [<[^>]+>] *)
Definition re_tag (s : str) : option str :=
  match strip_prefix (lit "<") s with
  | Some (c :: r) => if char_eqb c 0x3E then None else to_tag_end r
  | _ => None
  end.

(** *** The constants of the scan *)

(** "вход", "выход", "дан" *)
Definition ru_input_stem : str := [0x432; 0x445; 0x43E; 0x434]%N.
Definition ru_output_stem : str := [0x432; 0x44B; 0x445; 0x43E; 0x434]%N.
Definition ru_data_stem : str := [0x434; 0x430; 0x43D]%N.

(** "Входные данные отсутствуют", "Выходные данные отсутствуют" *)
Definition no_input_placeholder : str :=
  [0x412; 0x445; 0x43E; 0x434; 0x43D; 0x44B; 0x435; 0x20; 0x434; 0x430; 0x43D;
   0x43D; 0x44B; 0x435; 0x20; 0x43E; 0x442; 0x441; 0x443; 0x442; 0x441; 0x442;
   0x432; 0x443; 0x44E; 0x442]%N.
Definition no_output_placeholder : str :=
  [0x412; 0x44B; 0x445; 0x43E; 0x434; 0x43D; 0x44B; 0x435; 0x20; 0x434; 0x430;
   0x43D; 0x43D; 0x44B; 0x435; 0x20; 0x43E; 0x442; 0x441; 0x443; 0x442; 0x441;
   0x442; 0x432; 0x443; 0x44E; 0x442]%N.

Definition newline : str := [0x0A]%N.
Definition blank_line : str := [0x0A; 0x0A]%N.

Inductive section_name := Legend | Input | Output.

(** The state of the loop of lines 171-191. *)
Record scan_state := {
  current : section_name;
  legend_lines : list str;
  input_lines : list str;
  output_lines : list str
}.

Definition scan_start : scan_state :=
  {| current := Legend; legend_lines := []; input_lines := [];
     output_lines := [] |}.

Definition switch_to (sec : section_name) (st : scan_state) : scan_state :=
  {| current := sec; legend_lines := legend_lines st;
     input_lines := input_lines st; output_lines := output_lines st |}.

Definition append_line (line : str) (st : scan_state) : scan_state :=
  match current st with
  | Legend =>
      {| current := Legend; legend_lines := legend_lines st ++ [line];
         input_lines := input_lines st; output_lines := output_lines st |}
  | Input =>
      {| current := Input; legend_lines := legend_lines st;
         input_lines := input_lines st ++ [line];
         output_lines := output_lines st |}
  | Output =>
      {| current := Output; legend_lines := legend_lines st;
         input_lines := input_lines st;
         output_lines := output_lines st ++ [line] |}
  end.

Section Classifier.
Context {rt : Runtime}.

(** [html.unescape] *)
Definition unescape (s : str) : str :=
  if contains (lit "&") s then charref_sub s else s.

(** Lines 155-162: from the markup to plain text. *)
Definition markup_to_text (html : str) : str :=
  let html := replace [0xA0%N] (lit " ") html in
  let html := replace (lit "&nbsp;") (lit " ") html in
  let html := re_sub re_br newline html in
  let html := re_sub re_block_close newline html in
  let html := re_sub re_block_open [] html in
  let html := re_sub re_inline [] html in
  let text := unescape html in
  re_sub re_tag [] text.

(** Lines 164-165: the stripped, non-empty lines. *)
Definition content_lines (text : str) : list str :=
  filter (fun line => negb (str_eqb line [])) (map strip (splitlines text)).

(** The four tests of lines 173-184, in their order: the section a line
    opens, if it is a marker. *)
Definition marker_of (line : str) : option section_name :=
  let normalized := lower line in
  if startswith ru_input_stem normalized && contains ru_data_stem normalized
  then Some Input
  else if startswith (lit "input") normalized then Some Input
  else if startswith ru_output_stem normalized
          && contains ru_data_stem normalized
  then Some Output
  else if startswith (lit "output") normalized then Some Output
  else None.

(** One round of the loop of lines 171-191. *)
Definition scan_line (st : scan_state) (line : str) : scan_state :=
  match marker_of line with
  | Some sec => switch_to sec st
  | None => append_line line st
  end.

(** The loop, from any state. *)
Definition scan_from (st : scan_state) (lines : list str) : scan_state :=
  fold_left scan_line lines st.

Definition scan (lines : list str) : scan_state := scan_from scan_start lines.

(** Lines 193-196. *)
Definition sections_of_scan (st : scan_state) : str * str * str :=
  let legend := match legend_lines st with
                | [] => []
                | ls => join blank_line ls
                end in
  let input_format := match input_lines st with
                      | [] => no_input_placeholder
                      | ls => join newline ls
                      end in
  let output_format := match output_lines st with
                       | [] => no_output_placeholder
                       | ls => join newline ls
                       end in
  (legend, input_format, output_format).

(** Lines 164-196: the classification of plain text. *)
Definition sections_of_text (text : str) : str * str * str :=
  sections_of_scan (scan (content_lines text)).

Definition extract_text_sections (html : str) : str * str * str :=
  sections_of_text (markup_to_text html).

(** [_normalize_whitespace] *)
Definition _normalize_whitespace (value : str) : str :=
  sub_spaces false (strip value).

(** [s.split(None, 1)] *)
Definition split_first_word (s : str) : list str :=
  match lstrip s with
  | [] => []
  | s' =>
      let word := first_field s' in
      match lstrip (dropWhile not_space s') with
      | [] => [word]
      | rest => [word; rest]
      end
  end.

(** [_extract_first_word] *)
Definition _extract_first_word (value : str) : str :=
  let stripped := lstrip value in
  match stripped with
  | [] => []
  | _ =>
      match split_first_word stripped with
      | [] => []
      | part :: _ => part
      end
  end.

(** [\d+] up to the end of the text. *)
Definition all_digits (s : str) : bool :=
  match s with
  | [] => false
  | _ => forallb re_digit s
  end.

(** [_is_integer_token]: [re.fullmatch(r"[+-]?\d+", token)]; the sign is
    taken first, and given back if the digits do not follow. *)
Definition _is_integer_token (token : str) : bool :=
  match token with
  | c :: rest =>
      ((char_eqb c 0x2B || char_eqb c 0x2D) && all_digits rest)
      || all_digits token
  | [] => false
  end.

(** [_is_float_token] *)
Definition _is_float_token (token : str) : bool :=
  match token with
  | [] => false
  | _ =>
      if _is_integer_token token then false
      else if negb (float_ok token) then false
      else existsb isdigit token
           && existsb (fun ch => existsb (char_eqb ch) (lit ".eE")) token
  end.

Definition lcmp : str := lit "std::lcmp.cpp".
Definition ncmp : str := lit "std::ncmp.cpp".
Definition rcmp9 : str := lit "std::rcmp9.cpp".

(** [_select_checker] *)
Definition _select_checker (task : MoodleTask) : str :=
  match tests task with
  | [] => lcmp
  | first :: _ =>
      let first_word := _extract_first_word (output_data first) in
      match first_word with
      | [] => lcmp
      | _ =>
          if _is_integer_token first_word then ncmp
          else if _is_float_token first_word then rcmp9
          else lcmp
      end
  end.

(** [_strip_redundant_title] *)
Fixpoint drop_blank_sections (sections : list str) : list str :=
  match sections with
  | [] => []
  | s :: rest =>
      match strip s with
      | [] => drop_blank_sections rest
      | _ => sections
      end
  end.

Definition _strip_redundant_title (legend title : str) : str :=
  match legend with
  | [] => legend
  | _ =>
      match split blank_line legend with
      | [] => legend
      | first :: rest =>
          let normalized_title := lower (_normalize_whitespace title) in
          let normalized_first := lower (_normalize_whitespace first) in
          if negb (str_eqb normalized_first normalized_title) then legend
          else join blank_line (drop_blank_sections rest)
      end
  end.

End Classifier.

(* ================================================================= *)
(** ** Exceptions *)
(* ================================================================= *)

(** Decoded JSON, as [json.loads] returns it.  Numbers are integers: the
    script reads no fractional number from the API. *)
#[local] Unset Elimination Schemes.
Inductive json :=
| JNull
| JBool (b : bool)
| JInt (z : Z)
| JStr (s : str)
| JList (items : list json)
| JDict (entries : list (str * json)).

Inductive exn :=
| ValueError (message : str)
| TypeError (message : str)
| UnicodeEncodeError (message : str)
| PolygonAPIError (arg : json).

Inductive result (A : Type) :=
| Ok (value : A)
| Raise (e : exn).
Arguments Ok {A} value.
Arguments Raise {A} e.

(* ================================================================= *)
(** ** [parse_moodle_xml] *)
(* ================================================================= *)

(** An [xml.etree.ElementTree.Element]: tag, attributes, text and children. *)
Inductive element :=
| Element (tag : str) (attrib : list (str * str)) (text : option str)
          (children : list element).
#[local] Set Elimination Schemes.

Definition tag_of (e : element) : str :=
  match e with Element t _ _ _ => t end.
Definition attrib_of (e : element) : list (str * str) :=
  match e with Element _ a _ _ => a end.
Definition text_of (e : element) : option str :=
  match e with Element _ _ t _ => t end.
Definition children_of (e : element) : list element :=
  match e with Element _ _ _ c => c end.

(** A [dict] with string keys keeps its insertion order. *)
Fixpoint dict_get {V : Type} (key : str) (d : list (str * V)) : option V :=
  match d with
  | [] => None
  | (k, v) :: d' => if str_eqb k key then Some v else dict_get key d'
  end.

(** [d[key] = value]: an existing key keeps its place. *)
Fixpoint dict_set {V : Type} (key : str) (value : V) (d : list (str * V))
  : list (str * V) :=
  match d with
  | [] => [(key, value)]
  | (k, v) :: d' =>
      if str_eqb k key then (k, value) :: d'
      else (k, v) :: dict_set key value d'
  end.

(** [elem.get(key, default)] *)
Definition get_attr (key default : str) (e : element) : str :=
  match dict_get key (attrib_of e) with
  | Some v => v
  | None => default
  end.

(** [elem.findall(path)] for a path of tags separated by [/], in document
    order. *)
Definition child_step (tag : str) (es : list element) : list element :=
  flat_map (fun e => filter (fun c => str_eqb (tag_of c) tag) (children_of e))
           es.

Definition findall (path : list str) (e : element) : list element :=
  fold_left (fun es tag => child_step tag es) path [e].

(** [elem.find(path)] *)
Definition find (path : list str) (e : element) : option element :=
  hd_error (findall path e).

(** [text or default] for the text of a node. *)
Definition text_or (default : str) (text : option str) : str :=
  match text with
  | Some (c :: s) => c :: s
  | _ => default
  end.

Definition name_path : list str := [lit "name"; lit "text"].
Definition questiontext_path : list str := [lit "questiontext"; lit "text"].
Definition answer_path : list str := [lit "answer"].
Definition testcase_path : list str := [lit "testcases"; lit "testcase"].
Definition stdin_path : list str := [lit "stdin"; lit "text"].
Definition expected_path : list str := [lit "expected"; lit "text"].

(** The loop of lines 290-299; [idx] is the counter of [enumerate]. *)
Fixpoint collect_tests (idx : Z) (testcases : list element)
    (tests : list TestCase) : list TestCase :=
  match testcases with
  | [] => tests
  | testcase :: rest =>
      match find stdin_path testcase, find expected_path testcase with
      | Some stdin_node, Some expected_node =>
          let use_example :=
            str_eqb (get_attr (lit "useasexample") (lit "0") testcase)
                    (lit "1") in
          let input_data := text_or [] (text_of stdin_node) in
          let output_data := text_or [] (text_of expected_node) in
          collect_tests (idx + 1) rest
            (tests ++ [ {| index := idx; input_data := input_data;
                           output_data := output_data;
                           use_in_statements := use_example |} ])
      | _, _ => collect_tests (idx + 1) rest tests
      end
  end.

Definition malformed_entry : exn :=
  ValueError (lit "Malformed question entry in Moodle export").

Definition unnamed_task : str := lit "Unnamed task".

Section ExportReader.
Context {rt : Runtime}.

(** Lines 278-310: one question of type [coderunner]. *)
Definition parse_question (question : element) : result MoodleTask :=
  match find name_path question, find questiontext_path question,
        find answer_path question with
  | Some name_node, Some questiontext_node, Some answer_node =>
      let '(legend, input_format, output_format) :=
        extract_text_sections (text_or [] (text_of questiontext_node)) in
      let name := strip (text_or unnamed_task (text_of name_node)) in
      let legend := _strip_redundant_title legend name in
      let tests :=
        collect_tests 1 (findall testcase_path question) [] in
      Ok {| name := name; legend := legend; input_format := input_format;
            output_format := output_format;
            solution := strip (text_or [] (text_of answer_node));
            tests := tests |}
  | _, _, _ => Raise malformed_entry
  end.

(** Lines 268-272: the contest name a category question gives. *)
Definition category_name (question : element) (contest_name : str) : str :=
  match find [lit "category"] question with
  | Some category =>
      match find [lit "text"] category with
      | Some text_node =>
          match text_of text_node with
          | Some (c :: s) => last (split (lit "/") (strip (c :: s))) []
          | _ => contest_name
          end
      | None => contest_name
      end
  | None => contest_name
  end.

(** The loop of lines 265-310. *)
Fixpoint parse_questions (questions : list element) (contest_name : str)
    (tasks : list MoodleTask) : result (str * list MoodleTask) :=
  match questions with
  | [] => Ok (contest_name, tasks)
  | question :: rest =>
      let qtype := get_attr (lit "type") [] question in
      if str_eqb qtype (lit "category") && str_eqb contest_name [] then
        parse_questions rest (category_name question contest_name) tasks
      else if negb (str_eqb qtype (lit "coderunner")) then
        parse_questions rest contest_name tasks
      else
        match parse_question question with
        | Ok task => parse_questions rest contest_name (tasks ++ [task])
        | Raise e => Raise e
        end
  end.

(** [parse_moodle_xml], on the root element [ET.parse(path)] read. *)
Definition parse_moodle_xml (path : str) (root : element)
  : result (str * list MoodleTask) :=
  match parse_questions (findall [lit "question"] root) [] [] with
  | Raise e => Raise e
  | Ok (contest_name, tasks) =>
      let contest_name :=
        match contest_name with
        | [] => path_stem path
        | _ => contest_name
        end in
      Ok (match contest_name with
          | [] => lit "Moodle Contest"
          | _ => contest_name
          end, tasks)
  end.

End ExportReader.

(* ================================================================= *)
(** ** [PolygonAPI] *)
(* ================================================================= *)

(** The values the script puts in request parameters. *)
Inductive pyval :=
| VBool (b : bool)
| VInt (z : Z)
| VStr (s : str).

Record PolygonAPI := {
  api_url : str;
  api_key : str;
  api_secret : str
}.

(** [PolygonAPI.__init__] *)
Definition PolygonAPI_init (url key secret : str) : PolygonAPI :=
  {| api_url := rstrip_char 0x2F url; api_key := key; api_secret := secret |}.

(** [PolygonAPI._stringify_value] *)
Definition _stringify_value (value : pyval) : str :=
  match value with
  | VBool b => _bool b
  | VInt z => str_of_int z
  | VStr s => s
  end.

(** The order of [sorted] with key [(item[0], item[1])]: tuples compare by
    their first components, then by their second ones. *)
Definition item_compare (a b : str * str) : comparison :=
  match str_compare (fst a) (fst b) with
  | Eq => str_compare (snd a) (snd b)
  | c => c
  end.

Definition item_ltb (a b : str * str) : bool :=
  match item_compare a b with Lt => true | _ => false end.

(** [sorted] is stable: an item goes before the items that are not smaller. *)
Fixpoint insert_item (x : str * str) (l : list (str * str))
  : list (str * str) :=
  match l with
  | [] => [x]
  | y :: l' => if item_ltb y x then y :: insert_item x l' else x :: l
  end.

Definition sorted (items : list (str * str)) : list (str * str) :=
  fold_right insert_item [] items.

(** ["&".join(f"{key}={value}" ...)] *)
Definition query_of (items : list (str * str)) : str :=
  join (lit "&") (map (fun item => fst item ++ lit "=" ++ snd item) items).

Section Signature.
Context {rt : Runtime}.

(** The [signature_base] of line 125. *)
Definition signature_base (self : PolygonAPI) (rand method : str)
    (params : list (str * str)) : str :=
  let sorted_items := sorted params in
  let query := query_of sorted_items in
  rand ++ lit "/" ++ method ++ lit "?" ++ query ++ lit "#" ++ api_secret self.

(** [PolygonAPI._build_signature]; [rand] is the value line 122 draws.  The
    [encode] of line 126 raises on a text with a surrogate. *)
Definition _build_signature (self : PolygonAPI) (rand method : str)
    (params : list (str * str)) : result str :=
  let signature_base := signature_base self rand method params in
  match utf8_error signature_base with
  | Some message => Raise (UnicodeEncodeError message)
  | None =>
      let digest := sha512_hex signature_base in
      Ok (rand ++ digest)
  end.

End Signature.

(** *** The remote side *)

(** What the HTTP exchange of lines 90-115 ends in: a [PolygonAPIError]
    raised there, or the decoded JSON object.  Another exception that leaves
    [urlopen] and a reply that decodes to something other than an object are
    not covered. *)
Inductive response :=
| Failure (message : str)
| Reply (data : list (str * json)).

(** One request as the environment answers it: the nonce [random.choices]
    draws, as the number its six digits spell in base 16, the whole seconds
    the call takes, and the response. *)
Record exchange := {
  nonce : N;
  latency : Z;
  answer : response
}.

(** Line 122: six characters of ["0123456789abcdef"]. *)
Definition rand_of (x : exchange) : str := hex_digits 6 (nonce x).

(** A request as sent: URL and form parameters. *)
Record call := {
  url : str;
  form : list (str * str)
}.

(** The world around the script: the clock, the exchanges to come, and the
    calls made so far. *)
Record world := {
  now : Z;
  script : list exchange;
  sent : list call
}.

(** Effectful code: it may raise, it changes the world, and it has no answer
    ([None]) when the script of exchanges is used up or a reply has a shape
    the model does not cover. *)
Definition M (A : Type) : Type := world -> option (result A * world).

Definition ret {A : Type} (a : A) : M A := fun w => Some (Ok a, w).

Definition raise {A : Type} (e : exn) : M A := fun w => Some (Raise e, w).

Definition stuck {A : Type} : M A := fun _ => None.

Definition bind {A B : Type} (m : M A) (k : A -> M B) : M B :=
  fun w =>
    match m w with
    | None => None
    | Some (Raise e, w') => Some (Raise e, w')
    | Some (Ok a, w') => k a w'
    end.

Notation "x <- m ;; k" := (bind m (fun x => k))
  (at level 61, m at next level, right associativity).
Notation "m ;;; k" := (bind m (fun _ => k))
  (at level 61, right associativity).

(** [_now] *)
Definition _now : M Z := fun w => Some (Ok (now w), w).

(** [time.sleep(seconds)] *)
Definition sleep (seconds : Z) : M unit :=
  fun w =>
    Some (Ok tt, {| now := now w + seconds; script := script w;
                    sent := sent w |}).

Definition is_str (s : str) (j : option json) : bool :=
  match j with
  | Some (JStr s') => str_eqb s' s
  | _ => false
  end.

(** Lines 117-119. *)
Definition check_status (data : list (str * json)) : result json :=
  if negb (is_str (lit "OK") (dict_get (lit "status") data)) then
    Raise (PolygonAPIError
             match dict_get (lit "comment") data with
             | Some comment => comment
             | None => JStr (lit "Unknown API error")
             end)
  else
    Ok match dict_get (lit "result") data with
       | Some r => r
       | None => JNull
       end.

Section Client.
Context {rt : Runtime}.

(** Lines 78-82: the parameters with the key and the time, as texts. *)
Definition stringified (self : PolygonAPI) (time : Z)
    (params : list (str * pyval)) : list (str * str) :=
  let params := dict_set (lit "apiKey") (VStr (api_key self)) params in
  let params := dict_set (lit "time") (VStr (str_of_int time)) params in
  map (fun kv => (fst kv, _stringify_value (snd kv))) params.

(** Lines 78-84: the parameters as signed and sent. *)
Definition signed_params (self : PolygonAPI) (rand method : str) (time : Z)
    (params : list (str * pyval)) : result (list (str * str)) :=
  let params := stringified self time params in
  match _build_signature self rand method params with
  | Raise e => Raise e
  | Ok signature => Ok (dict_set (lit "apiSig") signature params)
  end.

(** The form of a request whose signature line 126 could encode. *)
Definition signed_form (self : PolygonAPI) (rand method : str) (time : Z)
    (params : list (str * pyval)) : list (str * str) :=
  let params := stringified self time params in
  let signature_base := signature_base self rand method params in
  dict_set (lit "apiSig") (rand ++ sha512_hex signature_base) params.

(** [PolygonAPI.request].  The signature is built and the request object is
    made (lines 83-88) before anything is sent: an exception raised there
    leaves the world as it was, and the exchange whose nonce was drawn is
    used only by a request that is sent.  [urlencode] of line 86 encodes
    names and values that the signature has encoded already. *)
Definition request (self : PolygonAPI) (method : str)
    (params : list (str * pyval)) : M json :=
  fun w =>
    match script w with
    | [] => None
    | x :: rest =>
        match signed_params self (rand_of x) method (now w) params with
        | Raise e => Some (Raise e, w)
        | Ok params =>
            let url := api_url self ++ lit "/" ++ method in
            match url_error url with
            | Some message => Some (Raise (ValueError message), w)
            | None =>
                let sent_call := {| url := url; form := params |} in
                let w' := {| now := now w + latency x; script := rest;
                             sent := sent w ++ [sent_call] |} in
                match answer x with
                | Failure message =>
                    Some (Raise (PolygonAPIError (JStr message)), w')
                | Reply data => Some (check_status data, w')
                end
            end
        end
    end.

End Client.

(* ================================================================= *)
(** ** [wait_for_package] and [create_polygon_problem] *)
(* ================================================================= *)

(** Truth value of a decoded JSON value. *)
Definition truthy (j : json) : bool :=
  match j with
  | JNull => false
  | JBool b => b
  | JInt z => negb (Z.eqb z 0)
  | JStr s => negb (str_eqb s [])
  | JList items => match items with [] => false | _ => true end
  | JDict entries => match entries with [] => false | _ => true end
  end.

(** [pkg.get("creationTimeSeconds", 0)]; packages that are not objects and
    creation times that are not integers are not covered. *)
Definition creation_time (pkg : json) : option Z :=
  match pkg with
  | JDict entries =>
      match dict_get (lit "creationTimeSeconds") entries with
      | None => Some 0%Z
      | Some (JInt z) => Some z
      | Some _ => None
      end
  | _ => None
  end.

(** [max(packages, key=...)]: the first package among the most recent. *)
Fixpoint latest_from (best : json) (best_key : Z) (rest : list json)
  : option json :=
  match rest with
  | [] => Some best
  | pkg :: rest' =>
      match creation_time pkg with
      | None => None
      | Some k =>
          if Z.ltb best_key k then latest_from pkg k rest'
          else latest_from best best_key rest'
      end
  end.

Definition latest_package (packages : list json) : option json :=
  match packages with
  | [] => None
  | pkg :: rest =>
      match creation_time pkg with
      | None => None
      | Some k => latest_from pkg k rest
      end
  end.

(** [latest.get("state")] *)
Definition state_of (pkg : json) : option json :=
  match pkg with
  | JDict entries => dict_get (lit "state") entries
  | _ => None
  end.

Definition covered {A : Type} (o : option A) : M A :=
  match o with
  | Some a => ret a
  | None => stuck
  end.

Definition build_failed (problem_id : Z) : exn :=
  PolygonAPIError
    (JStr (lit "Package build failed for problem " ++ str_of_int problem_id)).

Definition build_timeout (problem_id : Z) : exn :=
  PolygonAPIError
    (JStr (lit "Timeout while waiting for package build for problem "
           ++ str_of_int problem_id)).

Definition packages_method : str := lit "problem.packages".

Section Workflow.
Context {rt : Runtime}.

(** The [while] loop of lines 407-418.  A round that goes on sends one
    request, so [rounds] is bounded by the exchanges left in the script. *)
Fixpoint wait_rounds (rounds : nat) (api : PolygonAPI)
    (problem_id deadline : Z) : M unit :=
  match rounds with
  | O => stuck
  | S rounds' =>
      t <- _now ;;
      if Z.ltb t deadline then
        packages <- request api packages_method
                      [(lit "problemId", VInt problem_id)] ;;
        if negb (truthy packages) then
          sleep 2 ;;; wait_rounds rounds' api problem_id deadline
        else
          match packages with
          | JList items =>
              latest <- covered (latest_package items) ;;
              let state := state_of latest in
              if is_str (lit "READY") state then ret tt
              else if is_str (lit "FAILED") state then
                raise (build_failed problem_id)
              else sleep 2 ;;; wait_rounds rounds' api problem_id deadline
          | _ => stuck
          end
      else raise (build_timeout problem_id)
  end.

(** [wait_for_package] *)
Definition wait_for_package (api : PolygonAPI) (problem_id timeout : Z)
  : M unit :=
  fun w =>
    (t <- _now ;;
     wait_rounds (S (length (script w))) api problem_id (t + timeout)) w.

Definition default_timeout : Z := 300.

(** [int(problem["id"])] *)
Definition int_of_json (j : json) : M Z :=
  match j with
  | JInt z => ret z
  | JBool b => ret (Z.b2z b)
  | JStr s =>
      match int_of_str s with
      | inl z => ret z
      | inr message => raise (ValueError message)
      end
  | JNull => raise (TypeError (int_type_error (lit "NoneType")))
  | JList _ => raise (TypeError (int_type_error (lit "list")))
  | JDict _ => raise (TypeError (int_type_error (lit "dict")))
  end.

(** Lines 330-335. *)
Definition problem_id_of (problem : json) : M Z :=
  let unexpected :=
    raise (PolygonAPIError
             (JStr (lit "Unexpected response from problem.create"))) in
  match problem with
  | JDict entries =>
      match dict_get (lit "id") entries with
      | Some v => int_of_json v
      | None => unexpected
      end
  | JList (JDict entries :: _) =>
      match dict_get (lit "id") entries with
      | Some v => int_of_json v
      | None => unexpected
      end
  | _ => unexpected
  end.

Definition update_info_params (problem_id : Z) : list (str * pyval) :=
  [ (lit "problemId", VInt problem_id);
    (lit "inputFile", VStr (lit "stdin"));
    (lit "outputFile", VStr (lit "stdout"));
    (lit "timeLimit", VInt 2000);
    (lit "memoryLimit", VInt 256);
    (lit "interactive", VBool false) ].

Definition save_statement_params (problem_id : Z) (task : MoodleTask)
  : list (str * pyval) :=
  [ (lit "problemId", VInt problem_id);
    (lit "lang", VStr (lit "russian"));
    (lit "name", VStr (name task));
    (lit "legend", VStr match legend task with
                        | [] => name task
                        | l => l
                        end);
    (lit "input", VStr (input_format task));
    (lit "output", VStr (output_format task)) ].

Definition save_solution_params (problem_id : Z) (task : MoodleTask)
  : list (str * pyval) :=
  [ (lit "problemId", VInt problem_id);
    (lit "name", VStr (lit "solution.py"));
    (lit "file", VStr (solution task));
    (lit "sourceType", VStr (lit "python.3"));
    (lit "tag", VStr (lit "MA")) ].

Definition save_test_params (problem_id : Z) (test : TestCase)
  : list (str * pyval) :=
  let params :=
    [ (lit "problemId", VInt problem_id);
      (lit "testset", VStr (lit "tests"));
      (lit "testIndex", VInt (index test));
      (lit "testInput", VStr (input_data test));
      (lit "testAnswer", VStr (output_data test)) ] in
  if use_in_statements test then
    dict_set (lit "testOutputForStatements") (VStr (output_data test))
      (dict_set (lit "testInputForStatements") (VStr (input_data test))
         (dict_set (lit "testUseInStatements") (VBool true) params))
  else params.

(** The loop of lines 377-393. *)
Fixpoint save_tests (api : PolygonAPI) (problem_id : Z)
    (tests : list TestCase) : M unit :=
  match tests with
  | [] => ret tt
  | test :: rest =>
      request api (lit "problem.saveTest") (save_test_params problem_id test)
      ;;; save_tests api problem_id rest
  end.

(** [create_polygon_problem] *)
Definition create_polygon_problem (api : PolygonAPI) (problem_code : str)
    (task : MoodleTask) : M Z :=
  problem <- request api (lit "problem.create")
               [(lit "name", VStr problem_code)] ;;
  problem_id <- problem_id_of problem ;;
  request api (lit "problem.updateInfo") (update_info_params problem_id) ;;;
  request api (lit "problem.saveStatement")
    (save_statement_params problem_id task) ;;;
  let checker := _select_checker task in
  request api (lit "problem.setChecker")
    [(lit "problemId", VInt problem_id); (lit "checker", VStr checker)] ;;;
  request api (lit "problem.saveSolution")
    (save_solution_params problem_id task) ;;;
  save_tests api problem_id (tests task) ;;;
  request api (lit "problem.commitChanges")
    [(lit "problemId", VInt problem_id); (lit "minorChanges", VBool false)] ;;;
  request api (lit "problem.buildPackage")
    [(lit "problemId", VInt problem_id); (lit "full", VBool true);
     (lit "verify", VBool true)] ;;;
  wait_for_package api problem_id default_timeout ;;;
  ret problem_id.

End Workflow.

(* ================================================================= *)
(** ** [slugify] and [main] *)
(* ================================================================= *)

(** [re.sub(r"[...]+", repl, s)] for a class of characters: every maximal
    run of characters of the class becomes [repl]. *)
Fixpoint sub_runs (in_class : char -> bool) (repl : str) (in_run : bool)
    (s : str) : str :=
  match s with
  | [] => []
  | c :: s' =>
      if in_class c
      then (if in_run then sub_runs in_class repl true s'
            else repl ++ sub_runs in_class repl true s')
      else c :: sub_runs in_class repl false s'
  end.

(** [s.encode("ascii", "ignore").decode("ascii")] keeps these. *)
Definition is_ascii (c : char) : bool := N.ltb c 128.

(** [s.lower()] on ASCII text. *)
Definition ascii_lower (c : char) : char :=
  if in_range 0x41 0x5A c then (c + 32)%N else c.

(** The class [[a-z0-9]]. *)
Definition slug_char (c : char) : bool :=
  in_range 0x61 0x7A c || in_range 0x30 0x39 c.

Definition not_slug_char (c : char) : bool := negb (slug_char c).

Definition dash : char := 0x2D%N.
Definition is_dash (c : char) : bool := char_eqb dash c.

(** [s.strip("-")] *)
Definition strip_dashes (s : str) : str :=
  rstrip_char dash (dropWhile is_dash s).

Section Slug.

(** [unicodedata.normalize("NFKD", s)], a table of the Unicode database. *)
Variable nfkd : str -> str.

(** The text of [slugify] before its last line. *)
Definition slug_text (value : str) : str :=
  let normalized := nfkd value in
  let ascii_text := filter is_ascii normalized in
  let ascii_text := map ascii_lower ascii_text in
  let ascii_text := sub_runs not_slug_char (lit "-") false ascii_text in
  let ascii_text := strip_dashes ascii_text in
  sub_runs is_dash (lit "-") false ascii_text.

(** [slugify] *)
Definition slugify (value fallback : str) : str :=
  match slug_text value with
  | [] => fallback
  | ascii_text => ascii_text
  end.

End Slug.

(** [f"{index:02d}"] *)
Definition two_digits (index : Z) : str :=
  match str_of_int index with
  | [digit] => [0x30%N; digit]
  | digits => digits
  end.

(** [f"{contest_slug}-{index:02d}"] *)
Definition problem_code (contest_slug : str) (index : Z) : str :=
  contest_slug ++ lit "-" ++ two_digits index.

(** How the process ends: the identifiers printed with status 0, or
    status 1 (the diagnostic written to the error stream is not modelled). *)
Inductive outcome :=
| Printed (ids : list Z)
| Exit1.

Section Main.
Context {rt : Runtime}.
Variable nfkd : str -> str.

(** The loop of lines 453-460, up to the first exception; [index] is the
    counter of [enumerate]. *)
Fixpoint create_problems (api : PolygonAPI) (contest_slug : str) (index : Z)
    (tasks : list MoodleTask) (created_ids : list Z) : M (list Z) :=
  match tasks with
  | [] => ret created_ids
  | task :: rest =>
      problem_id <- create_polygon_problem api
                      (problem_code contest_slug index) task ;;
      create_problems api contest_slug (index + 1) rest
        (created_ids ++ [problem_id])
  end.

(** [main], given what [parse_config] returned ([None] when it raised) and
    the root [ET.parse] read ([None] when it raised). *)
Definition main (config : option (str * str * str)) (xml_file : str)
    (document : option element) : world -> option (outcome * world) :=
  fun w =>
    match config with
    | None => Some (Exit1, w)
    | Some (url, key, secret) =>
        match document with
        | None => Some (Exit1, w)
        | Some root =>
            match parse_moodle_xml xml_file root with
            | Raise _ => Some (Exit1, w)
            | Ok (_, []) => Some (Exit1, w)
            | Ok (contest_name, tasks) =>
                let api := PolygonAPI_init url key secret in
                let contest_slug := slugify nfkd contest_name (lit "contest") in
                match create_problems api contest_slug 1 tasks [] w with
                | None => None
                | Some (Raise _, w') => Some (Exit1, w')
                | Some (Ok created_ids, w') => Some (Printed created_ids, w')
                end
            end
        end
    end.

End Main.

(* ================================================================= *)
(** ** A runtime to compute with *)
(* ================================================================= *)

Module Basic.

(** [str.lower] on Basic Latin and on the Cyrillic block; other characters
    are left alone. *)
Definition lower_char (c : char) : char :=
  if in_range 0x41 0x5A c then (c + 32)%N
  else if in_range 0x410 0x42F c then (c + 32)%N
  else if in_range 0x400 0x40F c then (c + 80)%N
  else c.

Definition ascii_digit (c : char) : bool := in_range 0x30 0x39 c.

(** The rest of [digit (["_"] digit)*] after its first digit. *)
Fixpoint digit_tail (s : str) : str :=
  match s with
  | [] => []
  | c :: r =>
      if ascii_digit c then digit_tail r
      else if char_eqb c 0x5F then
        match r with
        | d :: r' => if ascii_digit d then digit_tail r' else s
        | [] => s
        end
      else s
  end.

(** [digitpart]: what follows it, if there is one at the head. *)
Definition digitpart (s : str) : option str :=
  match s with
  | c :: r => if ascii_digit c then Some (digit_tail r) else None
  | [] => None
  end.

Definition skip_sign (s : str) : str :=
  match s with
  | c :: r => if char_eqb c 0x2B || char_eqb c 0x2D then r else s
  | [] => s
  end.

(** [exponent] must reach the end of the text. *)
Definition exponent_end (s : str) : bool :=
  match s with
  | [] => true
  | c :: r =>
      if char_eqb c 0x65 || char_eqb c 0x45 then
        match digitpart (skip_sign r) with
        | Some [] => true
        | _ => false
        end
      else false
  end.

(** [number [exponent]] with
    [number ::= [digitpart] "." digitpart | digitpart ["."]]. *)
Definition floatnumber (s : str) : bool :=
  match digitpart s with
  | Some r =>
      match r with
      | c :: r' =>
          if char_eqb c 0x2E then
            match digitpart r' with
            | Some r'' => exponent_end r''
            | None => exponent_end r'
            end
          else exponent_end r
      | [] => true
      end
  | None =>
      match s with
      | c :: r' =>
          if char_eqb c 0x2E then
            match digitpart r' with
            | Some r'' => exponent_end r''
            | None => false
            end
          else false
      | [] => false
      end
  end.

(** [float(s)] accepts this text: the grammar of the language reference on
    ASCII digits. *)
Definition float_ok (s : str) : bool :=
  let body := skip_sign (strip s) in
  let word := map lower_char body in
  floatnumber body
  || str_eqb word (lit "inf") || str_eqb word (lit "infinity")
  || str_eqb word (lit "nan").

(** [PurePosixPath(s).stem] *)
Definition path_name (s : str) : str :=
  last (filter (fun part => negb (str_eqb part [])
                            && negb (str_eqb part (lit ".")))
               (split (lit "/") s)) [].

Fixpoint last_dot (i : nat) (s : str) : option nat :=
  match s with
  | [] => None
  | c :: r =>
      match last_dot (S i) r with
      | Some j => Some j
      | None => if char_eqb c 0x2E then Some i else None
      end
  end.

Definition path_stem (s : str) : str :=
  let name := path_name s in
  match last_dot 0 name with
  | Some i =>
      if Nat.ltb 0 i && Nat.ltb i (length name - 1) then firstn i name
      else name
  | None => name
  end.

(** [ch.isprintable()], exact on Basic Latin, Latin-1, Cyrillic, white
    space and surrogates. *)
Definition isprintable (c : char) : bool :=
  char_eqb c 0x20
  || negb ((c <? 0x20)%N || in_range 0x7F 0xA0 c || char_eqb c 0xAD
           || isspace c || is_surrogate c).

(** One character of [repr(s)] between the quotes [quote]. *)
Definition repr_char (quote c : char) : str :=
  if char_eqb c quote || char_eqb c 0x5C then [0x5C%N; c]
  else if char_eqb c 0x09 then lit "\t"
  else if char_eqb c 0x0A then lit "\n"
  else if char_eqb c 0x0D then lit "\r"
  else if isprintable c then [c]
  else if (c <=? 0xFF)%N then lit "\x" ++ hex_digits 2 c
  else if (c <=? 0xFFFF)%N then lit "\u" ++ hex_digits 4 c
  else lit "\U" ++ hex_digits 8 c.

(** [repr(s)] for a [str]: double quotes when [s] has a single quote and no
    double quote. *)
Definition repr (s : str) : str :=
  let quote :=
    if existsb (char_eqb 0x27) s && negb (existsb (char_eqb 0x22) s)
    then 0x22%N else 0x27%N in
  quote :: flat_map (repr_char quote) s ++ [quote].

(** [urllib.parse.unwrap] *)
Definition unwrap (url : str) : str :=
  let url := strip url in
  let url :=
    if startswith (lit "<") url && char_eqb (last url 0%N) 0x3E
    then strip (removelast (tl url)) else url in
  match strip_prefix (lit "URL:") url with
  | Some rest => strip rest
  | None => url
  end.

(** [s.rpartition(c)]: what is before the last [c], and what is after. *)
Fixpoint rpartition (c : char) (s : str) : option (str * str) :=
  match s with
  | [] => None
  | x :: r =>
      match rpartition c r with
      | Some (before, after) => Some (x :: before, after)
      | None => if char_eqb x c then Some ([], r) else None
      end
  end.

(** [_typeprog] matches at the head of the text: one or more characters
    other than [/] and [:], then [:]. *)
Definition has_type (url : str) : bool :=
  let no_delimiter c := negb (char_eqb c 0x2F || char_eqb c 0x3A) in
  match takeWhile no_delimiter url, dropWhile no_delimiter url with
  | _ :: _, c :: _ => char_eqb c 0x3A
  | _, _ => false
  end.

(** [Request.__init__] with data: the setter of [full_url] unwraps the URL,
    splits the fragment off and raises when [_splittype] finds no type. *)
Definition url_error (url : str) : option str :=
  let url := unwrap url in
  let (_full_url, fragment) :=
    match rpartition 0x23 url with
    | Some parts => parts
    | None => (url, [])
    end in
  if has_type _full_url then None
  else
    let full_url :=
      match fragment with
      | [] => _full_url
      | _ => _full_url ++ lit "#" ++ fragment
      end in
    Some (lit "unknown url type: " ++ repr full_url).

(** The white space [int] skips around a literal: that of the C locale
    below U+007F, that of [str.isspace] above. *)
Definition int_space (c : char) : bool :=
  isspace c && negb (in_range 0x1C 0x1F c).

Fixpoint no_double_underscore (s : str) : bool :=
  match s with
  | a :: (b :: _) as r =>
      negb (char_eqb a 0x5F && char_eqb b 0x5F) && no_double_underscore r
  | _ => true
  end.

Fixpoint digits_value (acc : Z) (s : str) : Z :=
  match s with
  | [] => acc
  | c :: r =>
      if ascii_digit c then digits_value (10 * acc + Z.of_N (c - 0x30)%N)%Z r
      else digits_value acc r
  end.

(** [int(s)] for a text with ASCII digits: white space, a sign, digits with
    single underscores between them, white space; the default limit of 4300
    digits. *)
Definition int_of_str (s : str) : Z + str :=
  let invalid :=
    inr (lit "invalid literal for int() with base 10: "
         ++ firstn 200 (repr s)) in
  let body := dropWhile int_space s in
  let negative := startswith (lit "-") body in
  let body := skip_sign body in
  let in_number c := ascii_digit c || char_eqb c 0x5F in
  let number := takeWhile in_number body in
  let rest := dropWhile in_number body in
  if ascii_digit (hd 0%N number) && ascii_digit (last number 0%N)
     && no_double_underscore number then
    let digits := length (filter ascii_digit number) in
    if Nat.ltb 4300 digits then
      inr (lit "Exceeds the limit (4300 digits) for integer string conversion: value has "
           ++ str_of_nat digits
           ++ lit " digits; use sys.set_int_max_str_digits() to increase the limit")
    else if forallb int_space rest then
      let value := digits_value 0%Z number in
      inl (if negative then (- value)%Z else value)
    else invalid
  else invalid.

(** The [TypeError] of [int(v)], in the words of Python 3.10 and later. *)
Definition int_type_error (type_name : str) : str :=
  lit "int() argument must be a string, a bytes-like object or a real number, not '"
  ++ type_name ++ lit "'".

End Basic.

(** SHA-512 (FIPS 180-4) of the UTF-8 encoding of a text, in lowercase
    hexadecimal.  Words are 64-bit: additions wrap around. *)
Module Sha512.

#[local] Open Scope N_scope.

Definition mask : N := 0xFFFFFFFFFFFFFFFF.
Definition wrap (x : N) : N := N.land x mask.
Definition add (a b : N) : N := wrap (a + b).
Definition rotr (n x : N) : N :=
  N.lor (N.shiftr x n) (wrap (N.shiftl x (64 - n))).
Definition xor3 (a b c : N) : N := N.lxor (N.lxor a b) c.

Definition ch (e f g : N) : N :=
  N.lxor (N.land e f) (N.land (N.lxor e mask) g).
Definition maj (a b c : N) : N :=
  xor3 (N.land a b) (N.land a c) (N.land b c).
Definition big_sigma0 (a : N) : N := xor3 (rotr 28 a) (rotr 34 a) (rotr 39 a).
Definition big_sigma1 (e : N) : N := xor3 (rotr 14 e) (rotr 18 e) (rotr 41 e).
Definition sigma0 (x : N) : N := xor3 (rotr 1 x) (rotr 8 x) (N.shiftr x 7).
Definition sigma1 (x : N) : N := xor3 (rotr 19 x) (rotr 61 x) (N.shiftr x 6).

Definition round_constants : list N :=
  [
   0x428a2f98d728ae22; 0x7137449123ef65cd; 0xb5c0fbcfec4d3b2f;
   0xe9b5dba58189dbbc; 0x3956c25bf348b538; 0x59f111f1b605d019;
   0x923f82a4af194f9b; 0xab1c5ed5da6d8118; 0xd807aa98a3030242;
   0x12835b0145706fbe; 0x243185be4ee4b28c; 0x550c7dc3d5ffb4e2;
   0x72be5d74f27b896f; 0x80deb1fe3b1696b1; 0x9bdc06a725c71235;
   0xc19bf174cf692694; 0xe49b69c19ef14ad2; 0xefbe4786384f25e3;
   0x0fc19dc68b8cd5b5; 0x240ca1cc77ac9c65; 0x2de92c6f592b0275;
   0x4a7484aa6ea6e483; 0x5cb0a9dcbd41fbd4; 0x76f988da831153b5;
   0x983e5152ee66dfab; 0xa831c66d2db43210; 0xb00327c898fb213f;
   0xbf597fc7beef0ee4; 0xc6e00bf33da88fc2; 0xd5a79147930aa725;
   0x06ca6351e003826f; 0x142929670a0e6e70; 0x27b70a8546d22ffc;
   0x2e1b21385c26c926; 0x4d2c6dfc5ac42aed; 0x53380d139d95b3df;
   0x650a73548baf63de; 0x766a0abb3c77b2a8; 0x81c2c92e47edaee6;
   0x92722c851482353b; 0xa2bfe8a14cf10364; 0xa81a664bbc423001;
   0xc24b8b70d0f89791; 0xc76c51a30654be30; 0xd192e819d6ef5218;
   0xd69906245565a910; 0xf40e35855771202a; 0x106aa07032bbd1b8;
   0x19a4c116b8d2d0c8; 0x1e376c085141ab53; 0x2748774cdf8eeb99;
   0x34b0bcb5e19b48a8; 0x391c0cb3c5c95a63; 0x4ed8aa4ae3418acb;
   0x5b9cca4f7763e373; 0x682e6ff3d6b2b8a3; 0x748f82ee5defb2fc;
   0x78a5636f43172f60; 0x84c87814a1f0ab72; 0x8cc702081a6439ec;
   0x90befffa23631e28; 0xa4506cebde82bde9; 0xbef9a3f7b2c67915;
   0xc67178f2e372532b; 0xca273eceea26619c; 0xd186b8c721c0c207;
   0xeada7dd6cde0eb1e; 0xf57d4f7fee6ed178; 0x06f067aa72176fba;
   0x0a637dc5a2c898a6; 0x113f9804bef90dae; 0x1b710b35131c471b;
   0x28db77f523047d84; 0x32caab7b40c72493; 0x3c9ebe0a15c9bebc;
   0x431d67c49c100d4c; 0x4cc5d4becb3e42b6; 0x597f299cfc657e2a;
   0x5fcb6fab3ad6faec; 0x6c44198c4a475817
  ].

Definition initial_hash : list N :=
  [
   0x6a09e667f3bcc908; 0xbb67ae8584caa73b; 0x3c6ef372fe94f82b;
   0xa54ff53a5f1d36f1; 0x510e527fade682d1; 0x9b05688c2b3e6c1f;
   0x1f83d9abfb41bd6b; 0x5be0cd19137e2179
  ].

(** [s.encode("utf-8")], a byte per element. *)
Definition utf8_char (c : N) : list N :=
  if c <? 0x80 then [c]
  else if c <? 0x800 then [0xC0 + c / 64; 0x80 + c mod 64]
  else if c <? 0x10000 then
    [0xE0 + c / 4096; 0x80 + (c / 64) mod 64; 0x80 + c mod 64]
  else
    [0xF0 + c / 262144; 0x80 + (c / 4096) mod 64; 0x80 + (c / 64) mod 64;
     0x80 + c mod 64].

Definition encode (s : str) : list N := flat_map utf8_char s.

(** The [n] low bytes of [x], most significant first. *)
Definition be_bytes (n : nat) (x : N) : list N :=
  map (fun i => N.shiftr x (8 * N.of_nat i) mod 256) (rev (seq 0 n)).

(** The message, a one bit, zeros up to 112 modulo 128 bytes, and the
    length in bits on 16 bytes. *)
Definition pad (msg : list N) : list N :=
  let len := N.of_nat (length msg) in
  let zeros := N.to_nat ((239 - len mod 128) mod 128) in
  msg ++ [0x80] ++ repeat 0 zeros ++ be_bytes 16 (8 * len).

Definition word_of (bytes : list N) : N :=
  fold_left (fun acc b => acc * 256 + b) bytes 0.

Fixpoint chunks (rounds size : nat) (l : list N) : list (list N) :=
  match rounds with
  | O => []
  | S rounds' =>
      match l with
      | [] => []
      | _ => firstn size l :: chunks rounds' size (skipn size l)
      end
  end.

(** The message schedule, latest word first. *)
Fixpoint extend (n : nat) (latest_first : list N) : list N :=
  match n with
  | O => latest_first
  | S n' =>
      let w := add (add (sigma1 (nth 1 latest_first 0)) (nth 6 latest_first 0))
                   (add (sigma0 (nth 14 latest_first 0))
                        (nth 15 latest_first 0)) in
      extend n' (w :: latest_first)
  end.

Definition schedule (block : list N) : list N :=
  rev (extend 64 (rev (map word_of (chunks 16 8 block)))).

Definition registers : Type := N * N * N * N * N * N * N * N.

Definition round (st : registers) (kw : N * N) : registers :=
  let '(a, b, c, d, e, f, g, h) := st in
  let t1 := add (add (add h (big_sigma1 e)) (add (ch e f g) (fst kw)))
                (snd kw) in
  let t2 := add (big_sigma0 a) (maj a b c) in
  (add t1 t2, a, b, c, add d t1, e, f, g).

Definition compress (hash : list N) (block : list N) : list N :=
  match hash with
  | [a; b; c; d; e; f; g; h] =>
      let '(a', b', c', d', e', f', g', h') :=
        fold_left round (combine round_constants (schedule block))
                  (a, b, c, d, e, f, g, h) in
      [add a a'; add b b'; add c c'; add d d'; add e e'; add f f';
       add g g'; add h h']
  | _ => hash
  end.

Definition digest (msg : list N) : list N :=
  let padded := pad msg in
  fold_left compress (chunks (length padded) 128 padded) initial_hash.

Definition hex_word (x : N) : str :=
  map (fun i => hex_digit (N.shiftr x (4 * N.of_nat i) mod 16))
      (rev (seq 0 16)).

Definition hexdigest (s : str) : str :=
  flat_map hex_word (digest (encode s)).

End Sha512.

(** Exact on text made of Basic Latin and Cyrillic without character
    references ([unescape] calls [charref_sub] only on a text with [&]). *)
Definition basic_runtime : Runtime := {|
  lower := map Basic.lower_char;
  charref_sub := fun s => s;
  re_digit := Basic.ascii_digit;
  isdigit := Basic.ascii_digit;
  float_ok := Basic.float_ok;
  sha512_hex := Sha512.hexdigest;
  path_stem := Basic.path_stem;
  url_error := Basic.url_error;
  int_of_str := Basic.int_of_str;
  int_type_error := Basic.int_type_error
|}.

(* ================================================================= *)
(** ** Vocabulary of the properties *)
(* ================================================================= *)

(** The task entries of a document: the questions of type [coderunner],
    in document order. *)
Definition is_task_entry (question : element) : bool :=
  str_eqb (get_attr (lit "type") [] question) (lit "coderunner").

Definition task_entries (root : element) : list element :=
  filter is_task_entry (findall [lit "question"] root).

(** A task entry lacks its name, body or reference solution field: the path
    of the field finds no element. *)
Definition lacks_field (question : element) : Prop :=
  find name_path question = None
  \/ find questiontext_path question = None
  \/ find answer_path question = None.

(** A field element with no text: [<text/>] or [<text></text>]. *)
Definition no_text (node : element) : Prop :=
  text_of node = None \/ text_of node = Some [].

(** A nested test entry has both payloads. *)
Definition has_payloads (testcase : element) : bool :=
  match find stdin_path testcase, find expected_path testcase with
  | Some _, Some _ => true
  | _, _ => false
  end.

(** The record line 299 builds for a test entry with both payloads. *)
Definition test_of (idx : Z) (testcase : element) : TestCase :=
  {| index := idx;
     input_data :=
       text_or [] (match find stdin_path testcase with
                   | Some node => text_of node
                   | None => None
                   end);
     output_data :=
       text_or [] (match find expected_path testcase with
                   | Some node => text_of node
                   | None => None
                   end);
     use_in_statements :=
       str_eqb (get_attr (lit "useasexample") (lit "0") testcase) (lit "1") |}.

(** The entries with their 1-based positions among all the test entries. *)
Fixpoint numbered (idx : Z) (testcases : list element)
  : list (Z * element) :=
  match testcases with
  | [] => []
  | testcase :: rest => (idx, testcase) :: numbered (idx + 1) rest
  end.

(** [1; 2; ...; n] *)
Fixpoint count_from (start : Z) (n : nat) : list Z :=
  match n with
  | O => []
  | S n' => start :: count_from (start + 1) n'
  end.

(** [m] leaves the calls already sent in place. *)
Definition keeps_log {A : Type} (m : M A) : Prop :=
  forall w r w', m w = Some (r, w') -> exists more, sent w' = sent w ++ more.

(** The text has no surrogate: [s.encode("utf-8")] takes it. *)
Definition encodable (s : str) : Prop :=
  Forall (fun c => (c < 0xD800 \/ 0xDFFF < c)%N) s.

(** [a <= b] for two [str]: at the first position where they differ [a]
    has the smaller code point, or [a] ends there. *)
Inductive text_le : str -> str -> Prop :=
| text_le_nil (b : str) : text_le [] b
| text_le_lt (x y : char) (a b : str) :
    (x < y)%N -> text_le (x :: a) (y :: b)
| text_le_eq (x : char) (a b : str) :
    text_le a b -> text_le (x :: a) (x :: b).

(** [a <= b] for two pairs [(name, value)]: by name, then by value. *)
Definition pair_le (a b : str * str) : Prop :=
  (text_le (fst a) (fst b) /\ fst a <> fst b)
  \/ (fst a = fst b /\ text_le (snd a) (snd b)).

(** [query] is the [name=value] of the items, in their order, with [&]
    between one and the next. *)
Inductive amp_joined : list (str * str) -> str -> Prop :=
| amp_joined_none : amp_joined [] []
| amp_joined_one (name value : str) :
    amp_joined [(name, value)] (name ++ lit "=" ++ value)
| amp_joined_more (name value : str) (item : str * str)
    (items : list (str * str)) (query : str) :
    amp_joined (item :: items) query ->
    amp_joined ((name, value) :: item :: items)
               (name ++ lit "=" ++ value ++ lit "&" ++ query).

Section ClientVocabulary.
Context {rt : Runtime}.

(** Every text that goes into the signature can be encoded: the method, the
    names and values of the form [items], the secret. *)
Definition signable (api : PolygonAPI) (method : str)
    (items : list (str * str)) : Prop :=
  encodable method /\ encodable (api_secret api)
  /\ Forall (fun item => encodable (fst item) /\ encodable (snd item)) items.

(** The request of [method] with [params] at [time] can be made: it can be
    signed and its URL has a scheme. *)
Definition sendable (api : PolygonAPI) (method : str) (time : Z)
    (params : list (str * pyval)) : Prop :=
  signable api method (stringified api time params)
  /\ url_error (api_url api ++ lit "/" ++ method) = None.

(** The client can make requests of [method] whose parameters are numbers:
    key and secret can be encoded and the URL has a scheme. *)
Definition client_ready (api : PolygonAPI) (method : str) : Prop :=
  encodable (api_key api) /\ encodable (api_secret api)
  /\ url_error (api_url api ++ lit "/" ++ method) = None.

End ClientVocabulary.

(** The three results of the classifier. *)
Definition legend_of (sections : str * str * str) : str := fst (fst sections).
Definition input_format_of (sections : str * str * str) : str :=
  snd (fst sections).
Definition output_format_of (sections : str * str * str) : str :=
  snd sections.

(** A text that begins and ends with a character that is not whitespace. *)
Definition trimmed (s : str) : Prop :=
  (exists c r, s = c :: r /\ isspace c = false)
  /\ (exists r c, s = r ++ [c] /\ isspace c = false).

Definition space : str := [0x20]%N.

(** The order of the items of a query: by name, then by value. *)
Definition item_le (a b : str * str) : Prop := item_compare a b <> Gt.


(** A text with no line boundary. *)
Definition one_line (s : str) : Prop :=
  Forall (fun c => is_linebreak c = false) s.

Section ClassifierVocabulary.
Context {rt : Runtime}.

(** The lines before the first marker line. *)
Fixpoint before_marker (lines : list str) : list str :=
  match lines with
  | [] => []
  | line :: rest =>
      match marker_of line with
      | None => line :: before_marker rest
      | Some _ => []
      end
  end.

(** No line of [lines] is a marker line. *)
Definition plain_lines (lines : list str) : Prop :=
  Forall (fun line => marker_of line = None) lines.

(** No line of [lines] opens the section [sec]. *)
Definition never_seen (sec : section_name) (lines : list str) : Prop :=
  Forall (fun line => marker_of line <> Some sec) lines.

End ClassifierVocabulary.

Section CheckerVocabulary.
Context {rt : Runtime}.

Definition all_space (s : str) : Prop := Forall (fun c => isspace c = true) s.

(** [token] is the first whitespace-delimited token of [value]. *)
Definition first_token (value token : str) : Prop :=
  exists spaces rest,
    value = spaces ++ token ++ rest
    /\ all_space spaces
    /\ token <> []
    /\ Forall (fun c => isspace c = false) token
    /\ (rest = [] \/ exists c rest', rest = c :: rest' /\ isspace c = true).

(** An optional sign, then digits and nothing else. *)
Definition integer_pattern (token : str) : Prop :=
  exists sign digits,
    token = sign ++ digits
    /\ (sign = [] \/ sign = lit "+" \/ sign = lit "-")
    /\ digits <> []
    /\ Forall (fun c => re_digit c = true) digits.

(** [float] parses the token, which has a digit and one of [.], [e], [E]. *)
Definition float_pattern (token : str) : Prop :=
  float_ok token = true
  /\ Exists (fun c => isdigit c = true) token
  /\ Exists (fun c => c = 0x2E \/ c = 0x65 \/ c = 0x45)%N token.

(** The comparison policy the spec describes for a task. *)
Inductive selects (task : MoodleTask) : str -> Prop :=
| selects_no_tests :
    tests task = [] -> selects task lcmp
| selects_no_token first others :
    tests task = first :: others ->
    all_space (output_data first) ->
    selects task lcmp
| selects_integer first others token :
    tests task = first :: others ->
    first_token (output_data first) token ->
    integer_pattern token ->
    selects task ncmp
| selects_float first others token :
    tests task = first :: others ->
    first_token (output_data first) token ->
    ~ integer_pattern token ->
    float_pattern token ->
    selects task rcmp9
| selects_lines first others token :
    tests task = first :: others ->
    first_token (output_data first) token ->
    ~ integer_pattern token ->
    ~ float_pattern token ->
    selects task lcmp.

End CheckerVocabulary.

Section PollingVocabulary.
Context {rt : Runtime}.

(** The request of a poll returns [packages]. *)
Definition packages_of (x : exchange) (packages : json) : Prop :=
  exists data, answer x = Reply data /\ check_status data = Ok packages.

(** The request of a poll raises. *)
Definition refused (x : exchange) : Prop :=
  (exists message, answer x = Failure message)
  \/ (exists data e, answer x = Reply data /\ check_status data = Raise e).

(** No package exists yet. *)
Definition no_packages (x : exchange) : Prop :=
  exists packages, packages_of x packages /\ truthy packages = false.

(** Packages exist and the most recently created one has [state]. *)
Definition latest_state (x : exchange) (state : option json) : Prop :=
  exists items latest,
    packages_of x (JList items)
    /\ latest_package items = Some latest
    /\ state_of latest = state.

Definition ready (x : exchange) : Prop :=
  latest_state x (Some (JStr (lit "READY"))).

Definition failed (x : exchange) : Prop :=
  latest_state x (Some (JStr (lit "FAILED"))).

(** The build is still going on. *)
Definition pending (x : exchange) : Prop :=
  no_packages x
  \/ exists state,
       latest_state x state
       /\ state <> Some (JStr (lit "READY"))
       /\ state <> Some (JStr (lit "FAILED")).

(** The clock after the polls [xs], each followed by its sleep. *)
Fixpoint clock_after (t : Z) (xs : list exchange) : Z :=
  match xs with
  | [] => t
  | x :: xs' => clock_after (t + latency x + 2) xs'
  end.

(** Each of the polls [xs] starts before the deadline. *)
Fixpoint in_time (t deadline : Z) (xs : list exchange) : Prop :=
  match xs with
  | [] => True
  | x :: xs' => (t < deadline)%Z /\ in_time (t + latency x + 2) deadline xs'
  end.

(** The call of a poll made at time [t]. *)
Definition poll_call (api : PolygonAPI) (problem_id t : Z) (x : exchange)
  : call :=
  {| url := api_url api ++ lit "/" ++ packages_method;
     form := signed_form api (rand_of x) packages_method t
               [(lit "problemId", VInt problem_id)] |}.

Fixpoint poll_calls (api : PolygonAPI) (problem_id t : Z)
    (xs : list exchange) : list call :=
  match xs with
  | [] => []
  | x :: xs' =>
      poll_call api problem_id t x
      :: poll_calls api problem_id (t + latency x + 2) xs'
  end.

(** The world after the request of a poll. *)
Definition after_poll (api : PolygonAPI) (problem_id : Z) (w : world)
    (x : exchange) (rest : list exchange) : world :=
  {| now := now w + latency x; script := rest;
     sent := sent w ++ [poll_call api problem_id (now w) x] |}.

(** An exchange the loop has an answer for, taking no negative time. *)
Definition well_behaved (x : exchange) : Prop :=
  (0 <= latency x)%Z /\ (pending x \/ ready x \/ failed x \/ refused x).

End PollingVocabulary.

(* ================================================================= *)
(** ** Vocabulary of the further properties *)
(* ================================================================= *)

Section SectionsVocabulary.
Context {rt : Runtime}.

(** The line is no marker line. *)
Definition is_plain (line : str) : bool :=
  match marker_of line with
  | None => true
  | Some _ => false
  end.

(** All the lines the scan has put in its three buffers. *)
Definition buffered (st : scan_state) : list str :=
  legend_lines st ++ input_lines st ++ output_lines st.

End SectionsVocabulary.

(** No markup tag, a match of [<[^>]+>], starts anywhere in the text. *)
Definition tag_free (s : str) : Prop :=
  forall before after, s = before ++ after -> re_tag after = None.

Definition gt_sign : char := 0x3E%N.
Definition lt_sign : char := 0x3C%N.

(** Every character of the class [sep] is the last one or is followed by a
    character that is not of the class. *)
Definition followed (sep : char -> bool) (s : str) : Prop :=
  forall before c after,
    s = before ++ c :: after -> sep c = true ->
    after = [] \/ exists n rest, after = n :: rest /\ sep n = false.

(** Every character of the class [sep] stands between two characters that
    are not of the class. *)
Definition separates (sep : char -> bool) (s : str) : Prop :=
  forall before c after,
    s = before ++ c :: after -> sep c = true ->
    (exists init p, before = init ++ [p] /\ sep p = false)
    /\ (exists n rest, after = n :: rest /\ sep n = false).

(** A slug: letters [a-z] and digits in groups, one [-] between two groups. *)
Definition well_formed_slug (s : str) : Prop :=
  s <> []
  /\ Forall (fun c => slug_char c = true \/ c = dash) s
  /\ separates is_dash s.

(** A question of type [category]. *)
Definition is_category (question : element) : bool :=
  str_eqb (get_attr (lit "type") [] question) (lit "category").

(** The first text of a list that is not empty; the empty text when there
    is none. *)
Fixpoint first_nonempty (names : list str) : str :=
  match names with
  | [] => []
  | [] :: rest => first_nonempty rest
  | name :: _ => name
  end.

Section WorkflowVocabulary.
Context {rt : Runtime}.

(** The call [c] is the request of [method] with [params] by the client
    [api], signed with some nonce at some time. *)
Definition sent_as (api : PolygonAPI) (c : call)
    (req : str * list (str * pyval)) : Prop :=
  exists rand time,
    c = {| url := api_url api ++ lit "/" ++ fst req;
           form := signed_form api rand (fst req) time (snd req) |}.

(** From [w] to [w'] the log has grown by the requests [requests], in
    their order. *)
Definition logged (api : PolygonAPI) (w w' : world)
    (requests : list (str * list (str * pyval))) : Prop :=
  exists new, sent w' = sent w ++ new /\ Forall2 (sent_as api) new requests.

(** The poll of [wait_for_package]. *)
Definition packages_request (problem_id : Z) : str * list (str * pyval) :=
  (packages_method, [(lit "problemId", VInt problem_id)]).

Definition save_test_request (problem_id : Z) (test : TestCase)
  : str * list (str * pyval) :=
  (lit "problem.saveTest", save_test_params problem_id test).

(** The requests of a whole run of [create_polygon_problem] that gets the
    identifier [problem_id] and polls [S polls] times. *)
Definition workflow_requests (problem_code : str) (task : MoodleTask)
    (problem_id : Z) (polls : nat) : list (str * list (str * pyval)) :=
  [ (lit "problem.create", [(lit "name", VStr problem_code)]);
    (lit "problem.updateInfo", update_info_params problem_id);
    (lit "problem.saveStatement", save_statement_params problem_id task);
    (lit "problem.setChecker",
     [(lit "problemId", VInt problem_id);
      (lit "checker", VStr (_select_checker task))]);
    (lit "problem.saveSolution", save_solution_params problem_id task) ]
  ++ map (save_test_request problem_id) (tests task)
  ++ [ (lit "problem.commitChanges",
        [(lit "problemId", VInt problem_id);
         (lit "minorChanges", VBool false)]);
       (lit "problem.buildPackage",
        [(lit "problemId", VInt problem_id); (lit "full", VBool true);
         (lit "verify", VBool true)]) ]
  ++ repeat (packages_request problem_id) (S polls).

End WorkflowVocabulary.

Section MainVocabulary.
Context {rt : Runtime}.

(** The requests of a run of the loop of [main] that creates the problems
    [ids] for [tasks], the first of them numbered [index]; [polls] gives,
    for each, the polls after the first. *)
Fixpoint main_requests (contest_slug : str) (index : Z)
    (tasks : list MoodleTask) (ids : list Z) (polls : list nat)
  : list (str * list (str * pyval)) :=
  match tasks, ids, polls with
  | task :: tasks', id :: ids', p :: polls' =>
      workflow_requests (problem_code contest_slug index) task id p
      ++ main_requests contest_slug (index + 1) tasks' ids' polls'
  | _, _, _ => []
  end.

End MainVocabulary.

(** [main] has nothing to create: the configuration or the export could
    not be read, a task entry lacks a field, or there is no task entry. *)
Definition nothing_to_create (config : option (str * str * str))
    (document : option element) : Prop :=
  config = None \/ document = None
  \/ exists root,
       document = Some root
       /\ (Exists lacks_field (task_entries root) \/ task_entries root = []).

(** The request served by the exchange returns a result. *)
Definition accepted (x : exchange) : Prop :=
  exists data result, answer x = Reply data /\ check_status data = Ok result.

(** A run uses up a beginning [used] of the script, one exchange for each
    call it logs; only the last exchange used may be one that is not
    accepted, and none is when the run returns; the clock does not go back
    when no exchange takes negative time. *)
Definition consumes {A : Type} (m : M A) : Prop :=
  forall w r w',
    m w = Some (r, w') ->
    exists used,
      script w = used ++ script w'
      /\ length (sent w') = (length (sent w) + length used)%nat
      /\ Forall accepted (removelast used)
      /\ (forall a, r = Ok a -> Forall accepted used)
      /\ (Forall (fun x => 0 <= latency x)%Z used -> (now w <= now w')%Z).

Section LegendVocabulary.
Context {rt : Runtime}.

(** The legend made of the legend lines [lines] for a task called [name]:
    the lines joined by blank lines, without the first line when it repeats
    the name up to letter case and whitespace. *)
Definition legend_without_title (lines : list str) (name : str) : str :=
  match lines with
  | [] => []
  | first :: rest =>
      if str_eqb (lower (_normalize_whitespace first))
                 (lower (_normalize_whitespace name))
      then join blank_line rest
      else join blank_line lines
  end.

End LegendVocabulary.

(* ================================================================= *)
(** ** Sample data *)
(* ================================================================= *)

Module Sample.

Definition lines (l : list String.string) : str := join newline (map lit l).

Definition api : PolygonAPI :=
  PolygonAPI_init (lit "https://polygon.codeforces.com/api/") (lit "key")
                  (lit "secret").

(** A task whose legend is empty. *)
Definition task : MoodleTask :=
  {| name := lit "Sum Two Numbers"; legend := [];
     input_format := lit "1 line."; output_format := lit "1 line.";
     solution := lit "print(sum(map(int,input().split())))";
     tests := [ {| index := 1; input_data := lit "1 2";
                   output_data := lit "3"; use_in_statements := true |} ] |}.

Definition ok_reply (r : json) : response :=
  Reply [(lit "status", JStr (lit "OK")); (lit "result", r)].

Definition served (r : json) : exchange :=
  {| nonce := 0x0a1b2c; latency := 1; answer := ok_reply r |}.

Definition package (created : Z) (state : String.string) : json :=
  JDict [(lit "creationTimeSeconds", JInt created);
         (lit "state", JStr (lit state))].

(** The nine calls of one task with one test, the build being ready at the
    first poll. *)
Definition world0 : world :=
  {| now := 1000;
     script := [ served (JDict [(lit "id", JInt 77)]); served JNull;
                 served JNull; served JNull; served JNull; served JNull;
                 served JNull; served JNull;
                 served (JList [package 5 "READY"]) ];
     sent := [] |}.

Definition final_world : world :=
  Eval vm_compute in
    match create_polygon_problem (rt := basic_runtime) api (lit "week3-01")
            task world0 with
    | Some (_, w') => w'
    | None => world0
    end.

Definition statement_call : call :=
  Eval vm_compute in
    match nth_error (sent final_world) 2 with
    | Some c => c
    | None => {| url := []; form := [] |}
    end.

Definition node (tag : String.string) (attrib : list (str * str))
    (text : option str) (children : list element) : element :=
  Element (lit tag) attrib text children.

Definition text_node (s : String.string) : element :=
  node "text" [] (Some (lit s)) [].

Definition field (tag s : String.string) : element :=
  node tag [] None [text_node s].

Definition full_test (example : String.string) (input output : String.string)
  : element :=
  node "testcase" [(lit "useasexample", lit example)] None
       [field "stdin" input; field "expected" output].

(** A test entry with no expected output. *)
Definition half_test : element :=
  node "testcase" [] None [field "stdin" "5 6"].

Definition body_text : str :=
  lines ["Compute a+b."; "Input data:"; "1 line."; "Output data:";
         "1 line."]%string.

Definition coderunner (name_field : element) (testcases : list element)
  : element :=
  node "question" [(lit "type", lit "coderunner")] None
       [ node "name" [] None [name_field];
         node "questiontext" [] None
              [node "text" [] (Some body_text) []];
         node "answer" [] (Some (lit "print(sum(map(int,input().split())))"))
              [];
         node "testcases" [] None testcases ].

(** A task entry whose first test entry is skipped. *)
Definition gap_question : element :=
  coderunner (text_node "Sum Two Numbers")
             [half_test; full_test "1" "1 2" "3"].

(** A task entry whose name element holds no text. *)
Definition unnamed_question : element :=
  coderunner (node "text" [] None []) [full_test "1" "1 2" "3"].

Definition category_question : element :=
  node "question" [(lit "type", lit "category")] None
       [node "category" [] None [text_node "Course/Week3"]].

Definition document : element :=
  node "quiz" [] None [category_question; gap_question; unnamed_question].

(** A document whose second task entry has no answer element. *)
Definition broken_document : element :=
  node "quiz" [] None
       [ gap_question;
         node "question" [(lit "type", lit "coderunner")] None
              [field "name" "Broken"; field "questiontext" "Text"] ].

(** "Входные данные:" *)
Definition ru_input_marker : str :=
  [0x412; 0x445; 0x43E; 0x434; 0x43D; 0x44B; 0x435; 0x20; 0x434; 0x430;
   0x43D; 0x43D; 0x44B; 0x435; 0x3A]%N.

(** A body in markup, with a Russian input marker and an English output
    marker. *)
Definition marked_body : str :=
  lit "<p>Compute <b>a+b</b>.</p><p>Both are small.</p><h4>"
  ++ ru_input_marker
  ++ lit "</h4>Two integers.<br/>One line.<BR ><h4>Output data:</h4><p>Their sum.</p>".

(** A body with two paragraphs and no marker. *)
Definition two_paragraphs : str := lines ["First."; "Second."]%string.

(** A poll answered after one second with the given packages. *)
Definition poll (packages : json) : exchange :=
  {| nonce := 0xc0ffee; latency := 1; answer := ok_reply packages |}.

Definition building : json :=
  JList [package 5 "READY"; package 9 "RUNNING"].

Definition built : json :=
  JList [package 5 "FAILED"; package 9 "READY"; package 9 "FAILED"].

Definition broken : json :=
  JList [package 9 "FAILED"; package 5 "READY"].

Definition waiting_world (polls : list exchange) : world :=
  {| now := 1000; script := polls; sent := [] |}.

(** A task with the given expected outputs. *)
Definition task_expecting (outputs : list String.string) : MoodleTask :=
  {| name := []; legend := []; input_format := []; output_format := [];
     solution := [];
     tests := map (fun o => {| index := 1; input_data := [];
                               output_data := lit o;
                               use_in_statements := false |}) outputs |}.

(** The configuration of [api]. *)
Definition config : option (str * str * str) :=
  Some (lit "https://polygon.codeforces.com/api/", lit "key", lit "secret").


(** A client whose key holds a surrogate code point. *)
Definition unencodable_api : PolygonAPI :=
  PolygonAPI_init (lit "https://polygon.codeforces.com/api/")
                  (lit "k" ++ [0xD800%N] ++ lit "y") (lit "secret").

(** The exchanges of the two tasks of [document]; the second build is found
    running at its first poll. *)
Definition world2 : world :=
  {| now := 1000;
     script := script world0
               ++ [ served (JDict [(lit "id", JInt 78)]); served JNull;
                    served JNull; served JNull; served JNull; served JNull;
                    served JNull; served JNull; poll building;
                    poll (JList [package 5 "READY"]) ];
     sent := [] |}.

Definition final_world2 : world :=
  Eval vm_compute in
    match main (rt := basic_runtime) (fun s => s) config (lit "export.xml")
            (Some document) world2 with
    | Some (_, w') => w'
    | None => world2
    end.

(** The second request gets no reply. *)
Definition refusing_world : world :=
  {| now := 1000;
     script := [ served (JDict [(lit "id", JInt 77)]);
                 {| nonce := 0x0a1b2c; latency := 1;
                    answer := Failure (lit "Network error: timed out") |};
                 served JNull ];
     sent := [] |}.

Definition refused_world : world :=
  Eval vm_compute in
    match main (rt := basic_runtime) (fun s => s) config (lit "export.xml")
            (Some document) refusing_world with
    | Some (_, w') => w'
    | None => refusing_world
    end.



(** A task entry whose body begins with its name. *)
Definition titled_question : element :=
  node "question" [(lit "type", lit "coderunner")] None
       [ field "name" "Sum Two Numbers";
         node "questiontext" [] None
              [node "text" []
                 (Some (lit "<p>SUM  two numbers</p><p>Compute a+b.</p><p>Both are small.</p>"))
                 []];
         node "answer" [] (Some (lit "print(1)")) [] ].

Definition titled_task : MoodleTask :=
  Eval vm_compute in
    match parse_question (rt := basic_runtime) titled_question with
    | Ok parsed => parsed
    | Raise _ => task
    end.

End Sample.

(* ================================================================= *)
(** * Properties *)
(* ================================================================= *)

(** ** Strings and dictionaries *)

Lemma str_eqb_refl (s : str) : str_eqb s s = true.
Proof.
  induction s as [|c s IH]; simpl; [reflexivity|].
  unfold char_eqb. rewrite N.eqb_refl. exact IH.
Qed.

Lemma str_eqb_eq (a b : str) : str_eqb a b = true <-> a = b.
Proof.
  revert b. induction a as [|x a IH]; intros [|y b]; simpl; split;
    try congruence; try reflexivity.
  - intros H. apply andb_true_iff in H. destruct H as [Hc Hs].
    apply N.eqb_eq in Hc. apply IH in Hs. congruence.
  - intros H. injection H as -> ->. apply (str_eqb_refl (y :: b)).
Qed.

Lemma dict_get_set_other {V : Type} (k k' : str) (v : V) (d : list (str * V)) :
  str_eqb k' k = false ->
  dict_get k (dict_set k' v d) = dict_get k d.
Proof.
  intros Hk. induction d as [|[k0 v0] d IH]; simpl.
  - destruct (str_eqb k' k) eqn:E; [congruence|reflexivity].
  - destruct (str_eqb k0 k') eqn:E0; simpl.
    + apply str_eqb_eq in E0. subst k0. rewrite Hk. reflexivity.
    + destruct (str_eqb k0 k); [reflexivity|exact IH].
Qed.

Lemma dict_get_map {V W : Type} (f : V -> W) (k : str) (d : list (str * V)) :
  dict_get k (map (fun kv => (fst kv, f (snd kv))) d)
  = option_map f (dict_get k d).
Proof.
  induction d as [|[k0 v0] d IH]; simpl; [reflexivity|].
  destruct (str_eqb k0 k); [reflexivity|exact IH].
Qed.

(** ** The log of calls only grows *)

Section Log.
Context {rt : Runtime}.

Lemma keeps_log_ret {A : Type} (a : A) : keeps_log (ret a).
Proof.
  intros w r w' H. injection H as _ <-. exists []. now rewrite app_nil_r.
Qed.

Lemma keeps_log_raise {A : Type} (e : exn) : keeps_log (@raise A e).
Proof.
  intros w r w' H. injection H as _ <-. exists []. now rewrite app_nil_r.
Qed.

Lemma keeps_log_stuck {A : Type} : keeps_log (@stuck A).
Proof. intros w r w' H. discriminate H. Qed.

Lemma keeps_log_bind {A B : Type} (m : M A) (k : A -> M B) :
  keeps_log m -> (forall a, keeps_log (k a)) -> keeps_log (bind m k).
Proof.
  intros Hm Hk w r w' H. unfold bind in H.
  destruct (m w) as [[[a|e] w1]|] eqn:E; try discriminate.
  - destruct (Hm _ _ _ E) as [m1 H1]. destruct (Hk a _ _ _ H) as [m2 H2].
    exists (m1 ++ m2). rewrite H2, H1. now rewrite app_assoc.
  - injection H as _ <-. exact (Hm _ _ _ E).
Qed.

Lemma keeps_log_now : keeps_log _now.
Proof.
  intros w r w' H. injection H as _ <-. exists []. now rewrite app_nil_r.
Qed.

Lemma keeps_log_sleep (d : Z) : keeps_log (sleep d).
Proof.
  intros w r w' H. injection H as _ <-. exists []. simpl.
  now rewrite app_nil_r.
Qed.

(** A request is not made, and the world stays as it is, when the
    signature or the request object cannot be built; it is sent otherwise,
    and the next exchange of the script answers it. *)
Lemma request_cases api method params w r w' :
  request api method params w = Some (r, w') ->
  (w' = w
   /\ ((exists message, r = Raise (UnicodeEncodeError message))
       \/ (exists message,
             url_error (api_url api ++ lit "/" ++ method) = Some message
             /\ r = Raise (ValueError message))))
  \/ exists x rest,
       script w = x :: rest
       /\ w' = {| now := now w + latency x; script := rest;
                  sent := sent w
                          ++ [ {| url := api_url api ++ lit "/" ++ method;
                                  form := signed_form api (rand_of x) method
                                            (now w) params |} ] |}
       /\ r = match answer x with
              | Failure message => Raise (PolygonAPIError (JStr message))
              | Reply data => check_status data
              end.
Proof.
  unfold request, signed_params, signed_form, _build_signature.
  destruct (script w) as [|x rest]; [discriminate|].
  destruct (utf8_error _) as [message|].
  { intros H. injection H as <- <-. left. split; [reflexivity|]. eauto. }
  destruct (url_error _) as [message|] eqn:Eurl.
  { intros H. injection H as <- <-. left. split; [reflexivity|]. eauto. }
  intros H. right. exists x, rest. split; [reflexivity|].
  destruct (answer x); injection H as <- <-; split; reflexivity.
Qed.

Lemma request_sent api method params w r w' :
  request api method params w = Some (r, w') ->
  (w' = w /\ exists e, r = Raise e)
  \/ exists x,
       hd_error (script w) = Some x
       /\ sent w' = sent w
                    ++ [ {| url := api_url api ++ lit "/" ++ method;
                            form := signed_form api (rand_of x) method
                                      (now w) params |} ].
Proof.
  intros H. apply request_cases in H.
  destruct H as [[-> [[m ->]|(m & _ & ->)]]|(x & rest & Hs & -> & _)].
  - left. eauto.
  - left. eauto.
  - right. exists x. rewrite Hs. split; reflexivity.
Qed.

Lemma request_ok_sent api method params w v w' :
  request api method params w = Some (Ok v, w') ->
  exists x,
    hd_error (script w) = Some x
    /\ sent w' = sent w
                 ++ [ {| url := api_url api ++ lit "/" ++ method;
                         form := signed_form api (rand_of x) method
                                   (now w) params |} ].
Proof.
  intros H. apply request_sent in H.
  destruct H as [[_ [e He]]|H]; [discriminate He|exact H].
Qed.

Lemma request_sent_length api method params w r w' :
  request api method params w = Some (r, w') ->
  (length (sent w') <= S (length (sent w)))%nat.
Proof.
  intros H. apply request_sent in H.
  destruct H as [[-> _]|(x & _ & ->)]; [lia|].
  rewrite length_app. simpl. lia.
Qed.

Lemma keeps_log_request api method params :
  keeps_log (request api method params).
Proof.
  intros w r w' H. apply request_sent in H.
  destruct H as [[-> _]|(x & _ & ->)]; [|eauto].
  exists []. now rewrite app_nil_r.
Qed.

Lemma keeps_log_covered {A : Type} (o : option A) : keeps_log (covered o).
Proof.
  destruct o; [apply keeps_log_ret|apply keeps_log_stuck].
Qed.

Lemma keeps_log_save_tests api pid ts : keeps_log (save_tests api pid ts).
Proof.
  induction ts as [|t ts IH]; simpl.
  - apply keeps_log_ret.
  - apply keeps_log_bind; [apply keeps_log_request|intros _; exact IH].
Qed.

Lemma keeps_log_wait_rounds n api pid deadline :
  keeps_log (wait_rounds n api pid deadline).
Proof.
  induction n as [|n IH]; simpl.
  - apply keeps_log_stuck.
  - apply keeps_log_bind; [apply keeps_log_now|]. intros t.
    destruct (Z.ltb t deadline); [|apply keeps_log_raise].
    apply keeps_log_bind; [apply keeps_log_request|]. intros packages.
    assert (Hgo : keeps_log (sleep 2 ;;; wait_rounds n api pid deadline)).
    { apply keeps_log_bind; [apply keeps_log_sleep|intros _; exact IH]. }
    destruct (negb (truthy packages)); [exact Hgo|].
    destruct packages; try apply keeps_log_stuck.
    apply keeps_log_bind; [apply keeps_log_covered|]. intros latest.
    destruct (is_str (lit "READY") (state_of latest)); [apply keeps_log_ret|].
    destruct (is_str (lit "FAILED") (state_of latest));
      [apply keeps_log_raise|exact Hgo].
Qed.

Lemma keeps_log_wait_for_package api pid timeout :
  keeps_log (wait_for_package api pid timeout).
Proof.
  intros w r w' H. unfold wait_for_package in H.
  revert H. apply keeps_log_bind; [apply keeps_log_now|].
  intros t. apply keeps_log_wait_rounds.
Qed.

End Log.

(** ** The statement sent to Polygon *)

Section Statement.
Context {rt : Runtime}.

Lemma bind_some {A B : Type} (m : M A) (k : A -> M B) w r w' :
  bind m k w = Some (r, w') ->
  (exists a w1, m w = Some (Ok a, w1) /\ k a w1 = Some (r, w'))
  \/ (exists e, m w = Some (Raise e, w') /\ r = Raise e).
Proof.
  unfold bind. destruct (m w) as [[[a|e] w1]|]; intros H; try discriminate.
  - left. eauto.
  - right. injection H as <- <-. eauto.
Qed.

Lemma problem_id_of_pure problem w r w' :
  problem_id_of problem w = Some (r, w') -> w' = w.
Proof.
  assert (Hint : forall v, int_of_json v w = Some (r, w') -> w' = w).
  { intros [ | b | z | s | l | d ]; simpl; try (intros H; now injection H).
    destruct (int_of_str s); intros H; now injection H. }
  unfold problem_id_of.
  destruct problem as [ | b | z | s | [|[ | | | | |d] l] | d ]; simpl;
    try (intros H; now injection H).
  - destruct (dict_get (lit "id") d); [apply Hint|]. intros H; now injection H.
  - destruct (dict_get (lit "id") d); [apply Hint|]. intros H; now injection H.
Qed.

Lemma legend_param (pid : Z) (task : MoodleTask) :
  dict_get (lit "legend") (save_statement_params pid task)
  = Some (VStr match legend task with [] => name task | l => l end).
Proof. reflexivity. Qed.

Lemma signed_form_get api rand method time params key :
  str_eqb (lit "apiKey") key = false ->
  str_eqb (lit "time") key = false ->
  str_eqb (lit "apiSig") key = false ->
  dict_get key (signed_form api rand method time params)
  = option_map _stringify_value (dict_get key params).
Proof.
  intros H1 H2 H3. unfold signed_form, stringified.
  rewrite dict_get_set_other by exact H3. rewrite dict_get_map.
  rewrite dict_get_set_other by exact H2.
  now rewrite dict_get_set_other by exact H1.
Qed.

Lemma nth_error_log {A : Type} (before : list A) (c : A) (after : list A) :
  nth_error (before ++ c :: after) (length before) = Some c.
Proof.
  rewrite nth_error_app2 by lia. now rewrite Nat.sub_diag.
Qed.

(** The third call of the workflow, whatever happens after it. *)
Lemma third_call api code task w r w' :
  create_polygon_problem api code task w = Some (r, w') ->
  forall c, nth_error (sent w') (length (sent w) + 2) = Some c ->
  exists pid rand time,
    c = {| url := api_url api ++ lit "/" ++ lit "problem.saveStatement";
           form := signed_form api rand (lit "problem.saveStatement") time
                     (save_statement_params pid task) |}.
Proof.
  intros H c Hc.
  assert (Hlen : (length (sent w) + 2 < length (sent w'))%nat)
    by (apply nth_error_Some; congruence).
  unfold create_polygon_problem in H.
  apply bind_some in H. destruct H as [(problem & w1 & H1 & H)|(e & H1 & _)].
  2:{ apply request_sent_length in H1. lia. }
  apply request_ok_sent in H1. destruct H1 as (x1 & _ & Hs1).
  apply bind_some in H. destruct H as [(pid & w1' & Hp & H)|(e & Hp & _)].
  2:{ apply problem_id_of_pure in Hp. subst w'.
      rewrite Hs1, length_app in Hlen. simpl in Hlen. lia. }
  apply problem_id_of_pure in Hp. subst w1'.
  apply bind_some in H. destruct H as [(r2 & w2 & H2 & H)|(e & H2 & _)].
  2:{ apply request_sent_length in H2.
      rewrite Hs1, length_app in H2. simpl in H2. lia. }
  apply request_ok_sent in H2. destruct H2 as (x2 & _ & Hs2).
  assert (Hw2 : length (sent w2) = (length (sent w) + 2)%nat)
    by (rewrite Hs2, Hs1, !length_app; simpl; lia).
  assert (Hthird : exists x3 more,
            sent w' = sent w2 ++ {| url := api_url api ++ lit "/"
                                            ++ lit "problem.saveStatement";
                                    form := signed_form api (rand_of x3)
                                              (lit "problem.saveStatement")
                                              (now w2)
                                              (save_statement_params pid task) |}
                                 :: more).
  { apply bind_some in H. destruct H as [(r3 & w3 & H3 & H)|(e & H3 & _)].
    - apply request_ok_sent in H3. destruct H3 as (x3 & _ & Hs3).
      assert (Hk : exists more, sent w' = sent w3 ++ more).
      { revert H.
        apply keeps_log_bind; [apply keeps_log_request|intros _].
        apply keeps_log_bind; [apply keeps_log_request|intros _].
        apply keeps_log_bind; [apply keeps_log_save_tests|intros _].
        apply keeps_log_bind; [apply keeps_log_request|intros _].
        apply keeps_log_bind; [apply keeps_log_request|intros _].
        apply keeps_log_bind; [apply keeps_log_wait_for_package|intros _].
        apply keeps_log_ret. }
      destruct Hk as [more Hk]. exists x3, more.
      rewrite Hk, Hs3, <- app_assoc. reflexivity.
    - apply request_sent in H3. destruct H3 as [[-> _]|(x3 & _ & Hs3)]; [lia|].
      exists x3, []. exact Hs3. }
  destruct Hthird as (x3 & more & Hs3).
  rewrite Hs3 in Hc. rewrite <- Hw2 in Hc.
  rewrite nth_error_log in Hc. injection Hc as <-.
  exists pid, (rand_of x3), (now w2). reflexivity.
Qed.

End Statement.

(** C9. In the workflow of [create_polygon_problem], the third call sent is
    [problem.saveStatement]; its [legend] parameter is the name of the task
    when the legend of the task is the empty string, and the legend itself,
    unchanged, when it is not. *)
Theorem save_statement_legend {rt : Runtime} api code task w r w' c :
  create_polygon_problem api code task w = Some (r, w') ->
  nth_error (sent w') (length (sent w) + 2) = Some c ->
  url c = api_url api ++ lit "/" ++ lit "problem.saveStatement"
  /\ (legend task = [] ->
      dict_get (lit "legend") (form c) = Some (name task))
  /\ (legend task <> [] ->
      dict_get (lit "legend") (form c) = Some (legend task)).
Proof.
  intros H Hc.
  edestruct third_call as (pid & rand & time & ->); [exact H|exact Hc|].
  split; [reflexivity|]. cbn [form].
  rewrite signed_form_get by reflexivity.
  rewrite legend_param. cbn [option_map _stringify_value].
  split; intros Hl.
  - now rewrite Hl.
  - destruct (legend task); [congruence|reflexivity].
Qed.

Lemma save_statement_legend_witness :
  create_polygon_problem (rt := basic_runtime) Sample.api (lit "week3-01")
    Sample.task Sample.world0 = Some (Ok 77%Z, Sample.final_world)
  /\ nth_error (sent Sample.final_world) (length (sent Sample.world0) + 2)
     = Some Sample.statement_call
  /\ url Sample.statement_call
     = api_url Sample.api ++ lit "/" ++ lit "problem.saveStatement"
  /\ (legend Sample.task = [] ->
      dict_get (lit "legend") (form Sample.statement_call)
      = Some (name Sample.task))
  /\ (legend Sample.task <> [] ->
      dict_get (lit "legend") (form Sample.statement_call)
      = Some (legend Sample.task)).
Proof.
  assert (H1 : create_polygon_problem (rt := basic_runtime) Sample.api
                 (lit "week3-01") Sample.task Sample.world0
               = Some (Ok 77%Z, Sample.final_world))
    by (vm_compute; reflexivity).
  assert (H2 : nth_error (sent Sample.final_world)
                 (length (sent Sample.world0) + 2)
               = Some Sample.statement_call)
    by (vm_compute; reflexivity).
  split; [exact H1|]. split; [exact H2|].
  exact (save_statement_legend Sample.api (lit "week3-01") Sample.task
           Sample.world0 _ _ _ H1 H2).
Defined.

(** ** The export reader *)

Section Reader.
Context {rt : Runtime}.

Lemma parse_question_raise question e :
  parse_question question = Raise e ->
  lacks_field question /\ e = malformed_entry.
Proof.
  unfold parse_question, lacks_field.
  destruct (find name_path question); [|intros H; injection H as <-; auto].
  destruct (find questiontext_path question) as [body|];
    [|intros H; injection H as <-; auto].
  destruct (find answer_path question); [|intros H; injection H as <-; auto].
  destruct (extract_text_sections _) as [[l i] o]. discriminate.
Qed.

Lemma parse_question_lacks question :
  lacks_field question -> parse_question question = Raise malformed_entry.
Proof.
  unfold parse_question, lacks_field.
  destruct (find name_path question);
    destruct (find questiontext_path question);
    destruct (find answer_path question); intros [H|[H|H]];
    try discriminate H; reflexivity.
Qed.

Lemma parse_question_total question :
  (exists task, parse_question question = Ok task)
  \/ parse_question question = Raise malformed_entry.
Proof.
  destruct (parse_question question) as [task|e] eqn:E; [eauto|].
  right. apply parse_question_raise in E. destruct E as [_ ->]. reflexivity.
Qed.

(** What the loop returns: the tasks of the task entries, in order, after
    the tasks it started from; it stops at the first entry that lacks a
    field. *)
Lemma parse_questions_ok questions contest_name tasks contest_name' tasks' :
  parse_questions questions contest_name tasks = Ok (contest_name', tasks') ->
  exists new,
    tasks' = tasks ++ new
    /\ Forall2 (fun question task => parse_question question = Ok task)
               (filter is_task_entry questions) new.
Proof.
  revert contest_name tasks.
  induction questions as [|q qs IH]; intros cn ts H; simpl in H.
  - injection H as _ <-. exists []. split; [now rewrite app_nil_r|constructor].
  - simpl. unfold is_task_entry at 1.
    destruct (str_eqb (get_attr (lit "type") [] q) (lit "category")
              && str_eqb cn []) eqn:Ecat.
    + apply andb_true_iff in Ecat. destruct Ecat as [Ecat _].
      apply str_eqb_eq in Ecat. rewrite Ecat. simpl.
      exact (IH _ _ H).
    + destruct (str_eqb (get_attr (lit "type") [] q) (lit "coderunner"));
        simpl in H.
      * destruct (parse_question q) as [task|e] eqn:Eq; [|discriminate].
        destruct (IH _ _ H) as (new & -> & Hall).
        exists (task :: new). split; [now rewrite <- app_assoc|].
        constructor; assumption.
      * exact (IH _ _ H).
Qed.

Lemma parse_questions_raise questions contest_name tasks e :
  parse_questions questions contest_name tasks = Raise e ->
  e = malformed_entry
  /\ Exists lacks_field (filter is_task_entry questions).
Proof.
  revert contest_name tasks.
  induction questions as [|q qs IH]; intros cn ts H; simpl in H;
    [discriminate|].
  simpl. unfold is_task_entry at 1.
  destruct (str_eqb (get_attr (lit "type") [] q) (lit "category")
            && str_eqb cn []) eqn:Ecat.
  - apply andb_true_iff in Ecat. destruct Ecat as [Ecat _].
    apply str_eqb_eq in Ecat. rewrite Ecat. simpl. exact (IH _ _ H).
  - destruct (str_eqb (get_attr (lit "type") [] q) (lit "coderunner"));
      simpl in H.
    + destruct (parse_question q) as [task|e'] eqn:Eq.
      * destruct (IH _ _ H) as [-> Hex]. split; [reflexivity|].
        now apply Exists_cons_tl.
      * injection H as <-. apply parse_question_raise in Eq.
        destruct Eq as [Hq ->]. split; [reflexivity|].
        now apply Exists_cons_hd.
    + exact (IH _ _ H).
Qed.

Lemma parse_questions_lacks questions contest_name tasks :
  Exists lacks_field (filter is_task_entry questions) ->
  parse_questions questions contest_name tasks = Raise malformed_entry.
Proof.
  intros Hex.
  destruct (parse_questions questions contest_name tasks) as [[cn' ts']|e]
    eqn:E.
  - exfalso. apply parse_questions_ok in E. destruct E as (new & _ & Hall).
    clear -Hex Hall. induction Hall as [|q t qs ts' Hq Hall IH].
    + inversion Hex.
    + inversion Hex as [? ? Hl|? ? Hl]; subst.
      * apply parse_question_lacks in Hl. congruence.
      * exact (IH Hl).
  - apply parse_questions_raise in E. destruct E as [-> _]. reflexivity.
Qed.

Lemma parse_moodle_xml_ok path root contest_name tasks :
  parse_moodle_xml path root = Ok (contest_name, tasks) ->
  Forall2 (fun question task => parse_question question = Ok task)
          (task_entries root) tasks.
Proof.
  unfold parse_moodle_xml, task_entries.
  destruct (parse_questions _ _ _) as [[cn ts]|e] eqn:E; [|discriminate].
  intros H. injection H as _ <-.
  apply parse_questions_ok in E. destruct E as (new & -> & Hall). exact Hall.
Qed.

Lemma parse_moodle_xml_raise path root e :
  parse_moodle_xml path root = Raise e ->
  e = malformed_entry /\ Exists lacks_field (task_entries root).
Proof.
  unfold parse_moodle_xml, task_entries.
  destruct (parse_questions _ _ _) as [[cn ts]|e'] eqn:E; [discriminate|].
  intros H. injection H as <-. exact (parse_questions_raise _ _ _ _ E).
Qed.

Lemma parse_moodle_xml_lacks path root :
  Exists lacks_field (task_entries root) ->
  parse_moodle_xml path root = Raise malformed_entry.
Proof.
  intros H. unfold parse_moodle_xml.
  now rewrite (parse_questions_lacks _ [] [] H).
Qed.

End Reader.

(** C6. The export reader raises its error ([ValueError("Malformed question
    entry in Moodle export")], the spec's ParseError) exactly when some task
    entry lacks its name, body or reference-solution field, and it raises no
    other error; when it returns, the number of tasks is the number of task
    entries. *)
Theorem parse_error_iff_missing_field {rt : Runtime} (path : str)
    (root : element) :
  (parse_moodle_xml path root = Raise malformed_entry
   <-> Exists lacks_field (task_entries root))
  /\ (forall e, parse_moodle_xml path root = Raise e -> e = malformed_entry)
  /\ (forall contest_name tasks,
        parse_moodle_xml path root = Ok (contest_name, tasks) ->
        length tasks = length (task_entries root)).
Proof.
  split; [split|split].
  - intros H. exact (proj2 (parse_moodle_xml_raise _ _ _ H)).
  - apply parse_moodle_xml_lacks.
  - intros e H. exact (proj1 (parse_moodle_xml_raise _ _ _ H)).
  - intros cn ts H. apply parse_moodle_xml_ok in H.
    symmetry. exact (Forall2_length H).
Qed.

Example parse_document :
  parse_moodle_xml (rt := basic_runtime) (lit "export.xml") Sample.document
  = Ok (lit "Week3",
        [ {| name := lit "Sum Two Numbers"; legend := lit "Compute a+b.";
             input_format := lit "1 line."; output_format := lit "1 line.";
             solution := lit "print(sum(map(int,input().split())))";
             tests := [ {| index := 2; input_data := lit "1 2";
                           output_data := lit "3";
                           use_in_statements := true |} ] |};
          {| name := lit "Unnamed task"; legend := lit "Compute a+b.";
             input_format := lit "1 line."; output_format := lit "1 line.";
             solution := lit "print(sum(map(int,input().split())))";
             tests := [ {| index := 1; input_data := lit "1 2";
                           output_data := lit "3";
                           use_in_statements := true |} ] |} ]).
Proof. vm_compute. reflexivity. Qed.

Example parse_broken_document :
  parse_moodle_xml (rt := basic_runtime) (lit "export.xml")
    Sample.broken_document = Raise malformed_entry.
Proof. vm_compute. reflexivity. Qed.

Section Names.
Context {rt : Runtime}.

Lemma parse_question_name question task :
  parse_question question = Ok task ->
  exists name_node,
    find name_path question = Some name_node
    /\ name task = strip (text_or unnamed_task (text_of name_node)).
Proof.
  unfold parse_question.
  destruct (find name_path question) as [name_node|]; [|discriminate].
  destruct (find questiontext_path question); [|discriminate].
  destruct (find answer_path question); [|discriminate].
  destruct (extract_text_sections _) as [[l i] o].
  intros H. injection H as <-. exists name_node. split; reflexivity.
Qed.

Lemma no_text_name name_node :
  no_text name_node ->
  strip (text_or unnamed_task (text_of name_node)) = unnamed_task.
Proof. intros [H|H]; rewrite H; reflexivity. Qed.

End Names.

(** C10. A task entry whose name element (the element the path [name/text]
    finds) is present but holds no text raises no error: with its body and
    answer elements present it yields a task named "Unnamed task", also as
    part of a document.  The error is raised only for an entry whose name,
    body or answer element is absent. *)
Theorem unnamed_task_fallback {rt : Runtime} (path : str) (root : element) :
  (forall question name_node,
      find name_path question = Some name_node ->
      no_text name_node ->
      find questiontext_path question <> None ->
      find answer_path question <> None ->
      exists task,
        parse_question question = Ok task /\ name task = unnamed_task)
  /\ (forall question e,
        parse_question question = Raise e -> lacks_field question)
  /\ (forall e,
        parse_moodle_xml path root = Raise e ->
        Exists lacks_field (task_entries root))
  /\ (forall contest_name tasks i question name_node,
        parse_moodle_xml path root = Ok (contest_name, tasks) ->
        nth_error (task_entries root) i = Some question ->
        find name_path question = Some name_node ->
        no_text name_node ->
        exists task,
          nth_error tasks i = Some task /\ name task = unnamed_task).
Proof.
  split; [|split; [|split]].
  - intros q name_node Hn Ht Hb Ha.
    destruct (parse_question_total q) as [[task E]|E].
    + exists task. split; [exact E|].
      apply parse_question_name in E. destruct E as (n' & Hn' & ->).
      rewrite Hn in Hn'. injection Hn' as <-. now apply no_text_name.
    + apply parse_question_raise in E. destruct E as [[H|[H|H]] _]; congruence.
  - intros q e H. exact (proj1 (parse_question_raise _ _ H)).
  - intros e H. exact (proj2 (parse_moodle_xml_raise _ _ _ H)).
  - intros cn ts i q name_node H Hi Hn Ht.
    apply parse_moodle_xml_ok in H.
    revert i Hi. induction H as [|q' t qs ts' Hq Hall IH]; intros [|i] Hi;
      simpl in Hi; try discriminate.
    + injection Hi as ->. exists t. split; [reflexivity|].
      apply parse_question_name in Hq. destruct Hq as (n' & Hn' & ->).
      rewrite Hn in Hn'. injection Hn' as <-. now apply no_text_name.
    + exact (IH _ Hi).
Qed.

(** ** The indices of the test cases *)

Lemma collect_tests_numbered idx testcases acc :
  collect_tests idx testcases acc
  = acc ++ map (fun p => test_of (fst p) (snd p))
               (filter (fun p => has_payloads (snd p))
                       (numbered idx testcases)).
Proof.
  revert idx acc. induction testcases as [|tc tcs IH]; intros idx acc; simpl.
  - now rewrite app_nil_r.
  - unfold has_payloads at 1. simpl.
    destruct (find stdin_path tc) as [i|] eqn:Ei; [|apply IH].
    destruct (find expected_path tc) as [o|] eqn:Eo; [|apply IH].
    rewrite IH, <- app_assoc. simpl. unfold test_of at 2. simpl.
    now rewrite Ei, Eo.
Qed.

Lemma numbered_above idx testcases :
  Forall (fun p => (idx <= fst p)%Z) (numbered idx testcases).
Proof.
  revert idx. induction testcases as [|tc tcs IH]; intros idx; simpl;
    constructor; simpl; [lia|].
  eapply Forall_impl; [|apply IH]. simpl. intros p Hp. lia.
Qed.

Lemma numbered_increasing (keep : Z * element -> bool) idx testcases :
  StronglySorted Z.lt (map fst (filter keep (numbered idx testcases))).
Proof.
  revert idx. induction testcases as [|tc tcs IH]; intros idx; simpl.
  - constructor.
  - destruct (keep (idx, tc)); [|apply IH]. simpl. constructor; [apply IH|].
    apply Forall_forall. intros z Hz. apply in_map_iff in Hz.
    destruct Hz as (p & <- & Hp). apply filter_In in Hp. destruct Hp as [Hp _].
    pose proof (numbered_above (idx + 1) tcs) as Hall.
    rewrite Forall_forall in Hall. specialize (Hall _ Hp). lia.
Qed.

Lemma numbered_all idx testcases :
  forallb has_payloads testcases = true ->
  map fst (filter (fun p => has_payloads (snd p)) (numbered idx testcases))
  = count_from idx (length testcases).
Proof.
  revert idx. induction testcases as [|tc tcs IH]; intros idx H; simpl in *;
    [reflexivity|].
  apply andb_true_iff in H. destruct H as [H1 H2]. rewrite H1. simpl.
  now rewrite IH.
Qed.

Lemma parse_question_tests {rt : Runtime} question task :
  parse_question question = Ok task ->
  tests task = collect_tests 1 (findall testcase_path question) [].
Proof.
  unfold parse_question.
  destruct (find name_path question); [|discriminate].
  destruct (find questiontext_path question); [|discriminate].
  destruct (find answer_path question); [|discriminate].
  destruct (extract_text_sections _) as [[l i] o].
  intros H. injection H as <-. reflexivity.
Qed.

(** C2, as the code has it.  A nested test entry without an input or an
    expected-output payload is left out and raises nothing, but it keeps its
    number: the index of a produced TestCase is the 1-based position of its
    entry among all the nested test entries of the task.  The indices are
    strictly increasing in source order, and they are 1, 2, ..., n when no
    entry is left out. *)
Theorem test_index_is_position {rt : Runtime} (question : element) :
  ~ lacks_field question ->
  exists task,
    parse_question question = Ok task
    /\ tests task
       = map (fun p => test_of (fst p) (snd p))
             (filter (fun p => has_payloads (snd p))
                     (numbered 1 (findall testcase_path question)))
    /\ StronglySorted Z.lt (map index (tests task))
    /\ (forallb has_payloads (findall testcase_path question) = true ->
        map index (tests task)
        = count_from 1 (length (findall testcase_path question))).
Proof.
  intros Hfields.
  destruct (parse_question_total question) as [[task E]|E].
  2:{ apply parse_question_raise in E. destruct E as [E _]. contradiction. }
  exists task. split; [exact E|].
  apply parse_question_tests in E.
  rewrite collect_tests_numbered in E. simpl in E.
  assert (Hidx : map index (tests task)
                 = map fst (filter (fun p => has_payloads (snd p))
                              (numbered 1 (findall testcase_path question)))).
  { rewrite E, map_map. reflexivity. }
  split; [exact E|]. rewrite Hidx. split.
  - apply numbered_increasing.
  - apply numbered_all.
Qed.

Lemma test_index_is_position_witness :
  ~ lacks_field Sample.gap_question
  /\ exists task,
       parse_question (rt := basic_runtime) Sample.gap_question = Ok task
       /\ tests task
          = map (fun p => test_of (fst p) (snd p))
                (filter (fun p => has_payloads (snd p))
                   (numbered 1 (findall testcase_path Sample.gap_question)))
       /\ StronglySorted Z.lt (map index (tests task))
       /\ (forallb has_payloads (findall testcase_path Sample.gap_question)
           = true ->
           map index (tests task)
           = count_from 1
               (length (findall testcase_path Sample.gap_question))).
Proof.
  assert (H : ~ lacks_field Sample.gap_question).
  { intros [H|[H|H]]; vm_compute in H; discriminate H. }
  split; [exact H|].
  exact (test_index_is_position (rt := basic_runtime) _ H).
Defined.

(** C2 as stated fails: of two test entries the first has no expected
    output; the one test case produced has index 2, not 1. *)
Lemma test_index_gap :
  exists task,
    parse_question (rt := basic_runtime) Sample.gap_question = Ok task
    /\ map index (tests task) = [2%Z]
    /\ map index (tests task) <> count_from 1 (length (tests task)).
Proof.
  eexists. split; [vm_compute; reflexivity|].
  split; [reflexivity|]. vm_compute. discriminate.
Qed.

(** ** Words and tokens *)

Lemma take_drop_while (p : char -> bool) (s : str) :
  takeWhile p s ++ dropWhile p s = s.
Proof.
  induction s as [|c s IH]; simpl; [reflexivity|].
  destruct (p c); simpl; [now rewrite IH|reflexivity].
Qed.

Lemma takeWhile_all (p : char -> bool) (s : str) :
  Forall (fun c => p c = true) (takeWhile p s).
Proof.
  induction s as [|c s IH]; simpl; [constructor|].
  destruct (p c) eqn:E; constructor; assumption.
Qed.

Lemma dropWhile_head (p : char -> bool) (s : str) :
  dropWhile p s = [] \/ exists c r, dropWhile p s = c :: r /\ p c = false.
Proof.
  induction s as [|c s IH]; simpl; [now left|].
  destruct (p c) eqn:E; [exact IH|]. right. eauto.
Qed.

Lemma dropWhile_app_all (p : char -> bool) (a b : str) :
  Forall (fun c => p c = true) a -> dropWhile p (a ++ b) = dropWhile p b.
Proof.
  induction 1 as [|c a Hc Ha IH]; simpl; [reflexivity|]. now rewrite Hc.
Qed.

Lemma dropWhile_stop (p : char -> bool) (c : char) (s : str) :
  p c = false -> dropWhile p (c :: s) = c :: s.
Proof. intros H. simpl. now rewrite H. Qed.

Lemma takeWhile_app_all (p : char -> bool) (a b : str) :
  Forall (fun c => p c = true) a ->
  takeWhile p (a ++ b) = a ++ takeWhile p b.
Proof.
  induction 1 as [|c a Hc Ha IH]; simpl; [reflexivity|].
  now rewrite Hc, IH.
Qed.

Section Words.
Context {rt : Runtime}.

Lemma dropWhile_idem (p : char -> bool) (s : str) :
  dropWhile p (dropWhile p s) = dropWhile p s.
Proof.
  destruct (dropWhile_head p s) as [E|(c & r & E & Hc)]; rewrite E;
    [reflexivity|]. simpl. now rewrite Hc.
Qed.

(** The first word, in one formula. *)
Lemma extract_first_word_eq (value : str) :
  _extract_first_word value = takeWhile not_space (dropWhile isspace value).
Proof.
  unfold _extract_first_word, split_first_word, lstrip, first_field.
  rewrite dropWhile_idem.
  destruct (dropWhile isspace value) as [|c r] eqn:E; [reflexivity|].
  destruct (dropWhile isspace (dropWhile not_space (c :: r))); reflexivity.
Qed.

Lemma first_token_word (value token : str) :
  first_token value token -> _extract_first_word value = token.
Proof.
  intros (ws & rest & -> & Hws & Hne & Htok & Hrest).
  rewrite extract_first_word_eq.
  rewrite dropWhile_app_all by exact Hws.
  destruct token as [|c token]; [congruence|].
  inversion Htok as [|? ? Hc Htok']; subst.
  rewrite <- app_comm_cons, dropWhile_stop by exact Hc.
  rewrite app_comm_cons, takeWhile_app_all.
  - destruct Hrest as [->|(d & r & -> & Hd)]; simpl.
    + now rewrite app_nil_r.
    + unfold not_space at 1. rewrite Hd. simpl. now rewrite app_nil_r.
  - eapply Forall_impl; [|exact Htok]. intros a Ha. unfold not_space.
    now rewrite Ha.
Qed.

Lemma all_space_word (value : str) :
  all_space value -> _extract_first_word value = [].
Proof.
  intros H. rewrite extract_first_word_eq.
  rewrite <- (app_nil_r value), dropWhile_app_all by exact H. reflexivity.
Qed.

Lemma word_first_token (value : str) :
  _extract_first_word value <> [] ->
  first_token value (_extract_first_word value).
Proof.
  rewrite extract_first_word_eq. intros Hne.
  exists (takeWhile isspace value),
         (dropWhile not_space (dropWhile isspace value)).
  split.
  { now rewrite take_drop_while, take_drop_while. }
  split; [apply takeWhile_all|]. split; [exact Hne|]. split.
  - eapply Forall_impl; [|apply takeWhile_all]. unfold not_space.
    intros a Ha. now apply negb_true_iff in Ha.
  - destruct (dropWhile_head not_space (dropWhile isspace value))
      as [E|(c & r & E & Hc)]; [now left|right].
    exists c, r. split; [exact E|]. unfold not_space in Hc.
    now apply negb_false_iff in Hc.
Qed.

Lemma word_empty_all_space (value : str) :
  _extract_first_word value = [] -> all_space value.
Proof.
  rewrite extract_first_word_eq. intros H.
  destruct (dropWhile_head isspace value) as [E|(c & r & E & Hc)].
  - rewrite <- (take_drop_while isspace value), E, app_nil_r.
    apply takeWhile_all.
  - rewrite E in H. simpl in H. unfold not_space in H. rewrite Hc in H.
    discriminate H.
Qed.

Lemma all_digits_spec (s : str) :
  all_digits s = true <-> s <> [] /\ Forall (fun c => re_digit c = true) s.
Proof.
  unfold all_digits. destruct s as [|c s].
  - split; [discriminate|intros [H _]; congruence].
  - rewrite forallb_forall, Forall_forall. split.
    + intros H. split; [discriminate|exact H].
    + intros [_ H]. exact H.
Qed.

Lemma is_integer_token_spec (token : str) :
  _is_integer_token token = true <-> integer_pattern token.
Proof.
  unfold _is_integer_token, integer_pattern. split.
  - destruct token as [|c rest]; [discriminate|].
    intros H. apply orb_true_iff in H. destruct H as [H|H].
    + apply andb_true_iff in H. destruct H as [Hs Hd].
      apply all_digits_spec in Hd. destruct Hd as [Hne Hd].
      exists [c], rest. split; [reflexivity|]. split; [|split; assumption].
      apply orb_true_iff in Hs. destruct Hs as [Hs|Hs];
        apply N.eqb_eq in Hs; subst c; auto.
    + apply all_digits_spec in H. destruct H as [Hne Hd].
      exists [], (c :: rest). auto.
  - intros (sign & digits & -> & Hsign & Hne & Hd).
    assert (Hall : all_digits digits = true) by (apply all_digits_spec; auto).
    destruct Hsign as [ -> | [ -> | -> ] ]; simpl.
    + destruct digits as [|c rest]; [congruence|].
      rewrite Hall. apply orb_true_r.
    + rewrite Hall. reflexivity.
    + rewrite Hall. reflexivity.
Qed.

Lemma is_float_token_spec (token : str) :
  token <> [] -> ~ integer_pattern token ->
  (_is_float_token token = true <-> float_pattern token).
Proof.
  intros Hne Hint. unfold _is_float_token, float_pattern.
  destruct token as [|c rest]; [congruence|].
  destruct (_is_integer_token (c :: rest)) eqn:Ei.
  { apply is_integer_token_spec in Ei. contradiction. }
  destruct (float_ok (c :: rest)); simpl negb; cbv iota.
  2:{ split; [discriminate|intros [H _]; discriminate H]. }
  rewrite andb_true_iff, !existsb_exists, !Exists_exists.
  split.
  - intros [(d & Hd & Hdig) (e & He & Hmark)].
    split; [reflexivity|]. split; [eauto|].
    exists e. split; [exact He|].
    apply existsb_exists in Hmark. destruct Hmark as (m & Hm & Hem).
    apply N.eqb_eq in Hem. subst m. simpl in Hm.
    destruct Hm as [ <- | [ <- | [ <- | [] ] ] ]; auto.
  - intros (_ & (d & Hd & Hdig) & (e & He & Hmark)).
    split; [eauto|]. exists e. split; [exact He|].
    apply existsb_exists.
    destruct Hmark as [ -> | [ -> | -> ] ]; eexists; (split; [|apply N.eqb_refl]);
      simpl; auto.
Qed.

Lemma select_checker_cases (task : MoodleTask) :
  _select_checker task =
  match tests task with
  | [] => lcmp
  | first :: _ =>
      let word := _extract_first_word (output_data first) in
      if str_eqb word [] then lcmp
      else if _is_integer_token word then ncmp
      else if _is_float_token word then rcmp9
      else lcmp
  end.
Proof.
  unfold _select_checker. destruct (tests task) as [|first others];
    [reflexivity|].
  cbv zeta. destruct (_extract_first_word (output_data first)); reflexivity.
Qed.

End Words.

(** C4. The checker is chosen from the expected output of the first test
    alone (two tasks that agree on it get the same checker): line comparison for a task with no test or with no token there;
    integer comparison when the first whitespace-delimited token is an
    optional sign followed by digits only; else the floating-point
    comparison when [float] parses the token and it has a digit and a [.],
    [e] or [E]; else line comparison.  The policy so described is the one
    the code returns, and no other. *)
Theorem select_checker_policy {rt : Runtime} (task : MoodleTask) :
  selects task (_select_checker task)
  /\ (forall checker, selects task checker -> checker = _select_checker task)
  /\ (forall task',
        option_map output_data (hd_error (tests task'))
        = option_map output_data (hd_error (tests task)) ->
        _select_checker task' = _select_checker task).
Proof.
  split; [|split].
  3:{ intros task' H. rewrite !select_checker_cases.
      destruct (tests task') as [|t' ?], (tests task) as [|t ?];
        simpl in H; try discriminate; [reflexivity|].
      injection H as ->. reflexivity. }
  - rewrite select_checker_cases.
    destruct (tests task) as [|first others] eqn:Et;
      [now apply selects_no_tests|].
    cbv zeta.
    destruct (str_eqb (_extract_first_word (output_data first)) []) eqn:Ew.
    { apply str_eqb_eq in Ew. apply word_empty_all_space in Ew.
      eapply selects_no_token; eassumption. }
    assert (Hne : _extract_first_word (output_data first) <> []).
    { intros H. rewrite H in Ew. discriminate Ew. }
    pose proof (word_first_token _ Hne) as Htok.
    destruct (_is_integer_token _) eqn:Ei.
    { apply is_integer_token_spec in Ei.
      eapply selects_integer; eassumption. }
    assert (Hint : ~ integer_pattern (_extract_first_word (output_data first))).
    { intros H. apply is_integer_token_spec in H. congruence. }
    destruct (_is_float_token _) eqn:Ef.
    + apply (is_float_token_spec _ Hne Hint) in Ef.
      eapply selects_float; eassumption.
    + eapply selects_lines; try eassumption.
      intros H. apply (is_float_token_spec _ Hne Hint) in H. congruence.
  - intros checker H. rewrite select_checker_cases.
    destruct H as [Et|first others Et Hs|first others token Et Htok Hi
                  |first others token Et Htok Hi Hf
                  |first others token Et Htok Hi Hf]; rewrite Et;
      [reflexivity| |pose proof Htok as Hw..].
    + cbv zeta. now rewrite (all_space_word _ Hs).
    + apply first_token_word in Hw. cbv zeta. rewrite Hw.
      destruct Htok as (_ & _ & _ & _ & Hne & _).
      destruct (str_eqb token []) eqn:E; [apply str_eqb_eq in E; congruence|].
      apply is_integer_token_spec in Hi. now rewrite Hi.
    + apply first_token_word in Hw. cbv zeta. rewrite Hw.
      destruct Htok as (_ & _ & _ & _ & Hne & _).
      destruct (str_eqb token []) eqn:E; [apply str_eqb_eq in E; congruence|].
      destruct (_is_integer_token token) eqn:Ei;
        [apply is_integer_token_spec in Ei; contradiction|].
      apply (is_float_token_spec _ Hne Hi) in Hf. now rewrite Hf.
    + apply first_token_word in Hw. cbv zeta. rewrite Hw.
      destruct Htok as (_ & _ & _ & _ & Hne & _).
      destruct (str_eqb token []) eqn:E; [apply str_eqb_eq in E; congruence|].
      destruct (_is_integer_token token) eqn:Ei;
        [apply is_integer_token_spec in Ei; contradiction|].
      destruct (_is_float_token token) eqn:Ef; [|reflexivity].
      apply (is_float_token_spec _ Hne Hi) in Ef. contradiction.
Qed.

Example select_checker_examples :
  map (fun outputs => _select_checker (rt := basic_runtime)
                        (Sample.task_expecting outputs))
      [ []; ["42"]; ["3.14"]; ["hello"]; ["  -7 apples"; "2.5"]; ["1e5"];
        ["  "]; ["inf"]; ["+"]; ["1_000"]; ["4."] ]%string
  = [ lcmp; ncmp; rcmp9; lcmp; ncmp; rcmp9; lcmp; lcmp; lcmp; lcmp; rcmp9 ].
Proof. vm_compute. reflexivity. Qed.

(** ** The scan of the lines *)

Section Scan.
Context {rt : Runtime}.

Lemma marker_not_legend line : marker_of line <> Some Legend.
Proof.
  unfold marker_of.
  repeat match goal with |- context [if ?b then _ else _] => destruct b end;
    discriminate.
Qed.

Lemma scan_from_app st a b :
  scan_from st (a ++ b) = scan_from (scan_from st a) b.
Proof. apply fold_left_app. Qed.

Lemma scan_from_marker st line sec rest :
  marker_of line = Some sec ->
  scan_from st (line :: rest) = scan_from (switch_to sec st) rest.
Proof. intros H. unfold scan_from. simpl. unfold scan_line. now rewrite H. Qed.

(** Plain lines go to the buffer of the current section. *)
Lemma scan_from_plain st lines :
  plain_lines lines ->
  scan_from st lines =
  match current st with
  | Legend =>
      {| current := Legend; legend_lines := legend_lines st ++ lines;
         input_lines := input_lines st; output_lines := output_lines st |}
  | Input =>
      {| current := Input; legend_lines := legend_lines st;
         input_lines := input_lines st ++ lines;
         output_lines := output_lines st |}
  | Output =>
      {| current := Output; legend_lines := legend_lines st;
         input_lines := input_lines st;
         output_lines := output_lines st ++ lines |}
  end.
Proof.
  intros H. revert st. induction H as [|line rest Hl _ IH]; intros st.
  - destruct st as [[] l i o]; simpl; now rewrite app_nil_r.
  - unfold scan_from in *. simpl. unfold scan_line at 2. rewrite Hl.
    rewrite IH. unfold append_line.
    destruct st as [[] l i o]; simpl; now rewrite <- app_assoc.
Qed.

(** The legend buffer is filled up to the first marker and never after. *)
Lemma legend_lines_scan_from st lines :
  legend_lines (scan_from st lines) =
  match current st with
  | Legend => legend_lines st ++ before_marker lines
  | _ => legend_lines st
  end.
Proof.
  revert st. induction lines as [|line rest IH]; intros st.
  - simpl. destruct (current st); [now rewrite app_nil_r|reflexivity..].
  - unfold scan_from in *. simpl. rewrite IH. unfold scan_line.
    destruct (marker_of line) as [sec|] eqn:Em.
    + destruct sec; [now apply marker_not_legend in Em|..];
        destruct st as [[] l i o]; simpl; now rewrite ?app_nil_r.
    + unfold append_line.
      destruct st as [[] l i o]; simpl; now rewrite <- ?app_assoc.
Qed.

Lemma input_lines_never st lines :
  never_seen Input lines -> current st <> Input ->
  input_lines (scan_from st lines) = input_lines st.
Proof.
  intros H. revert st. induction H as [|line rest Hl _ IH]; intros st Hc;
    [reflexivity|].
  unfold scan_from in *. simpl. unfold scan_line at 2.
  destruct (marker_of line) as [sec|].
  - rewrite IH; [reflexivity|]. simpl. intros ->. congruence.
  - rewrite IH; unfold append_line; destruct st as [[] l i o]; simpl in *;
      congruence.
Qed.

Lemma output_lines_never st lines :
  never_seen Output lines -> current st <> Output ->
  output_lines (scan_from st lines) = output_lines st.
Proof.
  intros H. revert st. induction H as [|line rest Hl _ IH]; intros st Hc;
    [reflexivity|].
  unfold scan_from in *. simpl. unfold scan_line at 2.
  destruct (marker_of line) as [sec|].
  - rewrite IH; [reflexivity|]. simpl. intros ->. congruence.
  - rewrite IH; unfold append_line; destruct st as [[] l i o]; simpl in *;
      congruence.
Qed.

Lemma join_lines_or_empty (sep : str) (ls : list str) :
  match ls with [] => [] | l :: ls' => join sep (l :: ls') end = join sep ls.
Proof. destruct ls; reflexivity. Qed.

Lemma legend_join_lines (html : str) :
  legend_of (extract_text_sections html)
  = join blank_line (legend_lines (scan (content_lines (markup_to_text html)))).
Proof.
  unfold extract_text_sections, sections_of_text, sections_of_scan, legend_of.
  cbn [fst snd]. apply join_lines_or_empty.
Qed.

End Scan.

(** C7. The legend is the lines of the legend buffer, which are the lines
    before the first marker line, joined by blank lines; when no line of the
    text opens the input section the input format is the placeholder
    "Входные данные отсутствуют", and when none opens the output section
    the output format is "Выходные данные отсутствуют". *)
Theorem legend_join_and_placeholders {rt : Runtime} (html : str) :
  let lines := content_lines (markup_to_text html) in
  let sections := extract_text_sections html in
  legend_of sections = join blank_line (legend_lines (scan lines))
  /\ legend_lines (scan lines) = before_marker lines
  /\ (never_seen Input lines ->
      input_format_of sections = no_input_placeholder)
  /\ (never_seen Output lines ->
      output_format_of sections = no_output_placeholder).
Proof.
  cbv zeta. unfold extract_text_sections, sections_of_text, sections_of_scan.
  unfold legend_of, input_format_of, output_format_of. cbn [fst snd].
  split; [apply join_lines_or_empty|]. split; [|split].
  - unfold scan. now rewrite legend_lines_scan_from.
  - intros H. unfold scan. rewrite input_lines_never; [reflexivity|exact H|].
    discriminate.
  - intros H. unfold scan. rewrite output_lines_never; [reflexivity|exact H|].
    discriminate.
Qed.

Example placeholders_example :
  extract_text_sections (rt := basic_runtime) Sample.two_paragraphs
  = (lit "First." ++ blank_line ++ lit "Second.",
     no_input_placeholder, no_output_placeholder).
Proof. vm_compute. reflexivity. Qed.

(** C3. When the lines of the body text are legend lines, an input marker
    line, input lines, an output marker line and output lines, none of the
    other lines being a marker, the classifier returns the legend lines
    (joined by blank lines), the input lines and the output lines (joined by
    newlines); the buffers hold exactly these lines, so the two marker lines
    are in no section. *)
Theorem marked_sections {rt : Runtime} (html : str)
    (before inputs outputs : list str) (input_marker output_marker : str) :
  content_lines (markup_to_text html)
  = before ++ input_marker :: inputs ++ output_marker :: outputs ->
  marker_of input_marker = Some Input ->
  marker_of output_marker = Some Output ->
  plain_lines before -> plain_lines inputs -> plain_lines outputs ->
  inputs <> [] -> outputs <> [] ->
  extract_text_sections html
  = (join blank_line before, join newline inputs, join newline outputs)
  /\ scan (content_lines (markup_to_text html))
     = {| current := Output; legend_lines := before; input_lines := inputs;
          output_lines := outputs |}
  /\ ~ In input_marker (before ++ inputs ++ outputs)
  /\ ~ In output_marker (before ++ inputs ++ outputs).
Proof.
  intros Hlines Hi Ho Hb Hin Hout Hne_i Hne_o.
  assert (Hscan : scan (content_lines (markup_to_text html))
                  = {| current := Output; legend_lines := before;
                       input_lines := inputs; output_lines := outputs |}).
  { rewrite Hlines. unfold scan, scan_start.
    rewrite scan_from_app.
    rewrite scan_from_plain with (lines := before) by exact Hb.
    cbn [current legend_lines input_lines output_lines app].
    erewrite scan_from_marker by exact Hi.
    unfold switch_to. cbn [current legend_lines input_lines output_lines].
    rewrite scan_from_app.
    rewrite scan_from_plain with (lines := inputs) by exact Hin.
    cbn [current legend_lines input_lines output_lines app].
    erewrite scan_from_marker by exact Ho.
    unfold switch_to. cbn [current legend_lines input_lines output_lines].
    rewrite scan_from_plain by exact Hout.
    cbn [current legend_lines input_lines output_lines app]. reflexivity. }
  split; [|split; [exact Hscan|]].
  - unfold extract_text_sections, sections_of_text. rewrite Hscan.
    unfold sections_of_scan.
    cbn [legend_lines input_lines output_lines].
    destruct inputs; [congruence|]. destruct outputs; [congruence|].
    destruct before; reflexivity.
  - assert (Hplain : plain_lines (before ++ inputs ++ outputs)).
    { unfold plain_lines. rewrite !Forall_app. auto. }
    unfold plain_lines in Hplain. rewrite Forall_forall in Hplain.
    split; intros H; apply Hplain in H; congruence.
Qed.

Lemma marked_sections_witness :
  extract_text_sections (rt := basic_runtime) Sample.marked_body
  = (join blank_line [lit "Compute a+b."; lit "Both are small."],
     join newline [lit "Two integers."; lit "One line."],
     join newline [lit "Their sum."])
  /\ scan (rt := basic_runtime)
       (content_lines (markup_to_text (rt := basic_runtime)
                         Sample.marked_body))
     = {| current := Output;
          legend_lines := [lit "Compute a+b."; lit "Both are small."];
          input_lines := [lit "Two integers."; lit "One line."];
          output_lines := [lit "Their sum."] |}
  /\ ~ In Sample.ru_input_marker
         ([lit "Compute a+b."; lit "Both are small."]
          ++ [lit "Two integers."; lit "One line."] ++ [lit "Their sum."])
  /\ ~ In (lit "Output data:")
         ([lit "Compute a+b."; lit "Both are small."]
          ++ [lit "Two integers."; lit "One line."] ++ [lit "Their sum."]).
Proof.
  apply (@marked_sections basic_runtime Sample.marked_body
           [lit "Compute a+b."; lit "Both are small."]
           [lit "Two integers."; lit "One line."] [lit "Their sum."]
           Sample.ru_input_marker (lit "Output data:")).
  - vm_compute. reflexivity.
  - vm_compute. reflexivity.
  - vm_compute. reflexivity.
  - repeat constructor.
  - repeat constructor.
  - repeat constructor.
  - discriminate.
  - discriminate.
Defined.

(** ** Whitespace normalization of the legend *)

Lemma rstrip_ends (s : str) :
  rstrip s = [] \/ exists r c, rstrip s = r ++ [c] /\ isspace c = false.
Proof.
  unfold rstrip.
  destruct (dropWhile_head isspace (rev s)) as [E|(c & r & E & Hc)];
    rewrite E; [now left|right].
  exists (rev r), c. split; [reflexivity|exact Hc].
Qed.

Lemma rstrip_prefix (s : str) : exists tail, s = rstrip s ++ tail.
Proof.
  exists (rev (takeWhile isspace (rev s))). unfold rstrip.
  rewrite <- rev_app_distr, take_drop_while. now rewrite rev_involutive.
Qed.

Lemma strip_trimmed (s : str) : strip s = [] \/ trimmed (strip s).
Proof.
  unfold strip, lstrip.
  destruct (dropWhile_head isspace s) as [E|(c & r & E & Hc)]; rewrite E;
    [now left|].
  destruct (rstrip_ends (c :: r)) as [E'|(r' & c' & E' & Hc')]; [now left|].
  right. split; [|rewrite E'; eauto].
  destruct (rstrip_prefix (c :: r)) as [tail Ht].
  destruct (rstrip (c :: r)) as [|x y]; [destruct r'; discriminate E'|].
  injection Ht as <- _. eauto.
Qed.

Lemma strip_of_trimmed (s : str) : trimmed s -> strip s = s.
Proof.
  intros [(c & r & -> & Hc) (r' & c' & E & Hc')].
  unfold strip, lstrip. rewrite dropWhile_stop by exact Hc.
  unfold rstrip. rewrite E, rev_app_distr. simpl. rewrite Hc'.
  simpl. now rewrite rev_involutive.
Qed.

Lemma content_lines_trimmed {rt : Runtime} (text : str) :
  Forall trimmed (content_lines text).
Proof.
  apply Forall_forall. intros l Hl. unfold content_lines in Hl.
  apply filter_In in Hl. destruct Hl as [Hin Hne].
  apply in_map_iff in Hin. destruct Hin as (x & <- & _).
  destruct (strip_trimmed x) as [E|H]; [|exact H].
  rewrite E in Hne. discriminate Hne.
Qed.

Lemma before_marker_all {rt : Runtime} (P : str -> Prop) (lines : list str) :
  Forall P lines -> Forall P (before_marker lines).
Proof.
  induction 1 as [|l ls Hl _ IH]; simpl; [constructor|].
  destruct (marker_of l); constructor; assumption.
Qed.

Lemma join_trimmed (sep : str) (ls : list str) :
  ls <> [] -> Forall trimmed ls -> trimmed (join sep ls).
Proof.
  intros Hne H. induction H as [|l ls Hl Hls IH]; [congruence|].
  destruct ls as [|l2 ls]; [exact Hl|].
  assert (Hj : trimmed (join sep (l2 :: ls))) by (apply IH; discriminate).
  change (trimmed (l ++ sep ++ join sep (l2 :: ls))).
  destruct Hl as [(c & r & -> & Hc) _].
  destruct Hj as [_ (r' & c' & -> & Hc')]. split.
  - exists c, (r ++ sep ++ r' ++ [c']). split; [reflexivity|exact Hc].
  - exists ((c :: r) ++ sep ++ r'), c'. split; [|exact Hc'].
    now rewrite <- !app_assoc.
Qed.

Lemma sub_spaces_end (b : bool) (r : str) (c : char) (s : str) :
  isspace c = false ->
  sub_spaces b ((r ++ [c]) ++ s) = sub_spaces b (r ++ [c]) ++ sub_spaces false s.
Proof.
  intros Hc. revert b. induction r as [|x r IH]; intros b; simpl.
  - now rewrite Hc.
  - destruct (isspace x); [destruct b|]; simpl; now rewrite IH.
Qed.

Lemma sub_spaces_last (b : bool) (r : str) (c : char) :
  isspace c = false -> exists r', sub_spaces b (r ++ [c]) = r' ++ [c].
Proof.
  intros Hc. revert b. induction r as [|x r IH]; intros b; simpl.
  - rewrite Hc. now exists [].
  - destruct (isspace x); [destruct b|].
    + apply IH.
    + destruct (IH true) as [r' ->]. now exists (0x20%N :: r').
    + destruct (IH false) as [r' ->]. now exists (x :: r').
Qed.

Lemma sub_spaces_after_break (c : char) (s : str) :
  isspace c = false ->
  sub_spaces false (blank_line ++ c :: s)
  = space ++ sub_spaces false (c :: s).
Proof. intros Hc. simpl. now rewrite Hc. Qed.

Lemma sub_spaces_head (s : str) :
  sub_spaces true s = []
  \/ exists c r, sub_spaces true s = c :: r /\ isspace c = false.
Proof.
  induction s as [|x s IH]; simpl; [now left|].
  destruct (isspace x) eqn:E; [exact IH|]. right. eauto.
Qed.

Lemma sub_spaces_fixed (b : bool) (s : str) :
  sub_spaces false (sub_spaces b s) = sub_spaces b s.
Proof.
  revert b. induction s as [|x s IH]; intros b; simpl; [reflexivity|].
  destruct (isspace x) eqn:E.
  - destruct b; [apply IH|].
    change (sub_spaces false (0x20%N :: sub_spaces true s))
      with (0x20%N :: sub_spaces true (sub_spaces true s)).
    f_equal.
    destruct (sub_spaces_head s) as [E'|(c & r & E' & Hc)].
    + now rewrite E'.
    + rewrite <- (IH true) at 2. rewrite E'. simpl. now rewrite Hc.
  - simpl. rewrite E. now rewrite IH.
Qed.

Lemma sub_spaces_trimmed (s : str) : trimmed s -> trimmed (sub_spaces false s).
Proof.
  intros [(c & r & -> & Hc) (r' & c' & E & Hc')]. split.
  - simpl. rewrite Hc. eauto.
  - rewrite E. destruct (@sub_spaces_last false r' c' Hc') as [x ->]. eauto.
Qed.

(** Normalizing twice is normalizing once. *)
Lemma normalize_whitespace_idempotent (value : str) :
  _normalize_whitespace (_normalize_whitespace value)
  = _normalize_whitespace value.
Proof.
  unfold _normalize_whitespace.
  destruct (strip_trimmed value) as [E|H].
  - rewrite E. reflexivity.
  - rewrite (strip_of_trimmed _ (sub_spaces_trimmed _ H)).
    apply sub_spaces_fixed.
Qed.

(** Normalizing trimmed lines joined by blank lines: each line is
    normalized and the separators become single spaces. *)
Lemma sub_spaces_join (ls : list str) :
  Forall trimmed ls ->
  sub_spaces false (join blank_line ls)
  = join space (map (sub_spaces false) ls).
Proof.
  induction 1 as [|l ls Hl Hls IH]; [reflexivity|].
  destruct ls as [|l2 ls]; [reflexivity|].
  assert (Hj : trimmed (join blank_line (l2 :: ls))).
  { apply join_trimmed; [discriminate|exact Hls]. }
  change (sub_spaces false (l ++ blank_line ++ join blank_line (l2 :: ls))
          = sub_spaces false l ++ space
            ++ join space (map (sub_spaces false) (l2 :: ls))).
  rewrite <- IH.
  destruct Hl as [_ (r & c & -> & Hc)].
  rewrite sub_spaces_end by exact Hc. f_equal.
  destruct Hj as [(c' & r' & E & Hc') _]. rewrite E.
  now apply sub_spaces_after_break.
Qed.

Lemma legend_lines_trimmed {rt : Runtime} (text : str) :
  Forall trimmed (legend_lines (scan (content_lines text))).
Proof.
  unfold scan. rewrite legend_lines_scan_from. simpl.
  apply before_marker_all, content_lines_trimmed.
Qed.

(** C8, as the code has it.  The legend has no whitespace at its ends, so
    the [strip] of [_normalize_whitespace] leaves it unchanged; the
    normalization of the legend is its lines, each normalized, joined by
    single spaces: the blank lines between the lines are collapsed.  A legend
    of one line that is normalized is left unchanged, and normalizing a
    second time changes nothing. *)
Theorem legend_renormalized {rt : Runtime} (html : str) :
  let lines := legend_lines (scan (content_lines (markup_to_text html))) in
  let legend := legend_of (extract_text_sections html) in
  strip legend = legend
  /\ _normalize_whitespace legend
     = join space (map _normalize_whitespace lines)
  /\ _normalize_whitespace (_normalize_whitespace legend)
     = _normalize_whitespace legend
  /\ (forall line,
        lines = [line] -> _normalize_whitespace line = line ->
        _normalize_whitespace legend = legend).
Proof.
  cbv zeta.
  pose proof (legend_lines_trimmed (markup_to_text html)) as Hall.
  assert (Hlegend : legend_of (extract_text_sections html)
                    = join blank_line
                        (legend_lines (scan (content_lines
                                               (markup_to_text html)))))
    by apply legend_join_lines.
  rewrite Hlegend.
  set (ls := legend_lines (scan (content_lines (markup_to_text html)))) in *.
  assert (Hstrip : strip (join blank_line ls) = join blank_line ls).
  { destruct ls as [|l ls'] eqn:E; [reflexivity|].
    apply strip_of_trimmed, join_trimmed; [discriminate|exact Hall]. }
  assert (Hnorm : _normalize_whitespace (join blank_line ls)
                  = join space (map _normalize_whitespace ls)).
  { unfold _normalize_whitespace at 1. rewrite Hstrip, sub_spaces_join
      by exact Hall.
    f_equal. apply map_ext_in. intros l Hl. unfold _normalize_whitespace.
    rewrite Forall_forall in Hall. now rewrite (strip_of_trimmed _ (Hall _ Hl)). }
  split; [exact Hstrip|]. split; [exact Hnorm|].
  split; [apply normalize_whitespace_idempotent|].
  intros line E Hline. rewrite Hnorm, E. simpl. exact Hline.
Qed.

(** C8 as stated fails: the legend of a text of two paragraphs holds a
    blank line, which the normalization turns into one space. *)
Lemma legend_changed_by_normalization :
  let legend :=
    legend_of (extract_text_sections (rt := basic_runtime)
                 Sample.two_paragraphs) in
  legend = lit "First." ++ blank_line ++ lit "Second."
  /\ _normalize_whitespace legend = lit "First. Second."
  /\ _normalize_whitespace legend <> legend.
Proof.
  cbv zeta. split; [vm_compute; reflexivity|].
  split; [vm_compute; reflexivity|]. vm_compute. discriminate.
Qed.

(** ** The order of the signed parameters *)

Lemma str_compare_eq (a b : str) : str_compare a b = Eq <-> a = b.
Proof.
  revert b. induction a as [|x a IH]; intros [|y b]; simpl; split;
    try discriminate; try reflexivity.
  - destruct (N.compare x y) eqn:E; try discriminate.
    apply N.compare_eq in E. subst y. intros H. apply IH in H. now subst.
  - intros H. injection H as <- <-. rewrite N.compare_refl. now apply IH.
Qed.

Lemma str_compare_antisym (a b : str) :
  str_compare b a = CompOpp (str_compare a b).
Proof.
  revert b. induction a as [|x a IH]; intros [|y b]; simpl; try reflexivity.
  rewrite (N.compare_antisym x y).
  destruct (N.compare x y); simpl; [apply IH|reflexivity..].
Qed.

Lemma str_compare_lt_trans (a b c : str) :
  str_compare a b = Lt -> str_compare b c = Lt -> str_compare a c = Lt.
Proof.
  revert b c. induction a as [|x a IH]; intros [|y b] [|z c]; simpl;
    try discriminate; try reflexivity.
  destruct (N.compare x y) eqn:Exy; try discriminate;
    destruct (N.compare y z) eqn:Eyz; try discriminate; intros H1 H2.
  - apply N.compare_eq in Exy, Eyz. subst. rewrite N.compare_refl.
    eapply IH; eassumption.
  - apply N.compare_eq in Exy. subst. now rewrite Eyz.
  - apply N.compare_eq in Eyz. subst. now rewrite Exy.
  - assert (E : N.compare x z = Lt)
      by (apply N.compare_lt_iff; apply N.compare_lt_iff in Exy, Eyz;
          eapply N.lt_trans; eassumption).
    now rewrite E.
Qed.

Lemma item_compare_eq (a b : str * str) : item_compare a b = Eq <-> a = b.
Proof.
  destruct a as [k v], b as [k' v']. unfold item_compare. simpl. split.
  - destruct (str_compare k k') eqn:E; try discriminate.
    apply str_compare_eq in E. intros H. apply str_compare_eq in H.
    now subst.
  - intros H. injection H as <- <-.
    rewrite (proj2 (str_compare_eq k k) eq_refl).
    now apply str_compare_eq.
Qed.

Lemma item_compare_antisym (a b : str * str) :
  item_compare b a = CompOpp (item_compare a b).
Proof.
  destruct a as [k v], b as [k' v']. unfold item_compare. simpl.
  rewrite (str_compare_antisym k k').
  destruct (str_compare k k'); simpl; [apply str_compare_antisym|reflexivity..].
Qed.

Lemma item_compare_lt_trans (a b c : str * str) :
  item_compare a b = Lt -> item_compare b c = Lt -> item_compare a c = Lt.
Proof.
  destruct a as [k1 v1], b as [k2 v2], c as [k3 v3].
  unfold item_compare. simpl.
  destruct (str_compare k1 k2) eqn:E12; try discriminate;
    destruct (str_compare k2 k3) eqn:E23; try discriminate; intros H1 H2.
  - apply str_compare_eq in E12, E23. subst.
    rewrite (proj2 (str_compare_eq k3 k3) eq_refl).
    eapply str_compare_lt_trans; eassumption.
  - apply str_compare_eq in E12. subst. now rewrite E23.
  - apply str_compare_eq in E23. subst. now rewrite E12.
  - now rewrite (str_compare_lt_trans _ _ _ E12 E23).
Qed.

Lemma item_le_cases (a b : str * str) :
  item_le a b <-> item_compare a b = Lt \/ a = b.
Proof.
  unfold item_le. rewrite <- item_compare_eq.
  destruct (item_compare a b); split; intros H; try congruence; auto;
    destruct H; congruence.
Qed.

Lemma item_le_trans (a b c : str * str) :
  item_le a b -> item_le b c -> item_le a c.
Proof.
  rewrite !item_le_cases. intros [H1|<-] [H2|<-]; auto.
  left. eapply item_compare_lt_trans; eassumption.
Qed.

Lemma item_le_antisym (a b : str * str) : item_le a b -> item_le b a -> a = b.
Proof.
  rewrite !item_le_cases. intros [H1|H1] [H2|H2]; auto.
  rewrite item_compare_antisym, H1 in H2. discriminate H2.
Qed.

Lemma item_ltb_false (a b : str * str) : item_ltb a b = false -> item_le b a.
Proof.
  unfold item_ltb, item_le. rewrite (item_compare_antisym a b).
  destruct (item_compare a b); simpl; congruence.
Qed.

Lemma item_ltb_true (a b : str * str) : item_ltb a b = true -> item_le a b.
Proof.
  unfold item_ltb, item_le. destruct (item_compare a b); congruence.
Qed.

Lemma insert_item_perm (x : str * str) (l : list (str * str)) :
  Permutation (x :: l) (insert_item x l).
Proof.
  induction l as [|y l IH]; simpl; [reflexivity|].
  destruct (item_ltb y x); [|reflexivity].
  rewrite perm_swap. now apply perm_skip.
Qed.

Lemma insert_item_sorted (x : str * str) (l : list (str * str)) :
  StronglySorted item_le l -> StronglySorted item_le (insert_item x l).
Proof.
  induction 1 as [|y l Hl IH Hy]; simpl.
  - constructor; constructor.
  - destruct (item_ltb y x) eqn:E.
    + constructor; [exact IH|].
      apply Forall_forall. intros z Hz.
      apply (Permutation_in _ (Permutation_sym (insert_item_perm x l))) in Hz.
      destruct Hz as [<-|Hz]; [now apply item_ltb_true|].
      rewrite Forall_forall in Hy. now apply Hy.
    + apply item_ltb_false in E.
      constructor; [now constructor|]. constructor; [exact E|].
      eapply Forall_impl; [|exact Hy]. intros z Hz.
      eapply item_le_trans; eassumption.
Qed.

Lemma sorted_perm (items : list (str * str)) : Permutation items (sorted items).
Proof.
  induction items as [|x l IH]; simpl; [constructor|].
  rewrite <- insert_item_perm. now apply perm_skip.
Qed.

Lemma sorted_sorted (items : list (str * str)) :
  StronglySorted item_le (sorted items).
Proof.
  induction items as [|x l IH]; simpl; [constructor|].
  now apply insert_item_sorted.
Qed.

(** A list has one sorted arrangement. *)
Lemma sorted_unique (l1 l2 : list (str * str)) :
  StronglySorted item_le l1 -> StronglySorted item_le l2 ->
  Permutation l1 l2 -> l1 = l2.
Proof.
  intros H1. revert l2. induction H1 as [|x l1 Hs1 IH Hx]; intros l2 H2 Hp.
  - apply Permutation_nil in Hp. now subst.
  - destruct H2 as [|y l2 Hs2 Hy].
    + apply Permutation_sym, Permutation_nil in Hp. discriminate Hp.
    + assert (Exy : x = y).
      { rewrite Forall_forall in Hx, Hy.
        assert (Hin_x : In x (y :: l2))
          by (eapply Permutation_in; [exact Hp|now left]).
        assert (Hin_y : In y (x :: l1))
          by (eapply Permutation_in;
              [exact (Permutation_sym Hp)|now left]).
        destruct Hin_x as [->|Hin_x]; [reflexivity|].
        destruct Hin_y as [->|Hin_y]; [reflexivity|].
        apply item_le_antisym; auto. }
      subst y. f_equal. apply IH; [exact Hs2|].
      eapply Permutation_cons_inv; exact Hp.
Qed.

Lemma sorted_of_perm (params items : list (str * str)) :
  Permutation params items -> StronglySorted item_le items ->
  sorted params = items.
Proof.
  intros Hp Hs. apply sorted_unique; [apply sorted_sorted|exact Hs|].
  rewrite <- Hp. apply Permutation_sym, sorted_perm.
Qed.

Lemma dict_set_new {V : Type} (k : str) (v : V) (d : list (str * V)) :
  dict_get k d = None -> dict_set k v d = d ++ [(k, v)].
Proof.
  induction d as [|[k0 v0] d IH]; simpl; [reflexivity|].
  destruct (str_eqb k0 k); [discriminate|]. intros H. now rewrite IH.
Qed.

(** The order of the sort is the order of Python on pairs of [str]. *)
Lemma text_le_compare (a b : str) : text_le a b <-> str_compare a b <> Gt.
Proof.
  split.
  - induction 1 as [b|x y a b Hxy|x a b _ IH]; simpl.
    + destruct b; discriminate.
    + apply N.compare_lt_iff in Hxy. rewrite Hxy. discriminate.
    + rewrite N.compare_refl. exact IH.
  - revert b. induction a as [|x a IH]; intros [|y b]; simpl;
      try (intros; now constructor); [congruence|].
    destruct (N.compare x y) eqn:E; intros H.
    + apply N.compare_eq in E. subst y. apply text_le_eq. now apply IH.
    + apply text_le_lt. now apply N.compare_lt_iff.
    + congruence.
Qed.

Lemma pair_le_item_le (a b : str * str) : pair_le a b <-> item_le a b.
Proof.
  destruct a as [k v], b as [k' v']. unfold pair_le, item_le, item_compare.
  cbn [fst snd]. rewrite !text_le_compare.
  destruct (str_compare k k') eqn:E.
  - apply str_compare_eq in E. subst k'. split; [|auto].
    intros [[_ H]|[_ H]]; [congruence|exact H].
  - split; [discriminate|]. intros _. left. split; [discriminate|].
    intros ->. rewrite (proj2 (str_compare_eq k' k') eq_refl) in E.
    discriminate E.
  - split; [|congruence]. intros [[H _]|[-> _]]; [congruence|].
    rewrite (proj2 (str_compare_eq k' k') eq_refl) in E. discriminate E.
Qed.

Lemma pair_le_sorted (items : list (str * str)) :
  StronglySorted pair_le items <-> StronglySorted item_le items.
Proof.
  split; induction 1 as [|x l _ IH Hx]; constructor; try exact IH;
    (eapply Forall_impl; [|exact Hx]); intros y; apply pair_le_item_le.
Qed.

Lemma amp_joined_query (items : list (str * str)) :
  amp_joined items (query_of items).
Proof.
  induction items as [|[name value] [|item items] IH].
  - constructor.
  - apply amp_joined_one.
  - change (query_of ((name, value) :: item :: items))
      with ((name ++ lit "=" ++ value) ++ lit "&" ++ query_of (item :: items)).
    rewrite <- !app_assoc. apply amp_joined_more. exact IH.
Qed.

Lemma amp_joined_unique (items : list (str * str)) (query : str) :
  amp_joined items query -> query = query_of items.
Proof.
  induction 1 as [|name value|name value item items query _ IH].
  - reflexivity.
  - reflexivity.
  - change (query_of ((name, value) :: item :: items))
      with ((name ++ lit "=" ++ value) ++ lit "&" ++ query_of (item :: items)).
    rewrite <- !app_assoc, <- IH. reflexivity.
Qed.

(** *** What [encode] takes *)

Lemma utf8_error_from_none (pos : nat) (s : str) :
  utf8_error_from pos s = None <-> encodable s.
Proof.
  revert pos. induction s as [|c s IH]; intros pos; cbn [utf8_error_from].
  - split; [constructor|reflexivity].
  - unfold is_surrogate at 1, in_range.
    destruct (N.leb 0xD800 c) eqn:E1; [destruct (N.leb c 0xDFFF) eqn:E2|];
      cbn [andb].
    + split; [discriminate|]. intros H. inversion H as [|? ? Hc _]; subst.
      apply N.leb_le in E1, E2. lia.
    + rewrite IH. apply N.leb_gt in E2. split.
      * intros H. constructor; [lia|exact H].
      * intros H. now inversion H.
    + rewrite IH. apply N.leb_gt in E1. split.
      * intros H. constructor; [lia|exact H].
      * intros H. now inversion H.
Qed.

Lemma utf8_error_none (s : str) : utf8_error s = None <-> encodable s.
Proof. apply utf8_error_from_none. Qed.

Lemma encodable_dec (s : str) : encodable s \/ ~ encodable s.
Proof.
  rewrite <- utf8_error_none. destruct (utf8_error s); [right|left];
    congruence.
Qed.

Lemma encodable_app (a b : str) :
  encodable (a ++ b) <-> encodable a /\ encodable b.
Proof. apply Forall_app. Qed.

Lemma encodable_ascii (s : String.string) : encodable (lit s).
Proof.
  unfold lit. induction s as [|c s IH]; cbn [list_ascii_of_string map];
    constructor; [|exact IH].
  left. pose proof (N_ascii_bounded c). lia.
Qed.

Lemma encodable_str_of_int (z : Z) : encodable (str_of_int z).
Proof. apply encodable_ascii. Qed.

Lemma hex_digit_in (n : N) :
  (n < 16)%N -> In (hex_digit n) (lit "0123456789abcdef").
Proof.
  intros H.
  assert (E : In n [0; 1; 2; 3; 4; 5; 6; 7; 8; 9; 10; 11; 12; 13; 14; 15]%N).
  { cbn [In]. lia. }
  cbn [In] in E.
  repeat (destruct E as [<-|E]; [vm_compute; tauto|]). contradiction.
Qed.

Lemma hex_digits_in (k : nat) (n : N) :
  Forall (fun c => In c (lit "0123456789abcdef")) (hex_digits k n).
Proof.
  revert n. induction k as [|k IH]; intros n; cbn [hex_digits].
  - constructor.
  - apply Forall_app. split; [apply IH|]. constructor; [|constructor].
    apply hex_digit_in. apply N.mod_lt. discriminate.
Qed.

Lemma hex_digits_length (k : nat) (n : N) : length (hex_digits k n) = k.
Proof.
  revert n. induction k as [|k IH]; intros n; cbn [hex_digits];
    [reflexivity|].
  rewrite length_app, IH. simpl. lia.
Qed.

Lemma encodable_hex_digits (k : nat) (n : N) : encodable (hex_digits k n).
Proof.
  eapply Forall_impl; [|apply hex_digits_in]. intros c Hc. left.
  cbn [lit list_ascii_of_string map In] in Hc.
  repeat (destruct Hc as [<-|Hc]; [reflexivity|]). contradiction.
Qed.

Lemma encodable_rand (x : exchange) : encodable (rand_of x).
Proof. apply encodable_hex_digits. Qed.

Lemma encodable_query (items : list (str * str)) :
  encodable (query_of items)
  <-> Forall (fun item => encodable (fst item) /\ encodable (snd item)) items.
Proof.
  induction items as [|[name value] [|item items] IH].
  - split; constructor.
  - change (query_of [(name, value)]) with (name ++ lit "=" ++ value).
    rewrite !encodable_app. split.
    + intros (Hn & _ & Hv). constructor; [now split|constructor].
    + intros H. inversion H as [|? ? [Hn Hv] _]; subst.
      split; [exact Hn|]. split; [apply encodable_ascii|exact Hv].
  - change (query_of ((name, value) :: item :: items))
      with ((name ++ lit "=" ++ value) ++ lit "&" ++ query_of (item :: items)).
    rewrite !encodable_app, IH. split.
    + intros ((Hn & _ & Hv) & _ & H). constructor; [now split|exact H].
    + intros H. inversion H as [|? ? [Hn Hv] H']; subst.
      split; [split; [exact Hn|split; [apply encodable_ascii|exact Hv]]|].
      split; [apply encodable_ascii|exact H'].
Qed.

Section Signing.
Context {rt : Runtime}.

Lemma encodable_signature_base api rand method items :
  encodable rand ->
  encodable (signature_base api rand method items)
  <-> signable api method items.
Proof.
  intros Hr. unfold signature_base, signable. rewrite !encodable_app.
  rewrite encodable_query. split.
  - intros (_ & _ & Hm & _ & Hq & _ & Hs). split; [exact Hm|].
    split; [exact Hs|].
    eapply Permutation_Forall; [apply Permutation_sym, sorted_perm|exact Hq].
  - intros (Hm & Hs & Hq). split; [exact Hr|].
    split; [apply encodable_ascii|]. split; [exact Hm|].
    split; [apply encodable_ascii|].
    split; [eapply Permutation_Forall; [apply sorted_perm|exact Hq]|].
    split; [apply encodable_ascii|exact Hs].
Qed.

Lemma build_signature_signable api rand method items :
  encodable rand -> signable api method items ->
  _build_signature api rand method items
  = Ok (rand ++ sha512_hex (signature_base api rand method items)).
Proof.
  intros Hr Hs. unfold _build_signature.
  apply (encodable_signature_base api rand method items Hr) in Hs.
  apply utf8_error_none in Hs. now rewrite Hs.
Qed.

Lemma build_signature_unsignable api rand method items :
  encodable rand -> ~ signable api method items ->
  exists message,
    _build_signature api rand method items
    = Raise (UnicodeEncodeError message).
Proof.
  intros Hr Hs. unfold _build_signature.
  destruct (utf8_error _) as [message|] eqn:E; [eauto|].
  apply utf8_error_none in E.
  apply (encodable_signature_base api rand method items Hr) in E.
  contradiction.
Qed.

Lemma signable_dec api method items :
  signable api method items \/ ~ signable api method items.
Proof.
  destruct (encodable_dec (signature_base api [] method items)) as [H|H];
    [left|right]; rewrite <- (encodable_signature_base api [] method items);
    try exact H; constructor.
Qed.

Lemma sendable_dec api method time params :
  sendable api method time params \/ ~ sendable api method time params.
Proof.
  unfold sendable.
  destruct (signable_dec api method (stringified api time params)) as [H|H];
    [|tauto].
  destruct (url_error (api_url api ++ lit "/" ++ method));
    [right; intros [_ E]; discriminate E|left; auto].
Qed.

(** A request that can be made is sent: the next exchange answers it. *)
Lemma request_sendable api method params w x rest :
  script w = x :: rest -> sendable api method (now w) params ->
  request api method params w
  = Some (match answer x with
          | Failure message => Raise (PolygonAPIError (JStr message))
          | Reply data => check_status data
          end,
          {| now := now w + latency x; script := rest;
             sent := sent w
                     ++ [ {| url := api_url api ++ lit "/" ++ method;
                             form := signed_form api (rand_of x) method
                                       (now w) params |} ] |}).
Proof.
  intros Hs [Hsign Hurl]. unfold request, signed_params. rewrite Hs.
  rewrite (build_signature_signable _ _ _ _ (encodable_rand x) Hsign).
  rewrite Hurl. unfold signed_form. destruct (answer x); reflexivity.
Qed.

(** A request that cannot be made raises, and the world stays as it is. *)
Lemma request_unsendable api method params w x rest :
  script w = x :: rest -> ~ sendable api method (now w) params ->
  exists e, request api method params w = Some (Raise e, w).
Proof.
  intros Hs Hn. unfold request, signed_params. rewrite Hs.
  destruct (signable_dec api method (stringified api (now w) params))
    as [Hsign|Hsign].
  - rewrite (build_signature_signable _ _ _ _ (encodable_rand x) Hsign).
    destruct (url_error _) as [message|] eqn:Eurl; [eauto|].
    contradiction Hn. split; assumption.
  - destruct (build_signature_unsignable _ _ _ _ (encodable_rand x) Hsign)
      as [message ->].
    eauto.
Qed.

Lemma request_unsent api method params w r w' :
  request api method params w = Some (r, w') -> sent w' = sent w ->
  w' = w /\ (exists e, r = Raise e)
  /\ ~ sendable api method (now w) params.
Proof.
  intros H Hsent.
  assert (Hgrow : forall c : call, sent w ++ [c] <> sent w).
  { intros c E. apply (f_equal (@length call)) in E.
    rewrite length_app in E. cbn [length] in E. lia. }
  destruct (request_cases _ _ _ _ _ _ H) as [[-> Hr]|(x & rest & Hs & -> & _)].
  - split; [reflexivity|].
    split; [destruct Hr as [[m ->]|(m & _ & ->)]; eauto|].
    intros Hsend. destruct (script w) as [|x rest] eqn:E.
    + unfold request in H. rewrite E in H. discriminate H.
    + rewrite (request_sendable _ _ _ _ _ _ E Hsend) in H.
      injection H as _ Hw. apply (f_equal sent) in Hw. cbn [sent] in Hw.
      now apply Hgrow in Hw.
  - cbn [sent] in Hsent. now apply Hgrow in Hsent.
Qed.

End Signing.

(** C1. The signature is the nonce followed by the SHA-512 hex digest of
    [nonce/method?query#secret], where the query joins, with [&] between
    one and the next, the [name=value] of the parameters in their sorted
    arrangement under the order of pairs of texts, by name, then by value;
    there is one such arrangement and one such query, so the signature does
    not depend on the order the parameters were given in.  A base with a
    surrogate code point has no UTF-8 encoding: the signer raises
    [UnicodeEncodeError] for it.  Booleans are rendered [true] and [false].
    In a request the nonce is six characters of [0123456789abcdef], and the
    parameters signed are all those sent but the signature, which is added
    after. *)
Theorem build_signature_spec {rt : Runtime} (self : PolygonAPI)
    (rand method : str) (params : list (str * str)) :
  (exists items, Permutation params items /\ StronglySorted pair_le items)
  /\ (forall items,
        exists query,
          amp_joined items query
          /\ forall query', amp_joined items query' -> query' = query)
  /\ (forall items query,
        Permutation params items -> StronglySorted pair_le items ->
        amp_joined items query ->
        let base :=
          rand ++ lit "/" ++ method ++ lit "?" ++ query ++ lit "#"
               ++ api_secret self in
        (encodable base ->
         _build_signature self rand method params
         = Ok (rand ++ sha512_hex base))
        /\ (~ encodable base ->
            exists message,
              _build_signature self rand method params
              = Raise (UnicodeEncodeError message)))
  /\ (forall params',
        Permutation params params' ->
        _build_signature self rand method params'
        = _build_signature self rand method params)
  /\ _stringify_value (VBool true) = lit "true"
  /\ _stringify_value (VBool false) = lit "false"
  /\ (forall x,
        length (rand_of x) = 6%nat
        /\ Forall (fun c => In c (lit "0123456789abcdef")) (rand_of x))
  /\ (forall raw time,
        let signed :=
          map (fun kv => (fst kv, _stringify_value (snd kv)))
              (dict_set (lit "time") (VStr (str_of_int time))
                 (dict_set (lit "apiKey") (VStr (api_key self)) raw)) in
        dict_get (lit "apiSig") raw = None ->
        signed_params self rand method time raw
        = match _build_signature self rand method signed with
          | Ok signature => Ok (signed ++ [(lit "apiSig", signature)])
          | Raise e => Raise e
          end).
Proof.
  split; [|split; [|split; [|split; [|split; [|split; [|split]]]]]];
    try reflexivity.
  - exists (sorted params). split; [apply sorted_perm|].
    apply pair_le_sorted, sorted_sorted.
  - intros items. exists (query_of items).
    split; [apply amp_joined_query|apply amp_joined_unique].
  - intros items query Hp Hs Hq base. apply pair_le_sorted in Hs.
    apply amp_joined_unique in Hq.
    assert (E : signature_base self rand method params = base).
    { unfold signature_base, base.
      now rewrite (sorted_of_perm _ _ Hp Hs), Hq. }
    unfold _build_signature. rewrite E. split; intros H.
    + apply utf8_error_none in H. now rewrite H.
    + destruct (utf8_error base) as [message|] eqn:Eb; [eauto|].
      apply utf8_error_none in Eb. contradiction.
  - intros params' Hp. unfold _build_signature, signature_base.
    rewrite (sorted_of_perm params' (sorted params));
      [reflexivity| |apply sorted_sorted].
    rewrite <- Hp. apply sorted_perm.
  - intros x. split; [apply hex_digits_length|apply hex_digits_in].
  - intros raw time signed Hraw. unfold signed_params, stringified.
    fold signed. destruct (_build_signature self rand method signed);
      [|reflexivity].
    f_equal. apply dict_set_new. unfold signed. rewrite dict_get_map.
    rewrite dict_get_set_other by reflexivity.
    rewrite dict_get_set_other by reflexivity.
    now rewrite Hraw.
Qed.

Example sorted_query_example :
  query_of (sorted [ (lit "time", lit "1700000000"); (lit "name", lit "b");
                     (lit "apiKey", lit "key"); (lit "Name", lit "x");
                     (lit "interactive", _bool false) ])
  = lit "Name=x&apiKey=key&interactive=false&name=b&time=1700000000".
Proof. vm_compute. reflexivity. Qed.

(** ** Polling *)

Lemma is_str_true (s : str) (j : option json) :
  is_str s j = true <-> j = Some (JStr s).
Proof.
  unfold is_str. destruct j as [[ | b | z | s' | l | d ]|]; split;
    try discriminate.
  - intros H. apply str_eqb_eq in H. now subst.
  - intros H. injection H as ->. apply str_eqb_refl.
Qed.

Lemma is_str_false (s : str) (j : option json) :
  j <> Some (JStr s) -> is_str s j = false.
Proof.
  intros H. destruct (is_str s j) eqn:E; [|reflexivity].
  apply is_str_true in E. contradiction.
Qed.

Lemma latest_from_spec (rest : list json) (best : json) (key : Z)
    (latest : json) :
  creation_time best = Some key ->
  latest_from best key rest = Some latest ->
  exists key',
    creation_time latest = Some key'
    /\ (key <= key')%Z
    /\ In latest (best :: rest)
    /\ forall p t, In p rest -> creation_time p = Some t -> (t <= key')%Z.
Proof.
  revert best key. induction rest as [|p rest IH]; intros best key Hb H;
    simpl in H.
  - injection H as <-. exists key. repeat split; [exact Hb|lia|now left|].
    intros p t [].
  - destruct (creation_time p) as [k|] eqn:Ep; [|discriminate].
    destruct (Z.ltb key k) eqn:Elt.
    + apply Z.ltb_lt in Elt.
      destruct (IH _ _ Ep H) as (key' & Hk & Hle & Hin & Hmax).
      exists key'. repeat split; [exact Hk|lia| |].
      * destruct Hin as [<-|Hin]; [right; now left|right; now right].
      * intros q t [<-|Hq] Hq'; [|now apply (Hmax q)]. congruence.
    + apply Z.ltb_ge in Elt.
      destruct (IH _ _ Hb H) as (key' & Hk & Hle & Hin & Hmax).
      exists key'. repeat split; [exact Hk|lia| |].
      * destruct Hin as [<-|Hin]; [now left|right; now right].
      * intros q t [<-|Hq] Hq'; [|now apply (Hmax q)].
        assert (t = k) by congruence. lia.
Qed.

(** [latest_package] picks a package created no earlier than any other. *)
Lemma latest_package_spec (items : list json) (latest : json) :
  latest_package items = Some latest ->
  In latest items
  /\ exists key,
       creation_time latest = Some key
       /\ forall p t, In p items -> creation_time p = Some t -> (t <= key)%Z.
Proof.
  destruct items as [|p rest]; [discriminate|]. simpl.
  destruct (creation_time p) as [k|] eqn:Ep; [|discriminate]. intros H.
  destruct (latest_from_spec _ _ _ _ Ep H) as (key & Hk & Hle & Hin & Hmax).
  split; [exact Hin|]. exists key. split; [exact Hk|].
  intros q t [<-|Hq] Hq'; [|now apply (Hmax q)].
  assert (t = k) by congruence. lia.
Qed.

Section Polling.
Context {rt : Runtime}.

Variable api : PolygonAPI.
Variable problem_id : Z.

(** The poll can be made when the client is ready, and only then. *)
Lemma poll_sendable time :
  sendable api packages_method time [(lit "problemId", VInt problem_id)]
  <-> client_ready api packages_method.
Proof.
  unfold sendable, signable, client_ready.
  change (stringified api time [(lit "problemId", VInt problem_id)])
    with [ (lit "problemId", str_of_int problem_id);
           (lit "apiKey", api_key api); (lit "time", str_of_int time) ].
  split.
  - intros [(_ & Hs & Hitems) Hurl].
    inversion Hitems as [|? ? _ Hrest]; subst.
    inversion Hrest as [|? ? [_ Hk] _]; subst. auto.
  - intros (Hk & Hs & Hurl). split; [|exact Hurl].
    split; [apply encodable_ascii|]. split; [exact Hs|].
    repeat constructor; cbn [fst snd];
      try apply encodable_ascii; try apply encodable_str_of_int; exact Hk.
Qed.

(** Without a ready client the wait ends at its first poll, with the error
    of the request that could not be made. *)
Lemma wait_unready timeout w x rest :
  ~ client_ready api packages_method ->
  script w = x :: rest -> (now w < now w + timeout)%Z ->
  exists e, wait_for_package api problem_id timeout w = Some (Raise e, w).
Proof.
  intros Hn Hs Ht. rewrite <- (poll_sendable (now w)) in Hn.
  destruct (request_unsendable _ _ _ _ _ _ Hs Hn) as [e He].
  exists e.
  change (wait_for_package api problem_id timeout w)
    with (wait_rounds (S (length (script w))) api problem_id
            (now w + timeout) w).
  cbn [wait_rounds]. unfold bind at 1, _now. apply Z.ltb_lt in Ht.
  rewrite Ht. unfold bind at 1. now rewrite He.
Qed.

Lemma client_ready_dec :
  client_ready api packages_method \/ ~ client_ready api packages_method.
Proof.
  rewrite <- (poll_sendable 0). apply sendable_dec.
Qed.

Hypothesis Hready : client_ready api packages_method.

Lemma poll_request w x rest :
  script w = x :: rest ->
  request api packages_method [(lit "problemId", VInt problem_id)] w
  = Some (match answer x with
          | Failure message => Raise (PolygonAPIError (JStr message))
          | Reply data => check_status data
          end, after_poll api problem_id w x rest).
Proof.
  intros Hs. apply (request_sendable _ _ _ _ _ _ Hs).
  now apply poll_sendable.
Qed.

Lemma wait_rounds_timeout k deadline w :
  (deadline <= now w)%Z ->
  wait_rounds (S k) api problem_id deadline w
  = Some (Raise (build_timeout problem_id), w).
Proof.
  intros H. simpl. unfold bind, _now.
  destruct (Z.ltb (now w) deadline) eqn:E; [apply Z.ltb_lt in E; lia|].
  reflexivity.
Qed.

Lemma wait_rounds_refused k deadline w x rest :
  script w = x :: rest -> (now w < deadline)%Z -> refused x ->
  exists e,
    wait_rounds (S k) api problem_id deadline w
    = Some (Raise e, after_poll api problem_id w x rest).
Proof.
  intros Hs Ht Hx. apply Z.ltb_lt in Ht. simpl. unfold bind at 1, _now.
  rewrite Ht. unfold bind at 1. rewrite (poll_request _ _ _ Hs).
  destruct Hx as [(m & ->)|(data & e & -> & ->)]; eauto.
Qed.

Lemma wait_rounds_pending k deadline w x rest :
  script w = x :: rest -> (now w < deadline)%Z -> pending x ->
  wait_rounds (S k) api problem_id deadline w
  = wait_rounds k api problem_id deadline
      {| now := now w + latency x + 2; script := rest;
         sent := sent w ++ [poll_call api problem_id (now w) x] |}.
Proof.
  intros Hs Ht Hx. apply Z.ltb_lt in Ht. simpl. unfold bind at 1, _now.
  rewrite Ht. unfold bind at 1. rewrite (poll_request _ _ _ Hs).
  destruct Hx as [(packages & (data & -> & ->) & Hp)
                 |(state & (items & latest & (data & -> & ->) & Hl & Hst)
                   & Hr & Hf)].
  - rewrite Hp. reflexivity.
  - assert (Hitems : truthy (JList items) = true)
      by (destruct items; [discriminate Hl|reflexivity]).
    rewrite Hitems. cbn [negb]. cbv iota.
    unfold bind at 1. rewrite Hl. cbn [covered ret]. rewrite Hst.
    rewrite (is_str_false _ _ Hr), (is_str_false _ _ Hf). reflexivity.
Qed.

Lemma wait_rounds_latest k deadline w x rest state :
  script w = x :: rest -> (now w < deadline)%Z -> latest_state x state ->
  wait_rounds (S k) api problem_id deadline w
  = (if is_str (lit "READY") state then ret tt
     else if is_str (lit "FAILED") state then raise (build_failed problem_id)
     else sleep 2 ;;; wait_rounds k api problem_id deadline)
      (after_poll api problem_id w x rest).
Proof.
  intros Hs Ht (items & latest & (data & Ha & Hc) & Hl & Hst).
  apply Z.ltb_lt in Ht. simpl. unfold bind at 1, _now.
  rewrite Ht. unfold bind at 1. rewrite (poll_request _ _ _ Hs), Ha, Hc.
  assert (Hitems : truthy (JList items) = true)
    by (destruct items; [discriminate Hl|reflexivity]).
  rewrite Hitems. cbn [negb]. cbv iota.
  unfold bind at 1. rewrite Hl. cbn [covered ret]. now rewrite Hst.
Qed.

(** The polls that find the build pending, one after the other. *)
Lemma wait_rounds_pendings xs : forall k deadline w rest,
  script w = xs ++ rest -> Forall pending xs ->
  in_time (now w) deadline xs ->
  wait_rounds (length xs + k) api problem_id deadline w
  = wait_rounds k api problem_id deadline
      {| now := clock_after (now w) xs; script := rest;
         sent := sent w ++ poll_calls api problem_id (now w) xs |}.
Proof.
  induction xs as [|x xs IH]; intros k deadline w rest Hs Hp Ht.
  - simpl in *. rewrite app_nil_r. destruct w; simpl in *. now subst.
  - inversion Hp as [|? ? Hx Hxs]; subst. destruct Ht as [Ht Hts].
    change (length (x :: xs) + k)%nat with (S (length xs + k)).
    rewrite (wait_rounds_pending _ _ _ _ _ Hs Ht Hx).
    rewrite (IH k deadline _ rest); [|reflexivity|exact Hxs|exact Hts].
    simpl. now rewrite <- app_assoc.
Qed.

Lemma in_time_app t deadline xs ys :
  in_time t deadline (xs ++ ys)
  <-> in_time t deadline xs /\ in_time (clock_after t xs) deadline ys.
Proof.
  revert t. induction xs as [|x xs IH]; intros t; simpl; [tauto|].
  rewrite IH. tauto.
Qed.

Lemma poll_calls_app t xs ys :
  poll_calls api problem_id t (xs ++ ys)
  = poll_calls api problem_id t xs
    ++ poll_calls api problem_id (clock_after t xs) ys.
Proof.
  revert t. induction xs as [|x xs IH]; intros t; simpl; [reflexivity|].
  now rewrite IH.
Qed.

Lemma poll_calls_length t xs :
  length (poll_calls api problem_id t xs) = length xs.
Proof.
  revert t. induction xs as [|x xs IH]; intros t; simpl; [reflexivity|].
  now rewrite IH.
Qed.

(** With exchanges enough to reach the deadline, the loop ends, after at
    most one poll for every two seconds of the time left. *)
Lemma wait_rounds_ends xs : forall k deadline w,
  script w = xs -> Forall well_behaved xs ->
  (deadline - now w <= 2 * Z.of_nat (length xs))%Z ->
  (length xs < k)%nat ->
  exists r w',
    wait_rounds k api problem_id deadline w = Some (r, w')
    /\ exists polled,
         sent w' = sent w ++ polled
         /\ (2 * Z.of_nat (length polled)
             < Z.max 0 (deadline - now w) + 2)%Z.
Proof.
  induction xs as [|x xs IH]; intros k deadline w Hs Hall Hd Hk.
  - destruct k as [|k]; [lia|]. simpl in Hd.
    rewrite wait_rounds_timeout by lia.
    eexists _, _. split; [reflexivity|]. exists []. rewrite app_nil_r.
    split; [reflexivity|]. cbn [length]. lia.
  - destruct k as [|k]; [lia|].
    destruct (Z.le_gt_cases deadline (now w)) as [Hlate|Hearly].
    { rewrite wait_rounds_timeout by lia.
      eexists _, _. split; [reflexivity|]. exists []. rewrite app_nil_r.
      split; [reflexivity|]. cbn [length]. lia. }
    inversion Hall as [|? ? [Hlat Hx] Hxs]; subst.
    assert (Hone : (2 * Z.of_nat (length [poll_call api problem_id (now w) x])
                    < Z.max 0 (deadline - now w) + 2)%Z)
      by (cbn [length]; lia).
    assert (Hgo : pending x ->
              exists r w',
                wait_rounds (S k) api problem_id deadline w = Some (r, w')
                /\ exists polled,
                     sent w' = sent w ++ polled
                     /\ (2 * Z.of_nat (length polled)
                         < Z.max 0 (deadline - now w) + 2)%Z).
    { intros Hp. rewrite (wait_rounds_pending _ _ _ _ _ Hs Hearly Hp).
      destruct (IH k deadline
                  {| now := now w + latency x + 2; script := xs;
                     sent := sent w ++ [poll_call api problem_id (now w) x] |})
        as (r & w' & Hr & polled & Hsent & Hn).
      - reflexivity.
      - exact Hxs.
      - cbn [now]. cbn [length] in Hd. lia.
      - cbn [length] in Hk. lia.
      - exists r, w'. split; [exact Hr|].
        exists (poll_call api problem_id (now w) x :: polled).
        cbn [now sent] in Hsent, Hn.
        split; [rewrite Hsent, <- app_assoc; reflexivity|].
        cbn [length]. lia. }
    destruct Hx as [Hp|[Hr|[Hf|Hx]]].
    + exact (Hgo Hp).
    + rewrite (wait_rounds_latest _ _ _ _ _ _ Hs Hearly Hr).
      eexists _, _. split; [reflexivity|]. eexists. split;
        [reflexivity|exact Hone].
    + rewrite (wait_rounds_latest _ _ _ _ _ _ Hs Hearly Hf).
      eexists _, _. split; [reflexivity|]. eexists. split;
        [reflexivity|exact Hone].
    + destruct (wait_rounds_refused k _ _ _ _ Hs Hearly Hx) as [e He].
      rewrite He. eexists _, _. split; [reflexivity|]. eexists. split;
        [reflexivity|exact Hone].
Qed.

Lemma wait_for_package_rounds timeout w :
  wait_for_package api problem_id timeout w
  = wait_rounds (S (length (script w))) api problem_id (now w + timeout) w.
Proof. reflexivity. Qed.

Lemma wait_for_package_timeout timeout w xs rest :
  script w = xs ++ rest -> Forall pending xs ->
  in_time (now w) (now w + timeout) xs ->
  (now w + timeout <= clock_after (now w) xs)%Z ->
  wait_for_package api problem_id timeout w
  = Some (Raise (build_timeout problem_id),
          {| now := clock_after (now w) xs; script := rest;
             sent := sent w ++ poll_calls api problem_id (now w) xs |}).
Proof.
  intros Hs Hp Ht Hd. rewrite wait_for_package_rounds, Hs, length_app.
  rewrite <- Nat.add_succ_r.
  rewrite (wait_rounds_pendings xs _ _ w rest Hs Hp Ht).
  now apply wait_rounds_timeout.
Qed.

Lemma wait_for_package_latest timeout w xs x rest state :
  script w = xs ++ x :: rest -> Forall pending xs ->
  in_time (now w) (now w + timeout) (xs ++ [x]) ->
  latest_state x state ->
  wait_for_package api problem_id timeout w
  = (if is_str (lit "READY") state then ret tt
     else if is_str (lit "FAILED") state then raise (build_failed problem_id)
     else sleep 2 ;;;
          wait_rounds (S (length rest)) api problem_id (now w + timeout))
      {| now := clock_after (now w) xs + latency x; script := rest;
         sent := sent w ++ poll_calls api problem_id (now w) (xs ++ [x]) |}.
Proof.
  intros Hs Hp Ht Hx. apply in_time_app in Ht. destruct Ht as [Ht [Hlast _]].
  rewrite wait_for_package_rounds, Hs, length_app.
  rewrite <- Nat.add_succ_r.
  rewrite (wait_rounds_pendings xs _ _ w (x :: rest) Hs Hp Ht).
  cbn [length].
  rewrite (wait_rounds_latest (S (length rest)) (now w + timeout)
             {| now := clock_after (now w) xs; script := x :: rest;
                sent := sent w ++ poll_calls api problem_id (now w) xs |}
             x rest state eq_refl Hlast Hx).
  unfold after_poll. cbn [now script sent].
  rewrite poll_calls_app, <- app_assoc. reflexivity.
Qed.

Lemma wait_for_package_refused timeout w xs x rest :
  script w = xs ++ x :: rest -> Forall pending xs ->
  in_time (now w) (now w + timeout) (xs ++ [x]) ->
  refused x ->
  exists e,
    wait_for_package api problem_id timeout w
    = Some (Raise e,
            {| now := clock_after (now w) xs + latency x; script := rest;
               sent := sent w
                       ++ poll_calls api problem_id (now w) (xs ++ [x]) |}).
Proof.
  intros Hs Hp Ht Hx. apply in_time_app in Ht. destruct Ht as [Ht [Hlast _]].
  rewrite wait_for_package_rounds, Hs, length_app.
  rewrite <- Nat.add_succ_r.
  rewrite (wait_rounds_pendings xs _ _ w (x :: rest) Hs Hp Ht).
  cbn [length].
  destruct (wait_rounds_refused (S (length rest)) (now w + timeout)
              {| now := clock_after (now w) xs; script := x :: rest;
                 sent := sent w ++ poll_calls api problem_id (now w) xs |}
              x rest eq_refl Hlast Hx) as [e He].
  exists e. rewrite He. unfold after_poll. cbn [now script sent].
  rewrite poll_calls_app, <- app_assoc. reflexivity.
Qed.

End Polling.

(** C5. [wait_for_package] fixes its deadline [timeout] seconds (300 by
    default) after its start and polls [problem.packages]; after a poll that
    finds no package, or a latest package that is neither READY nor FAILED,
    it sleeps 2 seconds and polls again.  It returns at once when the most
    recently created package is READY, raises the build-failed error naming
    the problem at once when it is FAILED, and raises the timeout error
    naming the problem when the deadline is reached; an error of the request
    is passed on.  With exchanges that take no negative time the wait ends,
    after at most one poll per two seconds of the timeout.  The polls are
    sent by a client that is ready: its key and secret can be encoded and
    its URL has a scheme; with any other client the first poll raises
    before anything is sent. *)
Theorem wait_for_package_polls {rt : Runtime} (api : PolygonAPI)
    (problem_id timeout : Z) (w : world) :
  let deadline := (now w + timeout)%Z in
  (client_ready api packages_method ->
   forall xs rest,
      script w = xs ++ rest -> Forall pending xs ->
      in_time (now w) deadline xs ->
      (deadline <= clock_after (now w) xs)%Z ->
      wait_for_package api problem_id timeout w
      = Some (Raise (build_timeout problem_id),
              {| now := clock_after (now w) xs; script := rest;
                 sent := sent w ++ poll_calls api problem_id (now w) xs |}))
  /\ (client_ready api packages_method ->
      forall xs x rest,
        script w = xs ++ x :: rest -> Forall pending xs ->
        in_time (now w) deadline (xs ++ [x]) ->
        let w' := {| now := clock_after (now w) xs + latency x;
                     script := rest;
                     sent := sent w ++ poll_calls api problem_id (now w)
                                         (xs ++ [x]) |} in
        (ready x ->
         wait_for_package api problem_id timeout w = Some (Ok tt, w'))
        /\ (failed x ->
            wait_for_package api problem_id timeout w
            = Some (Raise (build_failed problem_id), w'))
        /\ (refused x ->
            exists e,
              wait_for_package api problem_id timeout w
              = Some (Raise e, w')))
  /\ (Forall well_behaved (script w) ->
      (timeout <= 2 * Z.of_nat (length (script w)))%Z ->
      exists r w' polled,
        wait_for_package api problem_id timeout w = Some (r, w')
        /\ sent w' = sent w ++ polled
        /\ (2 * Z.of_nat (length polled) < Z.max 0 timeout + 2)%Z)
  /\ (forall items latest,
        latest_package items = Some latest ->
        In latest items
        /\ exists key,
             creation_time latest = Some key
             /\ forall p t,
                  In p items -> creation_time p = Some t -> (t <= key)%Z)
  /\ build_failed problem_id
     = PolygonAPIError (JStr (lit "Package build failed for problem "
                              ++ str_of_int problem_id))
  /\ build_timeout problem_id
     = PolygonAPIError
         (JStr (lit "Timeout while waiting for package build for problem "
                ++ str_of_int problem_id))
  /\ default_timeout = 300%Z
  /\ (~ client_ready api packages_method ->
      forall x rest,
        script w = x :: rest -> (now w < deadline)%Z ->
        exists e,
          wait_for_package api problem_id timeout w = Some (Raise e, w)).
Proof.
  cbv zeta.
  split; [|split; [|split; [|split; [|split; [|split; [|split]]]]]];
    try reflexivity.
  - intros Hready xs rest. now apply wait_for_package_timeout.
  - intros Hready xs x rest Hs Hp Ht. split; [|split].
    + intros Hx.
      rewrite (wait_for_package_latest api problem_id Hready timeout w xs x
                 rest _ Hs Hp Ht Hx).
      reflexivity.
    + intros Hx.
      rewrite (wait_for_package_latest api problem_id Hready timeout w xs x
                 rest _ Hs Hp Ht Hx).
      reflexivity.
    + now apply wait_for_package_refused.
  - intros Hall Hlen.
    destruct (client_ready_dec api problem_id) as [Hready|Hunready].
    + destruct (wait_rounds_ends api problem_id Hready (script w)
                  (S (length (script w))) (now w + timeout)%Z w eq_refl Hall)
        as (r & w' & Hr & polled & Hsent & Hn); [lia|lia|].
      exists r, w', polled. rewrite wait_for_package_rounds.
      split; [exact Hr|]. split; [exact Hsent|].
      replace (now w + timeout - now w)%Z with timeout in Hn by lia.
      exact Hn.
    + assert (Hnone : (2 * Z.of_nat (length (@nil call))
                       < Z.max 0 timeout + 2)%Z) by (cbn [length]; lia).
      destruct (Z.le_gt_cases timeout 0) as [Hlate|Hearly].
      * exists (Raise (build_timeout problem_id)), w, [].
        rewrite wait_for_package_rounds, app_nil_r.
        split; [apply wait_rounds_timeout; lia|]. split; [reflexivity|].
        exact Hnone.
      * destruct (script w) as [|x rest] eqn:Hs; [cbn [length] in Hlen; lia|].
        destruct (wait_unready api problem_id timeout w x rest Hunready Hs)
          as [e He]; [lia|].
        exists (Raise e), w, []. rewrite app_nil_r.
        split; [exact He|]. split; [reflexivity|exact Hnone].
  - apply latest_package_spec.
  - intros Hunready x rest Hs Ht.
    now apply (wait_unready api problem_id timeout w x rest).
Qed.

Lemma sample_client_ready (method : String.string) :
  @url_error basic_runtime (api_url Sample.api ++ lit "/" ++ lit method)
  = None ->
  client_ready (rt := basic_runtime) Sample.api (lit method).
Proof.
  intros H. split; [apply encodable_ascii|]. split; [apply encodable_ascii|].
  exact H.
Qed.

(** Two polls find the build pending, the third finds it ready. *)
Lemma wait_for_package_polls_witness :
  wait_for_package (rt := basic_runtime) Sample.api 77 default_timeout
    (Sample.waiting_world
       [Sample.poll JNull; Sample.poll Sample.building;
        Sample.poll Sample.built; Sample.poll JNull])
  = Some (Ok tt,
          {| now := 1007; script := [Sample.poll JNull];
             sent := poll_calls (rt := basic_runtime) Sample.api 77 1000
                       [Sample.poll JNull; Sample.poll Sample.building;
                        Sample.poll Sample.built] |}).
Proof.
  pose proof (wait_for_package_polls (rt := basic_runtime) Sample.api 77
                default_timeout
                (Sample.waiting_world
                   [Sample.poll JNull; Sample.poll Sample.building;
                    Sample.poll Sample.built; Sample.poll JNull])) as H.
  cbv zeta in H. destruct H as (_ & H & _).
  specialize (H (sample_client_ready "problem.packages" eq_refl)
                [Sample.poll JNull; Sample.poll Sample.building]
                (Sample.poll Sample.built) [Sample.poll JNull] eq_refl).
  assert (Hpending : Forall pending
                       [Sample.poll JNull; Sample.poll Sample.building]).
  { constructor; [|constructor; [|constructor]].
    - left. exists JNull. split; [|reflexivity].
      eexists. split; reflexivity.
    - right. exists (Some (JStr (lit "RUNNING"))).
      split; [|split; discriminate].
      exists [Sample.package 5 "READY"; Sample.package 9 "RUNNING"],
             (Sample.package 9 "RUNNING").
      split; [eexists; split; reflexivity|]. split; reflexivity. }
  assert (Hready : ready (Sample.poll Sample.built)).
  { exists [Sample.package 5 "FAILED"; Sample.package 9 "READY";
            Sample.package 9 "FAILED"],
           (Sample.package 9 "READY").
    split; [eexists; split; reflexivity|]. split; reflexivity. }
  assert (Htime : in_time (now (Sample.waiting_world []))
                    (now (Sample.waiting_world []) + default_timeout)
                    ([Sample.poll JNull; Sample.poll Sample.building]
                     ++ [Sample.poll Sample.built])).
  { vm_compute. repeat split. }
  exact (proj1 (H Hpending Htime) Hready).
Defined.

Example wait_failed_build :
  wait_for_package (rt := basic_runtime) Sample.api 77 default_timeout
    (Sample.waiting_world [Sample.poll (JList []); Sample.poll Sample.broken])
  = Some (Raise (build_failed 77),
          {| now := 1004; script := [];
             sent := poll_calls (rt := basic_runtime) Sample.api 77 1000
                       [Sample.poll (JList []); Sample.poll Sample.broken] |}).
Proof. vm_compute. reflexivity. Qed.

Example wait_times_out :
  match wait_for_package (rt := basic_runtime) Sample.api 77 default_timeout
          (Sample.waiting_world (repeat (Sample.poll Sample.building) 120))
  with
  | Some (r, w') =>
      r = Raise (build_timeout 77) /\ now w' = 1300%Z
      /\ length (sent w') = 100%nat /\ length (script w') = 20%nat
  | None => False
  end.
Proof. vm_compute. repeat split. Qed.

Example sha512_vectors :
  Sha512.hexdigest [] =
    lit "cf83e1357eefb8bdf1542850d66d8007d620e4050b5715dc83f4a921d36ce9ce47d0d13c5d85f2b0ff8318d2877eec2f63b931bd47417a81a538327af927da3e"
  /\ Sha512.hexdigest (lit "abc") =
    lit "ddaf35a193617abacc417349ae20413112e6fa4e89a97ea20a9eeee64b55d39a2192992a274fc1a836ba3c23a3feebbd454d4423643ce80e2a9ac94fa54ca49f"
  /\ Sha512.hexdigest
       (no_input_placeholder ++ no_input_placeholder ++ no_input_placeholder
        ++ no_input_placeholder ++ no_input_placeholder
        ++ [0x20AC; 0x1F600]%N) =
    lit "c96ce759c81159e3e0c3c5e0ad728a0ff0c6605cfc7be6a4c878b06d5e43ddab8c25d4afd9a2d3d79f5147f4032060aa212fa87a6029c6769fe34fcc070d1b8f".
Proof. repeat split; vm_compute; reflexivity. Qed.

(** The first request of the sample run, as signed. *)
Example signed_request_example :
  nth_error (sent Sample.final_world) 0
  = Some {| url := lit "https://polygon.codeforces.com/api/problem.create";
            form :=
              [ (lit "name", lit "week3-01"); (lit "apiKey", lit "key");
                (lit "time", lit "1000");
                (lit "apiSig",
                 lit "0a1b2ccfd3bd7afb1a0e7511014bc0b78b1cb4ec4bf395a803bd4f5d78a51478aefa31624c3da0d48a0e9948bb9a8a345afd6b2a42a07db346c3e2c7ed0cdee4a004a3") ] |}.
Proof. vm_compute. reflexivity. Qed.

(** ** Plain text *)

Lemma char_eqb_neq (a b : char) : a <> b -> char_eqb a b = false.
Proof. intros H. unfold char_eqb. now apply N.eqb_neq. Qed.

Lemma strip_prefix_absent (c0 : char) (old s : str) :
  ~ In c0 s -> strip_prefix (c0 :: old) s = None.
Proof.
  destruct s as [|c s]; [reflexivity|]. intros H.
  change (strip_prefix (c0 :: old) (c :: s))
    with (if char_eqb c0 c then strip_prefix old s else None).
  rewrite char_eqb_neq; [reflexivity|]. intros ->. apply H. now left.
Qed.

Lemma cut_absent (c0 : char) (old s : str) :
  ~ In c0 s -> cut (c0 :: old) s = None.
Proof.
  induction s as [|c s IH]; intros H.
  - reflexivity.
  - cbn [cut]. rewrite strip_prefix_absent by exact H.
    rewrite IH; [reflexivity|]. intros Hin. apply H. now right.
Qed.




Lemma strip_prefix_lt (p : str) (c : char) (t : str) :
  c <> 0x3C%N -> strip_prefix (0x3C%N :: p) (c :: t) = None.
Proof.
  intros H.
  change (strip_prefix (0x3C%N :: p) (c :: t))
    with (if char_eqb 0x3C c then strip_prefix p t else None).
  rewrite char_eqb_neq; [reflexivity|]. intros E. apply H. now symmetry.
Qed.








(** ** The whole workflow on the sample task *)

Example workflow_calls :
  create_polygon_problem (rt := basic_runtime) Sample.api (lit "week3-01")
    Sample.task Sample.world0 = Some (Ok 77%Z, Sample.final_world)
  /\ map url (sent Sample.final_world)
     = map (fun method => lit "https://polygon.codeforces.com/api/" ++ lit method)
           [ "problem.create"; "problem.updateInfo"; "problem.saveStatement";
             "problem.setChecker"; "problem.saveSolution"; "problem.saveTest";
             "problem.commitChanges"; "problem.buildPackage";
             "problem.packages" ]%string
  /\ script Sample.final_world = []
  /\ now Sample.final_world = 1009%Z.
Proof. repeat split; vm_compute; reflexivity. Qed.

Example strip_redundant_title_examples :
  map (fun legend => _strip_redundant_title (rt := basic_runtime) legend
                       (lit "Sum  Two Numbers"))
      [ Sample.lines ["sum two numbers"; ""; "Compute a+b."]%string;
        Sample.lines ["Compute a+b."; ""; "Sum two numbers"]%string;
        lit "SUM TWO NUMBERS"; [] ]
  = [ lit "Compute a+b.";
      Sample.lines ["Compute a+b."; ""; "Sum two numbers"]%string; []; [] ].
Proof. vm_compute. reflexivity. Qed.

(* ================================================================= *)
(** * Further properties *)
(* ================================================================= *)

(** ** What the classifier keeps *)

Section Buffers.
Context {rt : Runtime}.

Lemma buffered_append line st :
  Permutation (buffered (append_line line st)) (buffered st ++ [line]).
Proof.
  unfold buffered, append_line. destruct st as [[] l i o]; simpl.
  - rewrite <- !app_assoc. apply Permutation_app_head. simpl.
    rewrite Permutation_middle. apply Permutation_app_head.
    apply Permutation_cons_append.
  - rewrite <- !app_assoc. apply Permutation_app_head.
    apply Permutation_app_head. simpl. apply Permutation_cons_append.
  - now rewrite !app_assoc.
Qed.

Lemma buffered_scan_from st lines :
  Permutation (buffered (scan_from st lines))
              (buffered st ++ filter is_plain lines).
Proof.
  revert st. induction lines as [|line rest IH]; intros st.
  - simpl. now rewrite app_nil_r.
  - unfold scan_from in *. simpl. rewrite IH. unfold scan_line, is_plain.
    destruct (marker_of line) as [sec|].
    + destruct st; reflexivity.
    + rewrite buffered_append, <- app_assoc. reflexivity.
Qed.

(** A property of the plain lines holds of all the lines of the buffers. *)
Lemma buffered_all (P : str -> Prop) st lines :
  Forall P (buffered st) ->
  Forall P lines ->
  Forall P (buffered (scan_from st lines)).
Proof.
  intros Hst Hlines.
  assert (Hall : Forall P (buffered st ++ filter is_plain lines)).
  { apply Forall_app. split; [exact Hst|].
    rewrite Forall_forall in *. intros l Hl. apply filter_In in Hl.
    now apply Hlines. }
  rewrite Forall_forall in *. intros l Hl. apply Hall.
  eapply Permutation_in; [apply buffered_scan_from|exact Hl].
Qed.

End Buffers.

(** The three buffers of the scan hold, together, exactly the lines of the
    text that are no marker lines: none is lost, none is repeated, and no
    marker line is in a buffer. *)
Theorem scan_keeps_plain_lines {rt : Runtime} (html : str) :
  let lines := content_lines (markup_to_text html) in
  Permutation (buffered (scan lines)) (filter is_plain lines)
  /\ Forall (fun line => marker_of line = None) (buffered (scan lines))
  /\ length (legend_lines (scan lines)) + length (input_lines (scan lines))
     + length (output_lines (scan lines))
     = length (filter is_plain lines).
Proof.
  cbv zeta. set (lines := content_lines (markup_to_text html)).
  assert (Hp : Permutation (buffered (scan lines)) (filter is_plain lines))
    by exact (buffered_scan_from scan_start lines).
  split; [exact Hp|]. split.
  - apply Forall_forall. intros l Hl.
    apply (Permutation_in _ Hp), filter_In in Hl. destruct Hl as [_ Hl].
    unfold is_plain in Hl. destruct (marker_of l); [discriminate|reflexivity].
  - rewrite <- (Permutation_length Hp). unfold buffered.
    rewrite !length_app. lia.
Qed.

Example scan_keeps_plain_lines_example :
  buffered (scan (rt := basic_runtime)
              (content_lines (markup_to_text (rt := basic_runtime)
                                Sample.marked_body)))
  = [lit "Compute a+b."; lit "Both are small."; lit "Two integers.";
     lit "One line."; lit "Their sum."].
Proof. vm_compute. reflexivity. Qed.

Lemma placeholder_trimmed :
  trimmed no_input_placeholder /\ trimmed no_output_placeholder.
Proof.
  split; (split;
    [eexists _, _; split; reflexivity
    |match goal with
     | |- exists r c, ?s = r ++ [c] /\ _ =>
         exists (removelast s), (last s 0%N); split; reflexivity
     end]).
Qed.

Lemma trimmed_nonempty (s : str) : trimmed s -> s <> [].
Proof. intros [(c & r & -> & _) _]. discriminate. Qed.

(** The input and output formats are never empty, and none of the three
    texts begins or ends with whitespace: each is left unchanged by
    [strip]. *)
Theorem sections_are_trimmed {rt : Runtime} (html : str) :
  let sections := extract_text_sections html in
  trimmed (input_format_of sections)
  /\ trimmed (output_format_of sections)
  /\ (legend_of sections = [] \/ trimmed (legend_of sections))
  /\ input_format_of sections <> []
  /\ output_format_of sections <> []
  /\ strip (legend_of sections) = legend_of sections
  /\ strip (input_format_of sections) = input_format_of sections
  /\ strip (output_format_of sections) = output_format_of sections.
Proof.
  cbv zeta.
  set (lines := content_lines (markup_to_text html)).
  assert (Hall : Forall trimmed (buffered (scan lines))).
  { apply buffered_all; [constructor|apply content_lines_trimmed]. }
  unfold buffered in Hall. apply Forall_app in Hall. destruct Hall as [Hl Hio].
  apply Forall_app in Hio. destruct Hio as [Hi Ho].
  assert (Hin : trimmed (input_format_of (extract_text_sections html))).
  { unfold extract_text_sections, sections_of_text, sections_of_scan,
      input_format_of. cbn [fst snd]. fold lines.
    destruct (input_lines (scan lines)) as [|l ls] eqn:E;
      [apply placeholder_trimmed|].
    apply join_trimmed; [discriminate|exact Hi]. }
  assert (Hout : trimmed (output_format_of (extract_text_sections html))).
  { unfold extract_text_sections, sections_of_text, sections_of_scan,
      output_format_of. cbn [fst snd]. fold lines.
    destruct (output_lines (scan lines)) as [|l ls] eqn:E;
      [apply placeholder_trimmed|].
    apply join_trimmed; [discriminate|exact Ho]. }
  assert (Hleg : legend_of (extract_text_sections html) = []
                 \/ trimmed (legend_of (extract_text_sections html))).
  { rewrite legend_join_lines. fold lines.
    destruct (legend_lines (scan lines)) as [|l ls] eqn:E; [now left|].
    right. apply join_trimmed; [discriminate|exact Hl]. }
  split; [exact Hin|]. split; [exact Hout|]. split; [exact Hleg|].
  split; [exact (trimmed_nonempty _ Hin)|].
  split; [exact (trimmed_nonempty _ Hout)|].
  split; [|split; [exact (strip_of_trimmed _ Hin)
                  |exact (strip_of_trimmed _ Hout)]].
  destruct Hleg as [-> | H]; [reflexivity|exact (strip_of_trimmed _ H)].
Qed.

(** ** No tag is left in the plain text *)

Lemma to_tag_end_some (s rest : str) :
  to_tag_end s = Some rest -> exists inside, s = inside ++ gt_sign :: rest.
Proof.
  unfold to_tag_end.
  set (p := fun c => negb (char_eqb c 0x3E)).
  destruct (dropWhile_head p s) as [E|(c & r & E & Hc)]; rewrite E;
    [discriminate|].
  intros H. injection H as <-. exists (takeWhile p s).
  rewrite <- (take_drop_while p s) at 1. rewrite E. f_equal. f_equal.
  unfold p in Hc. apply negb_false_iff, N.eqb_eq in Hc. exact Hc.
Qed.

Lemma to_tag_end_none (s : str) :
  to_tag_end s = None <-> ~ In gt_sign s.
Proof.
  unfold to_tag_end. induction s as [|c s IH]; simpl.
  - split; [intros _ []|reflexivity].
  - destruct (char_eqb c 0x3E) eqn:E; simpl.
    + apply N.eqb_eq in E. subst c. split; [discriminate|].
      intros H. exfalso. apply H. now left.
    + apply N.eqb_neq in E. rewrite IH. split.
      * intros H [Hc|Hin]; [now apply E|now apply H].
      * intros H Hin. apply H. now right.
Qed.

Lemma re_tag_some (s rest : str) :
  re_tag s = Some rest -> exists matched, s = matched ++ rest /\ matched <> [].
Proof.
  unfold re_tag. destruct s as [|c s]; [discriminate|].
  change (strip_prefix (lit "<") (c :: s))
    with (if char_eqb 0x3C c then Some s else None).
  destruct (char_eqb 0x3C c); [|discriminate].
  destruct s as [|d r]; [discriminate|].
  destruct (char_eqb d 0x3E); [discriminate|]. intros H.
  apply to_tag_end_some in H. destruct H as (inside & ->).
  exists (c :: d :: inside ++ [gt_sign]). split; [|discriminate].
  simpl. now rewrite <- app_assoc.
Qed.

(** When the tag pattern fails at a [<], either nothing follows, or a [>]
    follows at once, or no [>] follows at all. *)
Lemma re_tag_lt (s : str) :
  re_tag (lt_sign :: s) = None
  <-> s = [] \/ (exists r, s = gt_sign :: r) \/ ~ In gt_sign s.
Proof.
  unfold re_tag.
  change (strip_prefix (lit "<") (lt_sign :: s)) with (Some s).
  destruct s as [|d r].
  - split; [now left|reflexivity].
  - destruct (char_eqb d 0x3E) eqn:E.
    + apply N.eqb_eq in E. subst d. split; [|reflexivity].
      intros _. right. left. now exists r.
    + apply N.eqb_neq in E. rewrite to_tag_end_none. split.
      * intros H. right. right. intros [Hd|Hin]; [now apply E|now apply H].
      * intros [H|[(r' & H)|H]]; [discriminate| |].
        -- injection H as -> _. now contradiction E.
        -- intros Hin. apply H. now right.
Qed.

Lemma re_tag_other (c : char) (s : str) :
  c <> lt_sign -> re_tag (c :: s) = None.
Proof.
  intros H. unfold re_tag. change (lit "<") with (lt_sign :: []).
  now rewrite strip_prefix_lt.
Qed.

Lemma re_sub_rounds_nil n m repl : re_sub_rounds n m repl [] = [].
Proof. destruct n; reflexivity. Qed.

(** Substitution by the empty text only deletes characters. *)
Lemma re_sub_deletes (m : str -> option str) :
  (forall t rest, m t = Some rest -> exists matched, t = matched ++ rest) ->
  forall n s x, In x (re_sub_rounds n m [] s) -> In x s.
Proof.
  intros Hm. induction n as [|n IH]; intros s x Hx; [exact Hx|].
  destruct s as [|c s]; [exact Hx|]. simpl in Hx.
  destruct (m (c :: s)) as [rest|] eqn:E.
  - apply Hm in E. destruct E as (matched & E). rewrite E.
    apply in_or_app. right. now apply IH.
  - destruct Hx as [->|Hx]; [now left|right; now apply IH].
Qed.

Lemma tag_free_cons (c : char) (s : str) :
  re_tag (c :: s) = None -> tag_free s -> tag_free (c :: s).
Proof.
  intros Hc Hs [|b before] after E; simpl in E.
  - now subst after.
  - injection E as _ E. exact (Hs _ _ E).
Qed.

Lemma re_sub_tag_free : forall n s,
  (length s <= n)%nat -> tag_free (re_sub_rounds n re_tag [] s).
Proof.
  induction n as [|n IH]; intros s Hlen.
  - destruct s; [|simpl in Hlen; lia].
    intros before after E. destruct before, after; try discriminate E.
    reflexivity.
  - destruct s as [|c s].
    + intros before after E. destruct before, after; try discriminate E.
      reflexivity.
    + simpl. simpl in Hlen. destruct (re_tag (c :: s)) as [rest|] eqn:E.
      * apply IH. apply re_tag_some in E.
        destruct E as (matched & E & Hne).
        apply (f_equal (@length _)) in E. rewrite length_app in E.
        simpl in E. destruct matched; [congruence|simpl in E; lia].
      * assert (Hs : tag_free (re_sub_rounds n re_tag [] s))
          by (apply IH; lia).
        apply tag_free_cons; [|exact Hs].
        destruct (N.eq_dec c lt_sign) as [->|Hc]; [|now apply re_tag_other].
        apply re_tag_lt. apply re_tag_lt in E.
        destruct E as [->|[(r & ->)|Hno]].
        -- left. apply re_sub_rounds_nil.
        -- right. left. destruct n as [|n]; [simpl in Hlen; lia|].
           cbn [re_sub_rounds].
           rewrite (re_tag_other gt_sign r) by (unfold gt_sign, lt_sign; lia).
           eauto.
        -- right. right. intros Hin. apply Hno.
           eapply re_sub_deletes; [|exact Hin].
           intros t rest Ht. apply re_tag_some in Ht.
           destruct Ht as (matched & Ht & _). eauto.
Qed.

(** The plain text the lines are read from holds no markup tag: at no place
    of it does the pattern [<[^>]+>] match, whatever the markup was and
    whatever the character references of the text decode to. *)
Theorem markup_to_text_tag_free {rt : Runtime} (html : str) :
  tag_free (markup_to_text html).
Proof.
  unfold markup_to_text, re_sub. apply re_sub_tag_free. lia.
Qed.

Example markup_to_text_example :
  markup_to_text (rt := basic_runtime)
    (lit "<<b>a><p>x <i>y</i> < z</p><>u<a href=q>v</a>")
  = lit "x y uv".
Proof. vm_compute. reflexivity. Qed.

(** ** Runs of a class of characters *)

Lemma sub_spaces_runs (b : bool) (s : str) :
  sub_spaces b s = sub_runs isspace space b s.
Proof.
  revert b. induction s as [|c s IH]; intros b; simpl; [reflexivity|].
  destruct (isspace c); [destruct b|]; now rewrite IH.
Qed.

Lemma sub_runs_head (p : char -> bool) (repl s : str) :
  sub_runs p repl true s = []
  \/ exists c r, sub_runs p repl true s = c :: r /\ p c = false.
Proof.
  induction s as [|x s IH]; simpl; [now left|].
  destruct (p x) eqn:E; [exact IH|]. right. eauto.
Qed.

Lemma sub_runs_first (p : char -> bool) (repl : str) (b : bool) (c : char)
    (s : str) :
  p c = false -> sub_runs p repl b (c :: s) = c :: sub_runs p repl false s.
Proof. intros H. simpl. now rewrite H. Qed.

Lemma sub_runs_last (p : char -> bool) (repl : str) (b : bool) (r : str)
    (c : char) :
  p c = false -> exists r', sub_runs p repl b (r ++ [c]) = r' ++ [c].
Proof.
  intros Hc. revert b. induction r as [|x r IH]; intros b; simpl.
  - rewrite Hc. now exists [].
  - destruct (p x); [destruct b|].
    + apply IH.
    + destruct (IH true) as [r' ->]. exists (repl ++ r').
      now rewrite app_assoc.
    + destruct (IH false) as [r' ->]. now exists (x :: r').
Qed.

Lemma sub_runs_chars (p : char -> bool) (repl : str) (b : bool) (s : str) :
  Forall (fun c => (In c s /\ p c = false) \/ In c repl)
         (sub_runs p repl b s).
Proof.
  revert b. induction s as [|x s IH]; intros b; simpl; [constructor|].
  assert (Hmono : forall b', Forall (fun c => ((x = c \/ In c s) /\ p c = false)
                                    \/ In c repl) (sub_runs p repl b' s)).
  { intros b'. eapply Forall_impl; [|apply (IH b')]. simpl.
    intros c [[H1 H2]|H]; [left; split; [now right|exact H2]|now right]. }
  destruct (p x) eqn:E; [destruct b|].
  - apply Hmono.
  - apply Forall_app. split; [|apply Hmono].
    apply Forall_forall. intros c Hc. now right.
  - constructor; [left; split; [now left|exact E]|apply Hmono].
Qed.

Lemma followed_cons (sep : char -> bool) (c : char) (s : str) :
  followed sep s ->
  (sep c = true ->
   s = [] \/ exists n rest, s = n :: rest /\ sep n = false) ->
  followed sep (c :: s).
Proof.
  intros Hs Hc [|b before] x after E Hx; simpl in E.
  - injection E as <- <-. now apply Hc.
  - injection E as _ E. exact (Hs _ _ _ E Hx).
Qed.

Lemma followed_nil (sep : char -> bool) : followed sep [].
Proof. intros [|b before] x after E; discriminate E. Qed.

Lemma sub_runs_followed (p : char -> bool) (d : char) (b : bool) (s : str) :
  followed p (sub_runs p [d] b s).
Proof.
  revert b. induction s as [|x s IH]; intros b; simpl; [apply followed_nil|].
  destruct (p x) eqn:E; [destruct b|].
  - apply IH.
  - apply followed_cons; [apply IH|]. intros _.
    destruct (sub_runs_head p [d] s) as [H|H]; [now left|now right].
  - apply followed_cons; [apply IH|]. intros H. congruence.
Qed.

Lemma separates_of_followed (sep : char -> bool) (s : str) :
  followed sep s ->
  (s = [] \/ exists c r, s = c :: r /\ sep c = false) ->
  (s = [] \/ exists r c, s = r ++ [c] /\ sep c = false) ->
  separates sep s.
Proof.
  intros Hf Hhead Hlast before c after E Hc. split.
  - destruct before as [|b0 before'].
    + simpl in E.
      destruct Hhead as [->|(c' & r & -> & Hc')]; [discriminate E|].
      injection E as -> _. congruence.
    + destruct (@exists_last _ (b0 :: before')) as (init & p & Ep);
        [discriminate|].
      rewrite Ep in *. exists init, p. split; [reflexivity|].
      destruct (sep p) eqn:Esp; [|reflexivity].
      rewrite <- app_assoc in E. simpl in E.
      destruct (Hf _ _ _ E Esp) as [H|(n & rest & H & Hn)]; [discriminate H|].
      injection H as <- _. congruence.
  - destruct (Hf _ _ _ E Hc) as [->|H]; [|exact H].
    destruct Hlast as [->|(r & c' & -> & Hc')].
    + destruct before; discriminate E.
    + apply app_inj_tail in E. destruct E as [_ ->]. congruence.
Qed.

(** ** The normal form of [_normalize_whitespace] *)

Lemma filter_dropWhile (p : char -> bool) (s : str) :
  filter (fun c => negb (p c)) (dropWhile p s)
  = filter (fun c => negb (p c)) s.
Proof.
  induction s as [|c s IH]; simpl; [reflexivity|].
  destruct (p c) eqn:E; simpl; [exact IH|]. now rewrite E.
Qed.

Lemma filter_strip (s : str) : filter not_space (strip s) = filter not_space s.
Proof.
  unfold strip, rstrip, lstrip, not_space.
  rewrite filter_rev, filter_dropWhile, <- filter_rev, rev_involutive.
  apply filter_dropWhile.
Qed.

Lemma filter_sub_spaces (b : bool) (s : str) :
  filter not_space (sub_spaces b s) = filter not_space s.
Proof.
  revert b. induction s as [|c s IH]; intros b; simpl; [reflexivity|].
  unfold not_space at 2. destruct (isspace c) eqn:E; simpl.
  - destruct b; [apply IH|]. simpl. apply IH.
  - unfold not_space at 1. rewrite E. simpl. now rewrite IH.
Qed.

(** The normalized text has whitespace only as single U+0020 characters,
    each between two characters that are no whitespace (so none at either
    end and no two in a row), and its other characters are those of the
    text given, in their order. *)
Theorem normalize_whitespace_normal_form (value : str) :
  let normalized := _normalize_whitespace value in
  separates isspace normalized
  /\ Forall (fun c => isspace c = true -> c = 0x20%N) normalized
  /\ filter not_space normalized = filter not_space value.
Proof.
  cbv zeta. unfold _normalize_whitespace. split; [|split].
  - rewrite sub_spaces_runs.
    destruct (strip_trimmed value) as [E|[(c & r & E & Hc) (r' & c' & E' & Hc')]].
    + rewrite E. intros [|b before] x after H; discriminate H.
    + apply separates_of_followed.
      * apply sub_runs_followed.
      * right. rewrite E, sub_runs_first by exact Hc. eauto.
      * right. rewrite E'.
        destruct (sub_runs_last isspace space false r' c' Hc') as [x ->].
        eauto.
  - rewrite sub_spaces_runs.
    eapply Forall_impl; [|apply sub_runs_chars]. simpl.
    intros c [[_ H]|[<-|[]]] Hc; [congruence|reflexivity].
  - now rewrite filter_sub_spaces, filter_strip.
Qed.

Example normalize_whitespace_example :
  _normalize_whitespace ([0x09; 0x20]%N ++ lit "a" ++ [0x0A; 0x0A; 0x3000]%N
                         ++ lit "b  c" ++ [0x0D]%N)
  = lit "a b c".
Proof. vm_compute. reflexivity. Qed.

(** ** The slug *)

Lemma rstrip_char_ends (d : char) (s : str) :
  rstrip_char d s = []
  \/ exists r c, rstrip_char d s = r ++ [c] /\ char_eqb d c = false.
Proof.
  unfold rstrip_char.
  destruct (dropWhile_head (char_eqb d) (rev s)) as [E|(c & r & E & Hc)];
    rewrite E; [now left|right].
  exists (rev r), c. split; [reflexivity|exact Hc].
Qed.

Lemma rstrip_char_prefix (d : char) (s : str) :
  exists n, s = rstrip_char d s ++ repeat d n.
Proof.
  unfold rstrip_char.
  enough (H : forall r, exists n,
                rev r = rev (dropWhile (char_eqb d) r) ++ repeat d n).
  { destruct (H (rev s)) as [n Hn]. exists n.
    now rewrite rev_involutive in Hn. }
  induction r as [|c r IH]; [now exists 0%nat|]. simpl.
  destruct (char_eqb d c) eqn:E.
  - apply N.eqb_eq in E. subst c. destruct IH as [n IH].
    exists (S n). rewrite IH, <- app_assoc. f_equal.
    change ([d]) with (repeat d 1). rewrite <- repeat_app.
    now rewrite Nat.add_comm.
  - exists 0%nat. now rewrite app_nil_r.
Qed.

Lemma dropWhile_suffix (p : char -> bool) (s : str) :
  exists dropped, s = dropped ++ dropWhile p s /\ Forall (fun c => p c = true) dropped.
Proof.
  induction s as [|c s (dropped & IH & Hall)]; [now exists []|]. simpl.
  destruct (p c) eqn:E.
  - exists (c :: dropped). split; [simpl; now rewrite <- IH|].
    now constructor.
  - now exists [].
Qed.

(** [strip("-")] leaves nothing, or a text with no [-] at either end. *)
Lemma strip_dashes_ends (s : str) :
  strip_dashes s = []
  \/ ((exists c r, strip_dashes s = c :: r /\ is_dash c = false)
      /\ (exists r c, strip_dashes s = r ++ [c] /\ is_dash c = false)).
Proof.
  unfold strip_dashes.
  destruct (dropWhile_head is_dash s) as [E|(c & r & E & Hc)]; rewrite E;
    [now left|].
  destruct (rstrip_char_ends dash (c :: r)) as [E'|(r' & c' & E' & Hc')];
    [now left|].
  right. split; [|rewrite E'; eauto].
  destruct (rstrip_char_prefix dash (c :: r)) as [n Hn].
  destruct (rstrip_char dash (c :: r)) as [|x y]; [destruct r'; discriminate E'|].
  injection Hn as <- _. eauto.
Qed.

Lemma strip_dashes_part (s : str) :
  exists before after, s = before ++ strip_dashes s ++ after.
Proof.
  unfold strip_dashes.
  destruct (dropWhile_suffix is_dash s) as (dropped & E & _).
  destruct (rstrip_char_prefix dash (dropWhile is_dash s)) as [n Hn].
  exists dropped, (repeat dash n). now rewrite <- Hn.
Qed.

Lemma slug_text_chars (nfkd : str -> str) (value : str) :
  Forall (fun c => slug_char c = true \/ c = dash) (slug_text nfkd value).
Proof.
  unfold slug_text.
  set (t0 := map ascii_lower (filter is_ascii (nfkd value))).
  set (t1 := sub_runs not_slug_char (lit "-") false t0).
  assert (H1 : Forall (fun c => slug_char c = true \/ c = dash) t1).
  { eapply Forall_impl; [|apply sub_runs_chars]. simpl.
    intros c [[_ H]|[<-|[]]]; [left|now right].
    unfold not_slug_char in H. now apply negb_false_iff in H. }
  destruct (strip_dashes_part t1) as (before & after & E).
  rewrite E in H1. apply Forall_app in H1. destruct H1 as [_ H1].
  apply Forall_app in H1. destruct H1 as [H2 _].
  eapply Forall_impl; [|apply sub_runs_chars]. simpl.
  intros c [[Hin _]|[<-|[]]]; [|now right].
  rewrite Forall_forall in H2. now apply H2.
Qed.

Lemma slug_text_separates (nfkd : str -> str) (value : str) :
  separates is_dash (slug_text nfkd value).
Proof.
  unfold slug_text.
  set (t1 := sub_runs not_slug_char (lit "-") false _).
  destruct (strip_dashes_ends t1)
    as [E|[(c & r & E & Hc) (r' & c' & E' & Hc')]].
  - rewrite E. intros [|b before] x after H; discriminate H.
  - apply separates_of_followed.
    + apply (sub_runs_followed is_dash dash).
    + right. rewrite E, sub_runs_first by exact Hc. eauto.
    + right. rewrite E'.
      destruct (sub_runs_last is_dash (lit "-") false r' c' Hc') as [x ->].
      eauto.
Qed.

(** Whatever the name, the slug is well formed when the fallback is: it is
    not empty, it is made of the characters [a-z], [0-9] and [-], and every
    [-] in it stands between two characters that are no [-] (none at either
    end, no two in a row).  This holds for any table [nfkd]. *)
Theorem slugify_well_formed (nfkd : str -> str) (value fallback : str) :
  well_formed_slug fallback -> well_formed_slug (slugify nfkd value fallback).
Proof.
  intros Hf. unfold slugify.
  pose proof (slug_text_chars nfkd value) as Hc.
  pose proof (slug_text_separates nfkd value) as Hs.
  destruct (slug_text nfkd value) as [|c t]; [exact Hf|].
  split; [discriminate|]. split; assumption.
Qed.

Lemma slugify_well_formed_witness :
  slugify (fun s => s) (lit "  Week 3: A+B / --sums--  ") (lit "contest")
  = lit "week-3-a-b-sums"
  /\ well_formed_slug (slugify (fun s => s) [0x41F; 0x440; 0x438]%N
                               (lit "contest")).
Proof.
  split; [reflexivity|].
  apply (slugify_well_formed (fun s => s) [0x41F; 0x440; 0x438]%N
           (lit "contest")).
  split; [discriminate|]. split.
  - repeat (apply Forall_cons; [left; reflexivity|]). apply Forall_nil.
  - intros before c after E Hc. exfalso.
    assert (Hall : Forall (fun x => is_dash x = false) (lit "contest"))
      by (repeat (apply Forall_cons; [reflexivity|]); apply Forall_nil).
    rewrite E in Hall. apply Forall_app in Hall. destruct Hall as [_ Hall].
    inversion Hall; congruence.
Defined.

(** ** The title removed from a legend *)

Lemma strip_prefix_some (p s rest : str) :
  strip_prefix p s = Some rest -> s = p ++ rest.
Proof.
  revert s. induction p as [|x p IH]; intros s H; simpl in H.
  - now injection H.
  - destruct s as [|y s]; [discriminate|].
    destruct (char_eqb x y) eqn:E; [|discriminate].
    apply N.eqb_eq in E. subst y. simpl. f_equal. now apply IH.
Qed.

Lemma cut_some (sub s before after : str) :
  cut sub s = Some (before, after) -> s = before ++ sub ++ after.
Proof.
  revert before. induction s as [|c s IH]; intros before H; cbn [cut] in H.
  - destruct (strip_prefix sub []) as [rest|] eqn:E; [|discriminate].
    injection H as <- <-. simpl. now apply strip_prefix_some.
  - destruct (strip_prefix sub (c :: s)) as [rest|] eqn:E.
    + injection H as <- <-. simpl. now apply strip_prefix_some.
    + destruct (cut sub s) as [[b a]|] eqn:Ec; [|discriminate].
      injection H as <- <-. simpl. f_equal. now apply IH.
Qed.

Lemma join_cons (sep first : str) (rest : list str) :
  join sep (first :: rest)
  = first ++ concat (map (fun section => sep ++ section) rest).
Proof.
  revert first. induction rest as [|s rest IH]; intros first.
  - simpl. now rewrite app_nil_r.
  - change (join sep (first :: s :: rest))
      with (first ++ sep ++ join sep (s :: rest)).
    rewrite IH. simpl. now rewrite <- app_assoc.
Qed.

(** Joining the parts of a text gives the text back. *)
Lemma join_split_rounds (sep : str) (n : nat) (s : str) :
  join sep (split_rounds n sep s) = s.
Proof.
  revert s. induction n as [|n IH]; intros s; [reflexivity|]. simpl.
  destruct (cut sep s) as [[before after]|] eqn:E; [|reflexivity].
  rewrite join_cons. apply cut_some in E. subst s. f_equal.
  specialize (IH after).
  destruct (split_rounds n sep after) as [|p ps] eqn:Ep.
  - destruct n; simpl in Ep; [discriminate|].
    destruct (cut sep after) as [[b a]|]; discriminate.
  - rewrite join_cons in IH. simpl. rewrite <- app_assoc. now rewrite IH.
Qed.

Lemma strip_empty_all_space (s : str) : strip s = [] -> all_space s.
Proof.
  unfold strip, rstrip, lstrip. intros H.
  apply (f_equal (@rev _)) in H. rewrite rev_involutive in H. simpl in H.
  destruct (dropWhile_suffix isspace s) as (dropped & E & Hd).
  destruct (dropWhile_suffix isspace (rev (dropWhile isspace s)))
    as (dropped' & E' & Hd').
  rewrite H, app_nil_r in E'.
  rewrite E. apply Forall_app. split; [exact Hd|].
  rewrite <- (rev_involutive (dropWhile isspace s)), E'.
  now apply Forall_rev.
Qed.

Lemma drop_blank_sections_suffix (sections : list str) :
  exists blank,
    sections = blank ++ drop_blank_sections sections
    /\ Forall all_space blank
    /\ (drop_blank_sections sections = []
        \/ exists s rest,
             drop_blank_sections sections = s :: rest /\ strip s <> []).
Proof.
  induction sections as [|s rest (blank & E & Hb & Hk)].
  - exists []. repeat split; [constructor|now left].
  - simpl. destruct (strip s) as [|c r] eqn:Es.
    + exists (s :: blank). split; [simpl; now rewrite <- E|]. split.
      * constructor; [now apply strip_empty_all_space|exact Hb].
      * exact Hk.
    + exists []. repeat split; [constructor|]. right.
      exists s, rest. split; [reflexivity|]. rewrite Es. discriminate.
Qed.

Lemma all_space_strip (s : str) : all_space s -> strip s = [].
Proof.
  intros H. unfold strip, lstrip.
  rewrite <- (app_nil_r s), dropWhile_app_all by exact H. reflexivity.
Qed.

Lemma all_space_concat (sep : str) (sections : list str) :
  all_space sep -> Forall all_space sections ->
  all_space (concat (map (fun section => sep ++ section) sections)).
Proof.
  intros Hsep. induction 1 as [|s rest Hs _ IH]; [constructor|].
  simpl. apply Forall_app. split; [|exact IH].
  apply Forall_app. now split.
Qed.

(** Removing a redundant title takes away a beginning of the legend and
    nothing else: either the legend is returned as it is, or it is its
    first paragraph, equal to the title up to letter case and whitespace,
    then whitespace only, then the text returned; and the text returned is
    empty or holds a character that is no whitespace. *)
Theorem strip_redundant_title_removes_prefix {rt : Runtime}
    (legend title : str) :
  let rest := _strip_redundant_title legend title in
  rest = legend
  \/ exists first blanks,
       legend = first ++ blanks ++ rest
       /\ lower (_normalize_whitespace first)
          = lower (_normalize_whitespace title)
       /\ all_space blanks
       /\ (rest = [] \/ ~ all_space rest).
Proof.
  cbv zeta. unfold _strip_redundant_title.
  destruct legend as [|c0 l0]; [now left|]. set (legend := c0 :: l0).
  pose proof (join_split_rounds blank_line (length legend) legend) as Hjoin.
  fold (split blank_line legend) in Hjoin.
  destruct (split blank_line legend) as [|first sections]; [now left|].
  destruct (str_eqb (lower (_normalize_whitespace first))
                    (lower (_normalize_whitespace title))) eqn:Et;
    [|now left].
  apply str_eqb_eq in Et. right. cbn [negb].
  destruct (drop_blank_sections_suffix sections) as (blank & E & Hb & Hk).
  assert (Hsep : all_space blank_line) by (repeat constructor).
  rewrite join_cons, E, map_app, concat_app in Hjoin.
  destruct Hk as [Hk|(s & kept & Hk & Hs)]; rewrite Hk in *.
  - exists first, (concat (map (fun section => blank_line ++ section) blank)).
    cbn [map concat] in Hjoin. rewrite app_nil_r in Hjoin.
    cbn [join]. rewrite app_nil_r.
    repeat split; [now symmetry|exact Et| |now left].
    now apply all_space_concat.
  - exists first,
      (concat (map (fun section => blank_line ++ section) blank)
       ++ blank_line).
    assert (Hk' : concat (map (fun section => blank_line ++ section)
                            (s :: kept))
                  = blank_line ++ join blank_line (s :: kept)).
    { rewrite join_cons. reflexivity. }
    repeat split.
    + rewrite <- Hjoin, <- !app_assoc. do 2 f_equal. exact Hk'.
    + exact Et.
    + apply Forall_app. split; [now apply all_space_concat|exact Hsep].
    + right. intros Hall. apply Hs. apply all_space_strip.
      rewrite join_cons in Hall. apply Forall_app in Hall. apply Hall.
Qed.

(** ** The contest name *)

Lemma first_nonempty_head (name : str) (names : list str) :
  name <> [] -> first_nonempty (name :: names) = name.
Proof. destruct name; [congruence|reflexivity]. Qed.

Lemma parse_questions_name {rt : Runtime} questions contest_name tasks
    contest_name' tasks' :
  parse_questions questions contest_name tasks = Ok (contest_name', tasks') ->
  contest_name'
  = first_nonempty
      (contest_name :: map (fun question => category_name question [])
                           (filter is_category questions)).
Proof.
  revert contest_name tasks.
  induction questions as [|q qs IH]; intros cn ts H; cbn [parse_questions] in H.
  - injection H as <- _. destruct cn; reflexivity.
  - cbn [filter]. unfold is_category at 1.
    destruct (str_eqb (get_attr (lit "type") [] q) (lit "category")) eqn:Ecat.
    + apply str_eqb_eq in Ecat. rewrite Ecat in H.
      destruct (str_eqb cn []) eqn:Ecn.
      * apply str_eqb_eq in Ecn. subst cn. cbn [andb] in H.
        rewrite (IH _ _ H). reflexivity.
      * change (str_eqb (lit "category") (lit "category") && false)
          with false in H.
        change (negb (str_eqb (lit "category") (lit "coderunner")))
          with true in H.
        cbn iota in H. rewrite (IH _ _ H).
        assert (Hcn : cn <> []) by (intros ->; discriminate Ecn).
        cbn [map]. now rewrite !first_nonempty_head by exact Hcn.
    + cbn [andb] in H.
      destruct (negb (str_eqb (get_attr (lit "type") [] q) (lit "coderunner")));
        [exact (IH _ _ H)|].
      destruct (parse_question q) as [task|e]; [|discriminate].
      exact (IH _ _ H).
Qed.

(** The contest name is the last component of the path of the first
    category entry that gives one, the stem of the file name when no entry
    does, and [Moodle Contest] when that is empty too; it is never empty.
    Later category entries and the task entries have no part in it. *)
Theorem contest_name_first_category {rt : Runtime} (path : str)
    (root : element) (contest_name : str) (tasks : list MoodleTask) :
  parse_moodle_xml path root = Ok (contest_name, tasks) ->
  contest_name
  = first_nonempty
      [ first_nonempty
          (map (fun question => category_name question [])
               (filter is_category (findall [lit "question"] root)));
        path_stem path; lit "Moodle Contest" ]
  /\ contest_name <> [].
Proof.
  unfold parse_moodle_xml.
  destruct (parse_questions _ _ _) as [[cn ts]|e] eqn:E; [|discriminate].
  apply parse_questions_name in E. cbn [first_nonempty] in E.
  fold first_nonempty in E.
  intros H. injection H as <- _. rewrite <- E.
  destruct cn as [|c cn]; [|split; [reflexivity|discriminate]].
  destruct (path_stem path) as [|c s]; split;
    try reflexivity; discriminate.
Qed.

Lemma contest_name_first_category_witness :
  lit "Week3"
  = first_nonempty
      [ first_nonempty
          (map (fun question => category_name question [])
               (filter is_category
                       (findall [lit "question"] Sample.document)));
        path_stem (Runtime := basic_runtime) (lit "export.xml");
        lit "Moodle Contest" ]
  /\ lit "Week3" <> [].
Proof.
  eapply (contest_name_first_category (rt := basic_runtime) (lit "export.xml")
            Sample.document).
  vm_compute. reflexivity.
Defined.

(** ** The fields of a parsed task *)

Lemma strip_idempotent (s : str) : strip (strip s) = strip s.
Proof.
  destruct (strip_trimmed s) as [E|H]; [now rewrite E|].
  now apply strip_of_trimmed.
Qed.

Lemma input_format_trimmed {rt : Runtime} (html : str) :
  trimmed (input_format_of (extract_text_sections html)).
Proof.
  set (lines := content_lines (markup_to_text html)).
  assert (Hall : Forall trimmed (buffered (scan lines))).
  { apply buffered_all; [constructor|apply content_lines_trimmed]. }
  unfold buffered in Hall. apply Forall_app in Hall. destruct Hall as [_ Hio].
  apply Forall_app in Hio. destruct Hio as [Hi _].
  unfold extract_text_sections, sections_of_text, sections_of_scan,
    input_format_of. cbn [fst snd]. fold lines.
  destruct (input_lines (scan lines)) as [|l ls] eqn:E;
    [apply placeholder_trimmed|].
  apply join_trimmed; [discriminate|exact Hi].
Qed.

Lemma output_format_trimmed {rt : Runtime} (html : str) :
  trimmed (output_format_of (extract_text_sections html)).
Proof.
  set (lines := content_lines (markup_to_text html)).
  assert (Hall : Forall trimmed (buffered (scan lines))).
  { apply buffered_all; [constructor|apply content_lines_trimmed]. }
  unfold buffered in Hall. apply Forall_app in Hall. destruct Hall as [_ Hio].
  apply Forall_app in Hio. destruct Hio as [_ Ho].
  unfold extract_text_sections, sections_of_text, sections_of_scan,
    output_format_of. cbn [fst snd]. fold lines.
  destruct (output_lines (scan lines)) as [|l ls] eqn:E;
    [apply placeholder_trimmed|].
  apply join_trimmed; [discriminate|exact Ho].
Qed.

Lemma parse_question_fields {rt : Runtime} question task :
  parse_question question = Ok task ->
  strip (name task) = name task
  /\ strip (solution task) = solution task
  /\ trimmed (input_format task)
  /\ trimmed (output_format task).
Proof.
  unfold parse_question.
  destruct (find name_path question) as [name_node|]; [|discriminate].
  destruct (find questiontext_path question) as [text_node|]; [|discriminate].
  destruct (find answer_path question) as [answer_node|]; [|discriminate].
  pose proof (input_format_trimmed (text_or [] (text_of text_node))) as Hi.
  pose proof (output_format_trimmed (text_or [] (text_of text_node))) as Ho.
  destruct (extract_text_sections _) as [[l i] o].
  intros H. injection H as <-. cbn [name solution input_format output_format].
  repeat split; try apply strip_idempotent; try apply Hi; apply Ho.
Qed.

(** Every task the reader returns has a name and a solution with no
    whitespace at either end, and an input and an output format that are
    not empty and begin and end with a character that is no whitespace. *)
Theorem parsed_tasks_are_trimmed {rt : Runtime} (path : str) (root : element)
    (contest_name : str) (tasks : list MoodleTask) :
  parse_moodle_xml path root = Ok (contest_name, tasks) ->
  Forall (fun task =>
            strip (name task) = name task
            /\ strip (solution task) = solution task
            /\ trimmed (input_format task)
            /\ trimmed (output_format task))
         tasks.
Proof.
  intros H. apply parse_moodle_xml_ok in H.
  induction H as [|q task qs ts Hq _ IH]; constructor; [|exact IH].
  exact (parse_question_fields _ _ Hq).
Qed.

Lemma parsed_tasks_are_trimmed_witness :
  exists tasks,
    parse_moodle_xml (rt := basic_runtime) (lit "export.xml") Sample.document
    = Ok (lit "Week3", tasks)
    /\ Forall (fun task =>
                 strip (name task) = name task
                 /\ strip (solution task) = solution task
                 /\ trimmed (input_format task)
                 /\ trimmed (output_format task))
              tasks.
Proof.
  eexists. split; [vm_compute; reflexivity|].
  eapply (parsed_tasks_are_trimmed (rt := basic_runtime) (lit "export.xml")
            Sample.document).
  vm_compute. reflexivity.
Defined.

(** ** Problem codes *)

Lemma lit_inj (a b : String.string) : lit a = lit b -> a = b.
Proof.
  unfold lit. intros H.
  rewrite <- (string_of_list_ascii_of_string a),
          <- (string_of_list_ascii_of_string b).
  f_equal. revert H.
  generalize (list_ascii_of_string a) (list_ascii_of_string b).
  induction l as [|x l IH]; intros [|y l'] H; try discriminate H;
    [reflexivity|].
  simpl in H. injection H as Hxy H. f_equal; [|now apply IH].
  rewrite <- (ascii_N_embedding x), <- (ascii_N_embedding y).
  now rewrite Hxy.
Qed.

Lemma to_int_normal (z : Z) : Z.to_int z = Decimal.norm (Z.to_int z).
Proof.
  rewrite <- (DecimalZ.to_of (Z.to_int z)). now rewrite DecimalZ.of_to.
Qed.

Lemma to_int_not_nil (z : Z) :
  Z.to_int z <> Decimal.Pos Decimal.Nil /\ Z.to_int z <> Decimal.Neg Decimal.Nil.
Proof.
  destruct z as [|p|p]; simpl; split; try discriminate;
    intros H; injection H as H;
    exact (DecimalPos.Unsigned.to_uint_nonnil p H).
Qed.

(** [str] gives different texts for different integers. *)
Lemma str_of_int_inj (i j : Z) : str_of_int i = str_of_int j -> i = j.
Proof.
  unfold str_of_int. intros H. apply lit_inj in H.
  apply DecimalZ.to_int_inj.
  destruct (to_int_not_nil i) as [Hi Hi'], (to_int_not_nil j) as [Hj Hj'].
  pose proof (NilZero.isi _ Hi Hi') as Ei.
  pose proof (NilZero.isi _ Hj Hj') as Ej.
  rewrite H in Ei. congruence.
Qed.

(** [str] writes no zero before a digit. *)
Lemma str_of_int_zero (z : Z) (rest : str) :
  str_of_int z = 0x30%N :: rest -> rest = [].
Proof.
  unfold str_of_int. pose proof (to_int_normal z) as Hn.
  destruct (Z.to_int z) as [u|u]; [|discriminate].
  simpl in Hn. injection Hn as Hn. unfold Decimal.unorm in Hn.
  pose proof (DecimalFacts.nzhead_nonzero u) as Hz.
  destruct (Decimal.nzhead u) eqn:En; subst u;
    try (intros H; discriminate H).
  - intros H. now injection H as <-.
  - now contradiction (Hz u0).
Qed.

Lemma two_digits_inj (i j : Z) : two_digits i = two_digits j -> i = j.
Proof.
  unfold two_digits. intros H.
  destruct (str_of_int i) as [|a [|a' si]] eqn:Ei;
    destruct (str_of_int j) as [|b [|b' sj]] eqn:Ej;
    try (apply str_of_int_inj; congruence); try discriminate H;
    injection H; intros; subst;
    try (apply str_of_int_inj; congruence);
    try (apply str_of_int_zero in Ej; discriminate Ej);
    apply str_of_int_zero in Ei; discriminate Ei.
Qed.

(** Different positions in the export give different problem codes, under
    any contest slug. *)
Theorem problem_codes_differ (contest_slug : str) (i j : Z) :
  i <> j -> problem_code contest_slug i <> problem_code contest_slug j.
Proof.
  intros Hij H. apply Hij. unfold problem_code in H.
  apply app_inv_head, app_inv_head in H. now apply two_digits_inj.
Qed.

Lemma problem_codes_differ_witness :
  problem_code (lit "week3") 1 <> problem_code (lit "week3") 10
  /\ problem_code (lit "week3") 1 = lit "week3-01"
  /\ problem_code (lit "week3") 10 = lit "week3-10"
  /\ problem_code (lit "week3") 123 = lit "week3-123".
Proof.
  split; [apply (problem_codes_differ (lit "week3") 1 10); lia|].
  repeat split; reflexivity.
Defined.

(** ** The calls of the workflow *)

Section Calls.
Context {rt : Runtime}.
Variable api : PolygonAPI.

Lemma logged_refl (w : world) : logged api w w [].
Proof. exists []. split; [now rewrite app_nil_r|constructor]. Qed.

Lemma logged_trans (w w1 w2 : world) requests1 requests2 :
  logged api w w1 requests1 -> logged api w1 w2 requests2 ->
  logged api w w2 (requests1 ++ requests2).
Proof.
  intros (new1 & E1 & H1) (new2 & E2 & H2). exists (new1 ++ new2). split.
  - now rewrite E2, E1, app_assoc.
  - now apply Forall2_app.
Qed.

(** A request is logged, unless it could not be made. *)
Lemma request_logged method params w r w' :
  request api method params w = Some (r, w') ->
  logged api w w' [(method, params)]
  \/ (w' = w /\ exists e, r = Raise e).
Proof.
  intros H. apply request_sent in H. destruct H as [H|(x & _ & E)]; [auto|].
  left. eexists. split; [exact E|]. constructor; [|constructor].
  exists (rand_of x), (now w). reflexivity.
Qed.

Lemma request_ok_logged method params w v w' :
  request api method params w = Some (Ok v, w') ->
  logged api w w' [(method, params)].
Proof.
  intros H. apply request_logged in H.
  destruct H as [H|[_ [e He]]]; [exact H|discriminate He].
Qed.

Lemma save_tests_logged problem_id tests w r w' :
  save_tests api problem_id tests w = Some (r, w') ->
  exists saved later,
    tests = saved ++ later
    /\ logged api w w' (map (save_test_request problem_id) saved)
    /\ (r = Ok tt -> later = []).
Proof.
  revert w. induction tests as [|test tests IH]; intros w H; simpl in H.
  - injection H as <- <-. exists [], []. repeat split. apply logged_refl.
  - apply bind_some in H. destruct H as [(a & w1 & H1 & H)|(e & H1 & ->)].
    + apply request_ok_logged in H1.
      destruct (IH _ H) as (saved & later & -> & Hlog & Hr).
      exists (test :: saved), later. repeat split; [|exact Hr].
      exact (logged_trans _ _ _ _ _ H1 Hlog).
    + apply request_logged in H1. destruct H1 as [H1|[-> _]].
      * exists [test], tests. repeat split; [exact H1|discriminate].
      * exists [], (test :: tests).
        repeat split; [apply logged_refl|discriminate].
Qed.

Lemma wait_rounds_logged rounds problem_id deadline w r w' :
  wait_rounds rounds api problem_id deadline w = Some (r, w') ->
  exists polls,
    logged api w w' (repeat (packages_request problem_id) polls)
    /\ (r = Ok tt -> (1 <= polls)%nat).
Proof.
  revert w. induction rounds as [|rounds IH]; intros w H; [discriminate H|].
  cbn [wait_rounds] in H.
  apply bind_some in H. destruct H as [(t & w1 & H1 & H)|(e & H1 & _)];
    [|discriminate H1].
  injection H1 as <- <-.
  destruct (Z.ltb (now w) deadline).
  2:{ injection H as <- <-. exists 0%nat. split; [apply logged_refl|].
      discriminate. }
  apply bind_some in H. destruct H as [(packages & w1 & H1 & H)|(e & H1 & ->)].
  2:{ apply request_logged in H1. destruct H1 as [H1|[-> _]].
      - exists 1%nat. split; [exact H1|]. discriminate.
      - exists 0%nat. split; [apply logged_refl|]. discriminate. }
  apply request_ok_logged in H1.
  assert (Hgo : (sleep 2 ;;; wait_rounds rounds api problem_id deadline) w1
                = Some (r, w') ->
                exists polls,
                  logged api w w' (repeat (packages_request problem_id) polls)
                  /\ (r = Ok tt -> (1 <= polls)%nat)).
  { intros Hs. apply bind_some in Hs.
    destruct Hs as [(u & w2 & Hs & Hw)|(e & Hs & _)]; [|discriminate Hs].
    injection Hs as _ <-.
    destruct (IH _ Hw) as (polls & (new & E & Hnew) & _).
    exists (S polls). split; [|lia].
    apply (logged_trans _ w1 _ [packages_request problem_id]); [exact H1|].
    exists new. split; [exact E|exact Hnew]. }
  destruct (negb (truthy packages)); [exact (Hgo H)|].
  destruct packages; try discriminate H.
  apply bind_some in H. destruct H as [(latest & w2 & H2 & H)|(e & H2 & ->)].
  2:{ unfold covered in H2. destruct (latest_package items); discriminate H2. }
  assert (w2 = w1) as ->.
  { unfold covered in H2. destruct (latest_package items);
      [now injection H2|discriminate H2]. }
  destruct (is_str (lit "READY") (state_of latest)).
  { injection H as <- <-. exists 1%nat. split; [exact H1|lia]. }
  destruct (is_str (lit "FAILED") (state_of latest)); [|exact (Hgo H)].
  injection H as <- <-. exists 1%nat. split; [exact H1|lia].
Qed.

Lemma wait_for_package_logged problem_id timeout w r w' :
  wait_for_package api problem_id timeout w = Some (r, w') ->
  exists polls,
    logged api w w' (repeat (packages_request problem_id) polls)
    /\ (r = Ok tt -> (1 <= polls)%nat).
Proof.
  unfold wait_for_package. intros H.
  apply bind_some in H. destruct H as [(t & w1 & H1 & H)|(e & H1 & _)];
    [|discriminate H1].
  injection H1 as <- <-. exact (wait_rounds_logged _ _ _ _ _ _ H).
Qed.

End Calls.

Section Sequence.
Context {rt : Runtime}.
Variable api : PolygonAPI.

Ltac stopped polls Hlog :=
  exists polls; eexists; eexists;
  split; [|split; [exact Hlog|split]];
  [unfold workflow_requests; rewrite <- ?app_assoc
  |intros Hnone; discriminate Hnone|discriminate].

Ltac request_step H Hlog :=
  let a := fresh "a" in
  let wk := fresh "w" in
  let Hk := fresh "Hk" in
  let e := fresh "e" in
  apply bind_some in H;
  destruct H as [(a & wk & Hk & H)|(e & Hk & ->)];
  [ apply request_ok_logged in Hk;
    apply (logged_trans api _ _ _ _ _ Hlog) in Hk;
    clear Hlog; rename Hk into Hlog
  | apply request_logged in Hk; destruct Hk as [Hk|[-> _]];
    [ apply (logged_trans api _ _ _ _ _ Hlog) in Hk;
      stopped 0%nat Hk; reflexivity
    | stopped 0%nat Hlog; reflexivity ] ].

(** The calls of one run of the workflow, however it ends. *)
Lemma workflow_logged code task w r w' :
  create_polygon_problem api code task w = Some (r, w') ->
  exists problem_id polls requests later,
    workflow_requests code task problem_id polls = requests ++ later
    /\ logged api w w' requests
    /\ (requests = [] ->
        w' = w
        /\ ~ sendable api (lit "problem.create") (now w)
               [(lit "name", VStr code)])
    /\ (forall id, r = Ok id -> id = problem_id /\ later = []).
Proof.
  intros H. unfold create_polygon_problem in H.
  apply bind_some in H. destruct H as [(problem & w1 & H1 & H)|(e & H1 & ->)].
  2:{ destruct (request_logged api _ _ _ _ _ H1) as [Hlog|[Hw _]].
      - exists 0%Z. stopped 0%nat Hlog. reflexivity.
      - subst w'. apply request_unsent in H1; [|reflexivity].
        exists 0%Z, 0%nat, [], (workflow_requests code task 0 0).
        split; [reflexivity|]. split; [apply logged_refl|].
        split; [intros _; split; [reflexivity|apply H1]|discriminate]. }
  apply request_ok_logged in H1.
  apply bind_some in H. destruct H as [(pid & w2 & H2 & H)|(e & H2 & ->)];
    apply problem_id_of_pure in H2; subst.
  2:{ exists 0%Z. stopped 0%nat H1. reflexivity. }
  exists pid.
  request_step H H1. request_step H H1. request_step H H1.
  request_step H H1.
  apply bind_some in H. destruct H as [([] & w5 & H5 & H)|(e & H5 & ->)];
    apply save_tests_logged in H5;
    destruct H5 as (saved & unsaved & Et & H5 & Hr);
    apply (logged_trans api _ _ _ _ _ H1) in H5; clear H1.
  2:{ stopped 0%nat H5. rewrite Et, map_app, <- ?app_assoc. reflexivity. }
  rewrite (Hr eq_refl), app_nil_r in Et. subst saved. clear Hr.
  rename H5 into H1.
  request_step H H1. request_step H H1.
  apply bind_some in H. destruct H as [([] & w8 & H8 & H)|(e & H8 & ->)];
    apply wait_for_package_logged in H8;
    destruct H8 as (polls & H8 & Hr);
    apply (logged_trans api _ _ _ _ _ H1) in H8; clear H1.
  2:{ stopped polls H8.
      change (repeat (packages_request pid) (S polls))
        with (packages_request pid :: repeat (packages_request pid) polls).
      rewrite repeat_cons. reflexivity. }
  injection H as <- <-. specialize (Hr eq_refl).
  destruct polls as [|polls]; [lia|].
  exists polls. eexists. exists [].
  split; [|split; [exact H8|split]].
  - unfold workflow_requests. rewrite app_nil_r, <- ?app_assoc. reflexivity.
  - intros Hnone. discriminate Hnone.
  - intros id Hid. injection Hid as <-. now split.
Qed.

End Sequence.



(** ** The calls of [main] *)

Section MainCalls.
Context {rt : Runtime}.
Variable nfkd : str -> str.
Variable api : PolygonAPI.

(** The loop of [main]: the problems are created one after the other, and
    the first failure ends the loop. *)
Lemma create_problems_logged slug tasks : forall index created w r w',
  create_problems api slug index tasks created w = Some (r, w') ->
  (exists ids polls,
      r = Ok (created ++ ids)
      /\ length ids = length tasks /\ length polls = length tasks
      /\ logged api w w' (main_requests slug index tasks ids polls))
  \/ (exists e done task rest ids polls problem_id p requests later,
        r = Raise e
        /\ tasks = done ++ task :: rest
        /\ length ids = length done /\ length polls = length done
        /\ workflow_requests
             (problem_code slug (index + Z.of_nat (length done))) task
             problem_id p
           = requests ++ later
        /\ (requests = [] ->
            ~ sendable api (lit "problem.create") (now w')
                [(lit "name",
                  VStr (problem_code slug
                          (index + Z.of_nat (length done))))])
        /\ logged api w w'
             (main_requests slug index done ids polls ++ requests)).
Proof.
  induction tasks as [|task tasks IH]; intros index created w r w' H;
    cbn [create_problems] in H.
  - injection H as <- <-. left. exists [], []. rewrite app_nil_r.
    repeat split. apply logged_refl.
  - apply bind_some in H. destruct H as [(id & w1 & H1 & H)|(e & H1 & ->)];
      apply workflow_logged in H1;
      destruct H1 as (pid & p & requests & later & Eplan & Hlog & Hne & Hr).
    + destruct (Hr _ eq_refl) as [<- ->]. rewrite app_nil_r in Eplan.
      subst requests.
      destruct (IH _ _ _ _ _ H)
        as [(ids & polls & -> & Hi & Hp & Hlog')
           |(e & done & t & rest & ids & polls & pid' & p' & requests & later
             & -> & -> & Hi & Hp & Eplan & Hne' & Hlog')].
      * left. exists (id :: ids), (p :: polls).
        rewrite <- app_assoc. repeat split; simpl; try lia.
        exact (logged_trans api _ _ _ _ _ Hlog Hlog').
      * right. exists e, (task :: done), t, rest, (id :: ids), (p :: polls),
                 pid', p', requests, later.
        assert (Ei : (index + Z.of_nat (length (task :: done))
                      = index + 1 + Z.of_nat (length done))%Z)
          by (cbn [length]; lia).
        rewrite Ei.
        split; [reflexivity|]. split; [reflexivity|].
        split; [cbn [length]; lia|]. split; [cbn [length]; lia|].
        split; [exact Eplan|]. split; [exact Hne'|].
        cbn [main_requests]. rewrite <- app_assoc.
        exact (logged_trans api _ _ _ _ _ Hlog Hlog').
    + right. exists e, [], task, tasks, [], [], pid, p, requests, later.
      cbn [length Z.of_nat]. rewrite Z.add_0_r.
      split; [reflexivity|]. split; [reflexivity|].
      split; [reflexivity|]. split; [reflexivity|].
      split; [exact Eplan|]. split; [|exact Hlog].
      intros E. destruct (Hne E) as [-> Hn]. exact Hn.
Qed.



(** The ways [main] ends: before any call, or with the end of the loop. *)
Lemma main_cases config xml_file document w out w' :
  main nfkd config xml_file document w = Some (out, w') ->
  (out = Exit1 /\ w' = w /\ nothing_to_create config document)
  \/ exists url key secret root contest_name tasks r,
       config = Some (url, key, secret) /\ document = Some root
       /\ parse_moodle_xml xml_file root = Ok (contest_name, tasks)
       /\ tasks <> []
       /\ create_problems (PolygonAPI_init url key secret)
            (slugify nfkd contest_name (lit "contest")) 1 tasks [] w
          = Some (r, w')
       /\ out = match r with Ok ids => Printed ids | Raise _ => Exit1 end.
Proof.
  unfold main, nothing_to_create.
  destruct config as [[[url key] secret]|].
  2:{ intros H. injection H as <- <-. left. repeat split. now left. }
  destruct document as [root|].
  2:{ intros H. injection H as <- <-. left. repeat split. right. now left. }
  destruct (parse_moodle_xml xml_file root) as [[cn tasks]|e] eqn:E.
  2:{ intros H. injection H as <- <-. left. repeat split. right. right.
      exists root. split; [reflexivity|]. left.
      exact (proj2 (parse_moodle_xml_raise _ _ _ E)). }
  destruct tasks as [|task tasks].
  { intros H. injection H as <- <-. left. repeat split. right. right.
    exists root. split; [reflexivity|]. right.
    apply parse_moodle_xml_ok in E. inversion E. reflexivity. }
  destruct (create_problems _ _ _ _ _ w) as [[r w1]|] eqn:Ec;
    [|discriminate].
  intros H. right. exists url, key, secret, root, cn, (task :: tasks), r.
  split; [reflexivity|]. split; [reflexivity|]. split; [exact E|].
  split; [discriminate|]. split.
  - rewrite Ec. destruct r; now injection H as _ <-.
  - destruct r; now injection H as <- _.
Qed.

End MainCalls.

(** Every task of the export gets its problem, or nothing is printed: when
    [main] prints identifiers, the export was read, it holds a task, there
    is one identifier for each task, and the calls made are those of the
    workflow of the first task under the code [slug-01], then those of the
    second under [slug-02], and so on, each for the identifier printed. *)
Theorem main_creates_every_task {rt : Runtime} (nfkd : str -> str)
    config xml_file document w ids w' :
  main nfkd config xml_file document w = Some (Printed ids, w') ->
  exists url key secret root contest_name tasks polls,
    config = Some (url, key, secret) /\ document = Some root
    /\ parse_moodle_xml xml_file root = Ok (contest_name, tasks)
    /\ tasks <> []
    /\ length ids = length tasks
    /\ length polls = length tasks
    /\ logged (PolygonAPI_init url key secret) w w'
         (main_requests (slugify nfkd contest_name (lit "contest")) 1
                        tasks ids polls).
Proof.
  intros H. apply main_cases in H.
  destruct H as [(H & _)|(url & key & secret & root & cn & tasks & r
                          & -> & -> & Hp & Hne & Hc & Hout)];
    [discriminate H|].
  exists url, key, secret, root, cn, tasks.
  apply create_problems_logged in Hc.
  destruct Hc as [(new & polls & -> & Hi & Hl & Hlog)
                 |(e & done & t & rest & i & p & pid & n & rq & lt & -> & _)];
    [|discriminate Hout].
  injection Hout as ->. exists polls. repeat split; assumption.
Qed.



(** ** The script of exchanges *)

Section Script.
Context {rt : Runtime}.

Lemma consumes_pure {A : Type} (m : M A) :
  (forall w r w', m w = Some (r, w') -> w' = w) -> consumes m.
Proof.
  intros Hm w r w' H. apply Hm in H. subst w'. exists [].
  repeat split; try constructor; cbn [length]; lia.
Qed.

Lemma consumes_ret {A : Type} (a : A) : consumes (ret a).
Proof. apply consumes_pure. intros w r w' H. now injection H. Qed.

Lemma consumes_raise {A : Type} (e : exn) : consumes (@raise A e).
Proof. apply consumes_pure. intros w r w' H. now injection H. Qed.

Lemma consumes_stuck {A : Type} : consumes (@stuck A).
Proof. intros w r w' H. discriminate H. Qed.

Lemma consumes_now : consumes _now.
Proof. apply consumes_pure. intros w r w' H. now injection H. Qed.

Lemma consumes_covered {A : Type} (o : option A) : consumes (covered o).
Proof. destruct o; [apply consumes_ret|apply consumes_stuck]. Qed.

Lemma consumes_sleep (seconds : Z) :
  (0 <= seconds)%Z -> consumes (sleep seconds).
Proof.
  intros Hs w r w' H. injection H as <- <-. exists [].
  repeat split; try constructor; cbn [length now sent]; lia.
Qed.

Lemma consumes_problem_id_of problem : consumes (problem_id_of problem).
Proof. apply consumes_pure. apply problem_id_of_pure. Qed.

Lemma consumes_request api method params :
  consumes (request api method params).
Proof.
  intros w r w' H. apply request_cases in H.
  destruct H as [[-> Hr]|(x & rest & Es & -> & ->)].
  - exists []. split; [reflexivity|]. split; [cbn [length]; lia|].
    split; [constructor|]. split; [|intros _; lia].
    intros a Ha. destruct Hr as [[m Hm]|(m & _ & Hm)]; rewrite Hm in Ha;
      discriminate Ha.
  - exists [x]. cbn [script sent now]. rewrite length_app.
    split; [exact Es|]. split; [reflexivity|]. split; [constructor|].
    split.
    + intros a Hr. constructor; [|constructor].
      destruct (answer x) as [message|data] eqn:Ea; [discriminate Hr|].
      now exists data, a.
    + inversion 1. lia.
Qed.

Lemma consumes_bind {A B : Type} (m : M A) (k : A -> M B) :
  consumes m -> (forall a, consumes (k a)) -> consumes (bind m k).
Proof.
  intros Hm Hk w r w' H. apply bind_some in H.
  destruct H as [(a & w1 & H1 & H)|(e & H1 & ->)].
  - destruct (Hm _ _ _ H1) as (used1 & Es1 & Hl1 & _ & Ha1 & Ht1).
    destruct (Hk a _ _ _ H) as (used2 & Es2 & Hl2 & Hr2 & Ha2 & Ht2).
    specialize (Ha1 a eq_refl). exists (used1 ++ used2).
    split; [now rewrite Es1, Es2, app_assoc|].
    split; [rewrite length_app; lia|]. split; [|split].
    + destruct used2 as [|x used2]; [rewrite app_nil_r|].
      * clear - Ha1. induction Ha1 as [|x l Hx Hl IH]; [constructor|].
        destruct l; [constructor|]. constructor; assumption.
      * rewrite removelast_app by discriminate.
        apply Forall_app. now split.
    + intros b Hb. apply Forall_app. split; [exact Ha1|exact (Ha2 b Hb)].
    + intros Hall. apply Forall_app in Hall. destruct Hall as [Hu1 Hu2].
      specialize (Ht1 Hu1). specialize (Ht2 Hu2). lia.
  - destruct (Hm _ _ _ H1) as (used & Es & Hl & Hr & _ & Ht).
    exists used. repeat split; try assumption. discriminate.
Qed.

Lemma consumes_save_tests api problem_id tests :
  consumes (save_tests api problem_id tests).
Proof.
  induction tests as [|test tests IH]; simpl; [apply consumes_ret|].
  apply consumes_bind; [apply consumes_request|intros _; exact IH].
Qed.

Lemma consumes_wait_rounds rounds api problem_id deadline :
  consumes (wait_rounds rounds api problem_id deadline).
Proof.
  induction rounds as [|rounds IH]; simpl; [apply consumes_stuck|].
  apply consumes_bind; [apply consumes_now|]. intros t.
  destruct (Z.ltb t deadline); [|apply consumes_raise].
  apply consumes_bind; [apply consumes_request|]. intros packages.
  assert (Hgo : consumes (sleep 2 ;;;
                          wait_rounds rounds api problem_id deadline)).
  { apply consumes_bind; [apply consumes_sleep; lia|intros _; exact IH]. }
  destruct (negb (truthy packages)); [exact Hgo|].
  destruct packages; try apply consumes_stuck.
  apply consumes_bind; [apply consumes_covered|]. intros latest.
  destruct (is_str (lit "READY") (state_of latest)); [apply consumes_ret|].
  destruct (is_str (lit "FAILED") (state_of latest));
    [apply consumes_raise|exact Hgo].
Qed.

Lemma consumes_wait_for_package api problem_id timeout :
  consumes (wait_for_package api problem_id timeout).
Proof.
  intros w r w' H. unfold wait_for_package in H. revert H.
  apply consumes_bind; [apply consumes_now|].
  intros t. apply consumes_wait_rounds.
Qed.

Lemma consumes_create_polygon_problem api code task :
  consumes (create_polygon_problem api code task).
Proof.
  unfold create_polygon_problem.
  repeat (apply consumes_bind;
          [first [apply consumes_request|apply consumes_problem_id_of
                 |apply consumes_save_tests|apply consumes_wait_for_package]
          |intros ?]).
  apply consumes_ret.
Qed.

Lemma consumes_create_problems api slug tasks :
  forall index created,
    consumes (create_problems api slug index tasks created).
Proof.
  induction tasks as [|task tasks IH]; intros index created; simpl.
  - apply consumes_ret.
  - apply consumes_bind; [apply consumes_create_polygon_problem|].
    intros id. apply IH.
Qed.

End Script.

(** [main] uses up a beginning of the script of exchanges, one exchange for
    each call it makes.  It goes on after an exchange only when the request
    was accepted: a request that fails or is answered with a status other
    than [OK] is the last one made, and then no identifier is printed.  The
    clock does not go back when no exchange takes negative time. *)
Theorem main_stops_when_refused {rt : Runtime} (nfkd : str -> str)
    config xml_file document w out w' :
  main nfkd config xml_file document w = Some (out, w') ->
  exists used,
    script w = used ++ script w'
    /\ length (sent w') = (length (sent w) + length used)%nat
    /\ Forall accepted (removelast used)
    /\ (forall ids, out = Printed ids -> Forall accepted used)
    /\ (Forall (fun x => 0 <= latency x)%Z used -> (now w <= now w')%Z).
Proof.
  intros H. apply main_cases in H.
  destruct H as [(_ & -> & _)|(url & key & secret & root & cn & tasks & r
                               & -> & -> & Hp & Hne & Hc & Hout)].
  - exists []. repeat split; try constructor; cbn [length]; lia.
  - apply consumes_create_problems in Hc.
    destruct Hc as (used & Es & Hl & Hr & Ha & Ht).
    exists used. repeat split; try assumption.
    intros ids ->. destruct r as [ids'|e]; [|discriminate Hout].
    exact (Ha ids' eq_refl).
Qed.

(** ** The requests of the client *)




(** A URL without a scheme, a key that cannot be encoded: the request
    raises and the world is as it was. *)
Example request_without_scheme :
  request (rt := basic_runtime)
    (PolygonAPI_init (lit "polygon.codeforces.com/api/") (lit "key")
                     (lit "secret"))
    (lit "problem.create") [(lit "name", VStr (lit "week3-01"))]
    Sample.world0
  = Some (Raise (ValueError
                   (lit "unknown url type: 'polygon.codeforces.com/api/problem.create'")),
          Sample.world0).
Proof. vm_compute. reflexivity. Qed.

Example request_with_surrogate :
  request (rt := basic_runtime) Sample.unencodable_api
    (lit "problem.create") [(lit "name", VStr (lit "week3-01"))]
    Sample.world0
  = Some (Raise (UnicodeEncodeError
                   (lit "'utf-8' codec can't encode character '\ud800' in position 30: surrogates not allowed")),
          Sample.world0).
Proof. vm_compute. reflexivity. Qed.

(** The identifier of the new problem may come as a number or as a text. *)
Example problem_id_texts :
  problem_id_of (rt := basic_runtime) (JDict [(lit "id", JStr (lit "77"))])
    Sample.world0
  = Some (Ok 77%Z, Sample.world0)
  /\ problem_id_of (rt := basic_runtime)
       (JList [JDict [(lit "id", JStr (lit " 7_7 "))]]) Sample.world0
     = Some (Ok 77%Z, Sample.world0)
  /\ problem_id_of (rt := basic_runtime) (JDict [(lit "id", JStr (lit "7a"))])
       Sample.world0
     = Some (Raise (ValueError
                      (lit "invalid literal for int() with base 10: '7a'")),
             Sample.world0)
  /\ problem_id_of (rt := basic_runtime) (JDict [(lit "id", JNull)])
       Sample.world0
     = Some (Raise (TypeError
                      (lit "int() argument must be a string, a bytes-like object or a real number, not 'NoneType'")),
             Sample.world0).
Proof. repeat split; vm_compute; reflexivity. Qed.

(** ** The base URL *)

Lemma rstrip_char_repeat (d : char) (s : str) (n : nat) :
  rstrip_char d (s ++ repeat d n) = rstrip_char d s.
Proof.
  induction n as [|n IH]; [now rewrite app_nil_r|].
  change (repeat d (S n)) with (d :: repeat d n).
  rewrite repeat_cons, app_assoc. unfold rstrip_char in *.
  rewrite rev_app_distr. simpl. unfold char_eqb at 1. rewrite N.eqb_refl.
  exact IH.
Qed.

(** The client keeps the URL given without its trailing slashes, so that
    URLs that differ in trailing slashes give the same client, and the
    URL of a request has one slash between the base and the method. *)
Theorem api_url_without_trailing_slash (url key secret : str) :
  let api := PolygonAPI_init url key secret in
  (exists n, url = api_url api ++ repeat 0x2F%N n)
  /\ (forall init, api_url api <> init ++ [0x2F%N])
  /\ (forall n, PolygonAPI_init (url ++ repeat 0x2F%N n) key secret = api)
  /\ api_key api = key
  /\ api_secret api = secret.
Proof.
  cbv zeta. unfold PolygonAPI_init. cbn [api_url api_key api_secret].
  split; [apply rstrip_char_prefix|]. split; [|split; [|now split]].
  - intros init E.
    destruct (rstrip_char_ends 0x2F%N url) as [E'|(r & c & E' & Hc)];
      rewrite E' in E.
    + destruct init; discriminate E.
    + apply app_inj_tail in E. destruct E as [_ ->].
      unfold char_eqb in Hc. now rewrite N.eqb_refl in Hc.
  - intros n. now rewrite rstrip_char_repeat.
Qed.

Example api_url_example :
  api_url (PolygonAPI_init (lit "https://polygon.codeforces.com/api//")
             (lit "key") (lit "secret"))
  = lit "https://polygon.codeforces.com/api".
Proof. reflexivity. Qed.

(** ** Runs of [main] on the sample export *)

Lemma main_creates_every_task_witness :
  exists url key secret root contest_name tasks polls,
    Sample.config = Some (url, key, secret)
    /\ Some Sample.document = Some root
    /\ parse_moodle_xml (rt := basic_runtime) (lit "export.xml") root
       = Ok (contest_name, tasks)
    /\ tasks <> []
    /\ length [77%Z; 78%Z] = length tasks
    /\ length polls = length tasks
    /\ logged (rt := basic_runtime) (PolygonAPI_init url key secret)
         Sample.world2 Sample.final_world2
         (main_requests (rt := basic_runtime)
            (slugify (fun s => s) contest_name (lit "contest")) 1 tasks
            [77%Z; 78%Z] polls).
Proof.
  apply (main_creates_every_task (rt := basic_runtime) (fun s => s)
           Sample.config (lit "export.xml") (Some Sample.document)
           Sample.world2 [77%Z; 78%Z] Sample.final_world2).
  vm_compute. reflexivity.
Defined.

Example main_on_sample_export :
  map url (sent Sample.final_world2)
  = map (fun method => lit "https://polygon.codeforces.com/api/" ++ lit method)
        [ "problem.create"; "problem.updateInfo"; "problem.saveStatement";
          "problem.setChecker"; "problem.saveSolution"; "problem.saveTest";
          "problem.commitChanges"; "problem.buildPackage";
          "problem.packages";
          "problem.create"; "problem.updateInfo"; "problem.saveStatement";
          "problem.setChecker"; "problem.saveSolution"; "problem.saveTest";
          "problem.commitChanges"; "problem.buildPackage";
          "problem.packages"; "problem.packages" ]%string
  /\ map (fun c => dict_get (lit "name") (form c))
         (filter (fun c => str_eqb (url c)
                             (lit "https://polygon.codeforces.com/api/problem.create"))
                 (sent Sample.final_world2))
     = [Some (lit "week3-01"); Some (lit "week3-02")]
  /\ script Sample.final_world2 = []
  /\ now Sample.final_world2 = 1021%Z.
Proof. repeat split; vm_compute; reflexivity. Qed.


Lemma main_stops_when_refused_witness :
  exists used,
    script Sample.refusing_world = used ++ script Sample.refused_world
    /\ length (sent Sample.refused_world)
       = (length (sent Sample.refusing_world) + length used)%nat
    /\ Forall accepted (removelast used)
    /\ (forall ids, Exit1 = Printed ids -> Forall accepted used)
    /\ (Forall (fun x => 0 <= latency x)%Z used ->
        (now Sample.refusing_world <= now Sample.refused_world)%Z).
Proof.
  apply (main_stops_when_refused (rt := basic_runtime) (fun s => s)
           Sample.config (lit "export.xml") (Some Sample.document)
           Sample.refusing_world Exit1 Sample.refused_world).
  vm_compute. reflexivity.
Defined.

Example main_refused_example :
  length (sent Sample.refused_world) = 2%nat
  /\ script Sample.refused_world = [Sample.served JNull]
  /\ main (rt := basic_runtime) (fun s => s) Sample.config (lit "export.xml")
       (Some Sample.broken_document) Sample.world2
     = Some (Exit1, Sample.world2).
Proof. repeat split; vm_compute; reflexivity. Qed.


(** ** The tasks in the order of the export *)

(** The tasks come in the order of the task entries of the export, one for
    each entry, and each is what its own entry gives: no other entry and no
    category has a part in it. *)
Theorem tasks_follow_entries {rt : Runtime} (path : str) (root : element)
    (contest_name : str) (tasks : list MoodleTask) :
  parse_moodle_xml path root = Ok (contest_name, tasks) ->
  Forall2 (fun question task => parse_question question = Ok task)
          (task_entries root) tasks.
Proof. apply parse_moodle_xml_ok. Qed.

Lemma tasks_follow_entries_witness :
  exists tasks,
    Forall2 (fun question task =>
               parse_question (rt := basic_runtime) question = Ok task)
            (task_entries Sample.document) tasks
    /\ map name tasks = [lit "Sum Two Numbers"; lit "Unnamed task"].
Proof.
  eexists. split.
  - eapply (tasks_follow_entries (rt := basic_runtime) (lit "export.xml")
              Sample.document (lit "Week3")).
    vm_compute. reflexivity.
  - reflexivity.
Defined.

(** ** The legend of a task *)

Lemma splitlines_lines : forall n s,
  (length s <= n)%nat -> Forall one_line (splitlines s).
Proof.
  induction n as [|n IH]; intros s Hn.
  - destruct s; [constructor|simpl in Hn; lia].
  - destruct s as [|c rest]; [constructor|]. simpl in Hn.
    cbn [splitlines]. destruct (is_linebreak c) eqn:Ec.
    + destruct rest as [|d rest']; [repeat constructor|]. simpl in Hn.
      destruct (char_eqb c 0x0D && char_eqb d 0x0A);
        (constructor; [constructor|apply IH; simpl; lia]).
    + assert (Hrest : Forall one_line (splitlines rest)) by (apply IH; lia).
      destruct (splitlines rest) as [|l ls]; [repeat constructor; exact Ec|].
      inversion Hrest; subst. constructor; [|assumption].
      constructor; assumption.
Qed.

Lemma strip_part (s : str) : exists before after, s = before ++ strip s ++ after.
Proof.
  unfold strip, lstrip.
  destruct (dropWhile_suffix isspace s) as (before & E & _).
  destruct (rstrip_prefix (dropWhile isspace s)) as (after & E').
  exists before, after. now rewrite <- E'.
Qed.

Lemma content_lines_one_line (text : str) :
  Forall one_line (content_lines text).
Proof.
  apply Forall_forall. intros l Hl. unfold content_lines in Hl.
  apply filter_In in Hl. destruct Hl as [Hin _].
  apply in_map_iff in Hin. destruct Hin as (x & <- & Hx).
  pose proof (splitlines_lines (length text) text (Nat.le_refl _)) as Hall.
  rewrite Forall_forall in Hall. specialize (Hall _ Hx).
  destruct (strip_part x) as (before & after & E).
  unfold one_line in *. rewrite E in Hall.
  apply Forall_app in Hall. destruct Hall as [_ Hall].
  apply Forall_app in Hall. apply Hall.
Qed.

Lemma one_line_no_newline (l : str) : one_line l -> ~ In 0x0A%N l.
Proof.
  intros H Hin. unfold one_line in H. rewrite Forall_forall in H.
  specialize (H _ Hin). discriminate H.
Qed.

Lemma cut_join (l rest : str) :
  ~ In 0x0A%N l -> cut blank_line (l ++ blank_line ++ rest) = Some (l, rest).
Proof.
  induction l as [|c l IH]; intros H.
  - reflexivity.
  - change ((c :: l) ++ blank_line ++ rest)
      with (c :: (l ++ blank_line ++ rest)).
    cbn [cut]. unfold blank_line at 1.
    change (strip_prefix [0x0A%N; 0x0A%N] (c :: l ++ blank_line ++ rest))
      with (if char_eqb 0x0A c
            then strip_prefix [0x0A%N] (l ++ blank_line ++ rest) else None).
    rewrite char_eqb_neq by (intros E; apply H; left; now symmetry).
    rewrite IH; [reflexivity|]. intros Hin. apply H. now right.
Qed.

Lemma split_rounds_join (ls : list str) : forall n,
  ls <> [] -> Forall (fun l => ~ In 0x0A%N l) ls ->
  (length ls <= S n)%nat ->
  split_rounds n blank_line (join blank_line ls) = ls.
Proof.
  induction ls as [|l ls IH]; intros n Hne Hall Hn; [congruence|].
  inversion Hall as [|? ? Hl Hls]; subst.
  destruct ls as [|l2 ls].
  - cbn [join]. destruct n; [reflexivity|]. cbn [split_rounds].
    unfold blank_line. now rewrite cut_absent.
  - change (join blank_line (l :: l2 :: ls))
      with (l ++ blank_line ++ join blank_line (l2 :: ls)).
    destruct n as [|n]; [simpl in Hn; lia|]. cbn [split_rounds].
    rewrite cut_join by exact Hl. f_equal.
    apply IH; [discriminate|exact Hls|simpl in *; lia].
Qed.

Lemma join_length (sep : str) (ls : list str) :
  sep <> [] -> (length ls <= S (length (join sep ls)))%nat.
Proof.
  intros Hsep. induction ls as [|l ls IH]; [simpl; lia|].
  destruct ls as [|l2 ls]; [simpl; lia|].
  change (join sep (l :: l2 :: ls)) with (l ++ sep ++ join sep (l2 :: ls)).
  rewrite !length_app. destruct sep; [congruence|]. simpl in *. lia.
Qed.

Lemma split_join (ls : list str) :
  ls <> [] -> Forall one_line ls ->
  split blank_line (join blank_line ls) = ls.
Proof.
  intros Hne Hall. unfold split. apply split_rounds_join; [exact Hne| |].
  - eapply Forall_impl; [|exact Hall]. apply one_line_no_newline.
  - apply join_length. discriminate.
Qed.

Lemma strip_title_of_lines {rt : Runtime} (lines : list str) (name : str) :
  Forall trimmed lines -> Forall one_line lines ->
  _strip_redundant_title (join blank_line lines) name
  = legend_without_title lines name.
Proof.
  intros Ht Hl. destruct lines as [|first rest]; [reflexivity|].
  unfold _strip_redundant_title, legend_without_title.
  assert (Hj : trimmed (join blank_line (first :: rest)))
    by (apply join_trimmed; [discriminate|exact Ht]).
  destruct (join blank_line (first :: rest)) as [|c s] eqn:Ej.
  { destruct Hj as [(c & r & E & _) _]. discriminate E. }
  rewrite <- Ej, split_join by (try discriminate; exact Hl).
  destruct (str_eqb _ _); cbn [negb]; [|reflexivity].
  inversion Ht as [|? ? _ Hrest]; subst.
  destruct rest as [|second rest]; [reflexivity|].
  inversion Hrest as [|? ? Hs _]; subst. cbn [drop_blank_sections].
  rewrite (strip_of_trimmed _ Hs).
  destruct Hs as [(c' & r & -> & _) _]. reflexivity.
Qed.

(** The legend of a parsed task is made of the legend lines of its body:
    the lines joined by blank lines, without the first line when that line
    repeats the name of the task up to letter case and whitespace.  A body
    whose only legend line is the name gives an empty legend. *)
Theorem task_legend_from_lines {rt : Runtime} (question : element)
    (task : MoodleTask) :
  parse_question question = Ok task ->
  exists body,
    find questiontext_path question = Some body
    /\ legend task
       = legend_without_title
           (legend_lines
              (scan (content_lines
                       (markup_to_text (text_or [] (text_of body))))))
           (name task).
Proof.
  unfold parse_question.
  destruct (find name_path question) as [name_node|]; [|discriminate].
  destruct (find questiontext_path question) as [body|]; [|discriminate].
  destruct (find answer_path question) as [answer_node|]; [|discriminate].
  pose proof (legend_join_lines (text_or [] (text_of body))) as Hlegend.
  destruct (extract_text_sections (text_or [] (text_of body)))
    as [[l i] o].
  unfold legend_of in Hlegend. cbn [fst] in Hlegend.
  intros H. injection H as <-. cbn [legend name].
  exists body. split; [reflexivity|]. rewrite Hlegend.
  apply strip_title_of_lines.
  - apply legend_lines_trimmed.
  - assert (Hall : Forall one_line
                     (buffered (scan (content_lines
                        (markup_to_text (text_or [] (text_of body))))))).
    { apply buffered_all; [constructor|apply content_lines_one_line]. }
    unfold buffered in Hall. apply Forall_app in Hall. apply Hall.
Qed.

Lemma task_legend_from_lines_witness :
  exists body,
    find questiontext_path Sample.titled_question = Some body
    /\ legend Sample.titled_task
       = legend_without_title (rt := basic_runtime)
           (legend_lines
              (scan (rt := basic_runtime)
                 (content_lines
                    (markup_to_text (rt := basic_runtime)
                       (text_or [] (text_of body))))))
           (name Sample.titled_task).
Proof.
  apply (task_legend_from_lines (rt := basic_runtime) Sample.titled_question
           Sample.titled_task).
  vm_compute. reflexivity.
Defined.

Example titled_task_legend :
  name Sample.titled_task = lit "Sum Two Numbers"
  /\ legend Sample.titled_task
     = Sample.lines ["Compute a+b."; ""; "Both are small."]%string.
Proof. split; reflexivity. Qed.

(** ** Slugs are left as they are *)

Lemma followed_inv (sep : char -> bool) (c : char) (s : str) :
  followed sep (c :: s) ->
  followed sep s
  /\ (sep c = true ->
      s = [] \/ exists n rest, s = n :: rest /\ sep n = false).
Proof.
  intros H. split.
  - intros before x after E Hx. apply (H (c :: before) x after); [|exact Hx].
    simpl. now rewrite E.
  - intros Hc. exact (H [] c s eq_refl Hc).
Qed.

Lemma separates_followed (sep : char -> bool) (s : str) :
  separates sep s -> followed sep s.
Proof.
  intros H before c after E Hc. right. exact (proj2 (H _ _ _ E Hc)).
Qed.

Lemma separates_head (sep : char -> bool) (c : char) (s : str) :
  separates sep (c :: s) -> sep c = false.
Proof.
  intros H. destruct (sep c) eqn:E; [|reflexivity].
  destruct (H [] c s eq_refl E) as [(init & p & Hp & _) _].
  destruct init; discriminate Hp.
Qed.

Lemma separates_last (sep : char -> bool) (r : str) (c : char) :
  separates sep (r ++ [c]) -> sep c = false.
Proof.
  intros H. destruct (sep c) eqn:E; [|reflexivity].
  destruct (H r c [] eq_refl E) as [_ (n & rest & Hn & _)]. discriminate Hn.
Qed.

(** A text in which the characters of the class are single [d]s, each
    followed by a character that is not of the class, is left unchanged. *)
Lemma sub_runs_fixed (p : char -> bool) (d : char) (s : str) : forall b,
  followed p s ->
  Forall (fun c => p c = true -> c = d) s ->
  (b = true -> s = [] \/ exists n rest, s = n :: rest /\ p n = false) ->
  sub_runs p [d] b s = s.
Proof.
  induction s as [|c s IH]; intros b Hf Hd Hb; [reflexivity|].
  apply followed_inv in Hf. destruct Hf as [Hf Hc].
  inversion Hd as [|? ? Hcd Hds]; subst. cbn [sub_runs].
  destruct (p c) eqn:Ec.
  - destruct b.
    + destruct (Hb eq_refl) as [E|(n & rest & E & Hn)]; [discriminate E|].
      injection E as <- _. congruence.
    + rewrite (Hcd eq_refl). cbn [app]. f_equal.
      apply IH; [exact Hf|exact Hds|]. intros _. exact (Hc eq_refl).
  - f_equal. apply IH; [exact Hf|exact Hds|discriminate].
Qed.

Lemma slug_chars_ascii (c : char) :
  slug_char c = true \/ c = dash ->
  is_ascii c = true /\ ascii_lower c = c
  /\ (not_slug_char c = true -> c = dash).
Proof.
  intros [H| ->]; [|repeat split].
  assert (Hr : (0x61 <= c <= 0x7A \/ 0x30 <= c <= 0x39)%N).
  { unfold slug_char, in_range in H. apply orb_true_iff in H.
    destruct H as [H|H]; apply andb_true_iff in H; destruct H as [H1 H2];
      apply N.leb_le in H1, H2; [left|right]; split; assumption. }
  split; [|split].
  - unfold is_ascii. apply N.ltb_lt. unfold char in *. lia.
  - unfold ascii_lower, in_range.
    destruct (N.leb 0x41 c && N.leb c 0x5A) eqn:E; [|reflexivity].
    apply andb_true_iff in E. destruct E as [E1 E2].
    apply N.leb_le in E1, E2. unfold char in *. lia.
  - intros Hn. unfold not_slug_char in Hn. rewrite H in Hn. discriminate Hn.
Qed.

Lemma slug_text_of_slug (nfkd : str -> str) (s : str) :
  well_formed_slug s -> nfkd s = s -> slug_text nfkd s = s.
Proof.
  intros (Hne & Hchars & Hsep) Hn. unfold slug_text. rewrite Hn.
  assert (Hascii : filter is_ascii s = s).
  { clear - Hchars. induction Hchars as [|c s Hc _ IH]; [reflexivity|].
    simpl. rewrite (proj1 (slug_chars_ascii c Hc)). now rewrite IH. }
  assert (Hlower : map ascii_lower s = s).
  { clear - Hchars. induction Hchars as [|c s Hc _ IH]; [reflexivity|].
    simpl. rewrite (proj1 (proj2 (slug_chars_ascii c Hc))). now rewrite IH. }
  rewrite Hascii, Hlower.
  assert (Hruns : sub_runs not_slug_char (lit "-") false s = s).
  { apply (sub_runs_fixed not_slug_char dash); [| |discriminate].
    - intros before c after E Hc. right.
      assert (Hcd : c = dash).
      { rewrite Forall_forall in Hchars.
        apply (slug_chars_ascii c); [|exact Hc].
        apply Hchars. rewrite E. apply in_elt. }
      subst c.
      destruct (Hsep _ _ _ E (N.eqb_refl _)) as [_ (n & rest & -> & Hnd)].
      exists n, rest. split; [reflexivity|].
      rewrite Forall_forall in Hchars.
      destruct (Hchars n) as [Hs| ->].
      + rewrite E. apply in_or_app. right. right. now left.
      + unfold not_slug_char. now rewrite Hs.
      + discriminate Hnd.
    - eapply Forall_impl; [|exact Hchars]. intros c Hc.
      apply (slug_chars_ascii c Hc). }
  rewrite Hruns.
  assert (Hstrip : strip_dashes s = s).
  { unfold strip_dashes. destruct s as [|c s]; [congruence|].
    rewrite dropWhile_stop by exact (separates_head _ _ _ Hsep).
    unfold rstrip_char.
    destruct (@exists_last _ (c :: s)) as (r & x & E); [discriminate|].
    rewrite E in *. rewrite rev_app_distr. cbn [rev app dropWhile].
    change (char_eqb dash x) with (is_dash x).
    rewrite (separates_last _ _ _ Hsep).
    cbn [rev]. now rewrite rev_involutive. }
  rewrite Hstrip.
  apply (sub_runs_fixed is_dash dash); [| |discriminate].
  - now apply separates_followed.
  - apply Forall_forall. intros c _ Hc. symmetry. now apply N.eqb_eq.
Qed.

(** A well-formed slug is its own slug, when [nfkd] leaves it unchanged (as
    NFKD leaves every ASCII text): [slugify] changes no name that is already
    in its final form, and so gives the same result when applied again. *)
Theorem slugify_fixes_slugs (nfkd : str -> str) (s fallback : str) :
  well_formed_slug s -> nfkd s = s -> slugify nfkd s fallback = s.
Proof.
  intros Hs Hn. unfold slugify. rewrite (slug_text_of_slug nfkd s Hs Hn).
  destruct s; [|reflexivity]. now destruct Hs.
Qed.

Lemma well_formed_slug_text (nfkd : str -> str) (value : str) :
  slug_text nfkd value <> [] -> well_formed_slug (slug_text nfkd value).
Proof.
  intros H. split; [exact H|]. split;
    [apply slug_text_chars|apply slug_text_separates].
Qed.

Lemma slugify_fixes_slugs_witness :
  slugify (fun s => s) (lit "week-3-a-b") (lit "contest") = lit "week-3-a-b".
Proof.
  apply (slugify_fixes_slugs (fun s => s) (lit "week-3-a-b") (lit "contest"));
    [|reflexivity].
  change (lit "week-3-a-b") with (slug_text (fun s => s) (lit "Week 3: A+B")).
  apply well_formed_slug_text. discriminate.
Defined.

(** ** The form of a problem code *)

Lemma followed_none (sep : char -> bool) (s : str) :
  Forall (fun c => sep c = false) s -> followed sep s.
Proof.
  intros H before c after E Hc. rewrite Forall_forall in H.
  rewrite (H c) in Hc; [discriminate Hc|]. rewrite E. apply in_elt.
Qed.

Lemma followed_app (sep : char -> bool) (a b : str) :
  followed sep a -> followed sep b ->
  (a = [] \/ exists r c, a = r ++ [c] /\ sep c = false) ->
  followed sep (a ++ b).
Proof.
  induction a as [|x a IH]; intros Ha Hb Hlast; [exact Hb|].
  apply followed_inv in Ha. destruct Ha as [Ha Hx].
  destruct Hlast as [E|(r & c & E & Hc)]; [discriminate E|].
  cbn [app]. apply followed_cons.
  - apply IH; [exact Ha|exact Hb|].
    destruct r as [|y r]; [left|right].
    + now injection E as _ ->.
    + injection E as _ ->. eauto.
  - intros Hsx. destruct (Hx Hsx) as [->|(n & rest & -> & Hn)].
    + destruct r as [|y r].
      * injection E as ->. congruence.
      * injection E as _ E. destruct r; discriminate E.
    + right. exists n, (rest ++ b). split; [reflexivity|exact Hn].
Qed.

Lemma uint_digits (u : Decimal.uint) :
  Forall (fun c => in_range 0x30 0x39 c = true)
         (lit (NilEmpty.string_of_uint u)).
Proof.
  induction u; simpl; constructor; (reflexivity || assumption).
Qed.

Lemma str_of_int_digits (z : Z) :
  (0 <= z)%Z ->
  Forall (fun c => in_range 0x30 0x39 c = true) (str_of_int z)
  /\ str_of_int z <> [].
Proof.
  intros Hz. unfold str_of_int.
  destruct z as [|p|p]; [split; [repeat constructor|discriminate]| |lia].
  cbn [Z.to_int NilZero.string_of_int].
  pose proof (DecimalPos.Unsigned.to_uint_nonnil p) as Hp.
  unfold NilZero.string_of_uint.
  destruct (Pos.to_uint p) as [|u|u|u|u|u|u|u|u|u|u] eqn:E;
    [congruence|..]; (split; [apply uint_digits|discriminate]).
Qed.

Lemma two_digits_digits (index : Z) :
  (0 <= index)%Z ->
  Forall (fun c => in_range 0x30 0x39 c = true) (two_digits index)
  /\ (2 <= length (two_digits index))%nat.
Proof.
  intros Hz. destruct (str_of_int_digits index Hz) as [Hd Hne].
  unfold two_digits. destruct (str_of_int index) as [|a [|b s]]; [congruence| |].
  - split; [constructor; [reflexivity|exact Hd]|simpl; lia].
  - split; [exact Hd|simpl; lia].
Qed.

(** The code of a problem is a well-formed slug when the contest slug is one
    and the index is not negative: it is the contest slug, one [-], and at
    least two decimal digits. *)
Theorem problem_code_well_formed (contest_slug : str) (index : Z) :
  well_formed_slug contest_slug -> (0 <= index)%Z ->
  well_formed_slug (problem_code contest_slug index)
  /\ exists digits,
       problem_code contest_slug index = contest_slug ++ [dash] ++ digits
       /\ (2 <= length digits)%nat
       /\ Forall (fun c => in_range 0x30 0x39 c = true) digits.
Proof.
  intros (Hne & Hchars & Hsep) Hz.
  destruct (two_digits_digits index Hz) as [Hd Hlen].
  unfold problem_code. change (lit "-") with [dash].
  set (digits := two_digits index) in *.
  split; [|exists digits; repeat split; assumption].
  assert (Hnd : Forall (fun c => is_dash c = false) digits).
  { eapply Forall_impl; [|exact Hd]. intros c Hc.
    unfold in_range in Hc. apply andb_true_iff in Hc. destruct Hc as [Hc _].
    apply N.leb_le in Hc. apply N.eqb_neq. unfold dash, char in *. lia. }
  destruct contest_slug as [|c0 slug]; [congruence|].
  destruct (@exists_last _ (c0 :: slug)) as (r & x & Er); [discriminate|].
  destruct (@exists_last _ digits) as (init & y & Ed).
  { intros E. rewrite E in Hlen. simpl in Hlen. lia. }
  split; [discriminate|]. split.
  - apply Forall_app. split; [exact Hchars|]. constructor; [now right|].
    eapply Forall_impl; [|exact Hd]. intros c Hc. left.
    unfold slug_char. rewrite Hc. apply orb_true_r.
  - apply separates_of_followed.
    + apply followed_app.
      * now apply separates_followed.
      * apply followed_cons; [now apply followed_none|]. intros _. right.
        destruct digits as [|d rest]; [simpl in Hlen; lia|].
        exists d, rest. split; [reflexivity|]. now inversion Hnd.
      * right. exists r, x. split; [exact Er|].
        rewrite Er in Hsep. exact (separates_last _ _ _ Hsep).
    + right. exists c0, (slug ++ [dash] ++ digits). split; [reflexivity|].
      exact (separates_head _ _ _ Hsep).
    + right. exists ((c0 :: slug) ++ [dash] ++ init), y. split.
      * rewrite Ed. now rewrite <- !app_assoc.
      * rewrite Ed in Hnd. apply Forall_app in Hnd. destruct Hnd as [_ Hy].
        now inversion Hy.
Qed.

Lemma problem_code_well_formed_witness :
  well_formed_slug (problem_code (slug_text (fun s => s) (lit "Week 3")) 7)
  /\ exists digits,
       problem_code (slug_text (fun s => s) (lit "Week 3")) 7
       = slug_text (fun s => s) (lit "Week 3") ++ [dash] ++ digits
       /\ (2 <= length digits)%nat
       /\ Forall (fun c => in_range 0x30 0x39 c = true) digits.
Proof.
  apply (problem_code_well_formed (slug_text (fun s => s) (lit "Week 3")) 7);
    [|lia].
  apply well_formed_slug_text. discriminate.
Defined.

Example problem_code_example :
  problem_code (slug_text (fun s => s) (lit "Week 3")) 7 = lit "week-3-07".
Proof. reflexivity. Qed.
